(** * check_gamefixes.py: validation of the gamefix modules

    A shallow embedding of [.github/scripts/check_gamefixes.py] and the
    properties of its four checks.

    Conventions of the model.
    - A Python [str] is a [string]: for a file name, the bytes of its UTF-8
      encoding.  [startswith], [removeprefix], [removesuffix] and [stem] are
      called with ASCII arguments, and act on these bytes as they act on the
      characters.  [str.isnumeric] and [int] consult the Unicode character
      database of the interpreter.  The checks are given twice.  First for
      the ASCII alphabet, where [str.isnumeric] is "non-empty and made of
      the digits 0-9" and [int] of such a string is its decimal value; then,
      under [Run], for an interpreter whose [str.isnumeric] and [int] are
      parameters, and whose [int] may raise.  The last section shows that
      the two agree on a project whose names are ASCII.
    - A Python [set] is a [gset].  Where the script iterates over a set the
      first model iterates over [elements], and the statements about it are
      chosen so that they hold whatever the order of iteration is; under
      [Run] the order is the interpreter's.
    - The file system is what [Path.glob] enumerates, in the order in which
      it enumerates it.
    - An upstream service is the data it answers with: a stream of parsed
      items that ends, or breaks off where fetching or parsing raises (a
      request that fails at once is a stream that breaks off at its head).
    - [print], the HTTPS connection and exceptions are threaded through a
      state and error monad; the formatted text of a message or of an error
      is represented by the data it is built from.  Under [Run] the state
      also holds the module global that the checks read. *)

From Stdlib Require Import String Ascii ZArith List Lia DecimalString DecimalZ.
From stdpp Require Import base decidable list strings gmap sets.

Local Open Scope string_scope.
Local Open Scope Z_scope.
#[local] Set Warnings "-clear-no-such-hyp".

(** ** Python string methods *)

Module Py.

(** [s.startswith(p)] *)
Definition startswith (p s : string) : bool := String.prefix p s.

(** [s.endswith(p)] *)
Definition endswith (p s : string) : bool :=
  let n := String.length s in
  let k := String.length p in
  (k <=? n)%nat && String.eqb (String.substring (n - k) k s) p.

(** [s.removeprefix(p)] *)
Definition removeprefix (p s : string) : string :=
  if startswith p s
  then String.substring (String.length p) (String.length s - String.length p) s
  else s.

(** [s.removesuffix(p)]; as in CPython an empty suffix removes nothing. *)
Definition removesuffix (p s : string) : string :=
  if endswith p s && negb (String.eqb p "")
  then String.substring 0 (String.length s - String.length p) s
  else s.

Definition is_digit (c : ascii) : bool :=
  let n := nat_of_ascii c in (48 <=? n)%nat && (n <=? 57)%nat.

Fixpoint all_digits (s : string) : bool :=
  match s with
  | EmptyString => true
  | String c r => is_digit c && all_digits r
  end.

(** [s.isnumeric()] on ASCII strings; what it is on the others is left to
    [rt_isnumeric] below. *)
Definition isnumeric (s : string) : bool :=
  negb (String.eqb s "") && all_digits s.

Fixpoint int_acc (acc : Z) (s : string) : Z :=
  match s with
  | EmptyString => acc
  | String c r => int_acc (10 * acc + (Z.of_nat (nat_of_ascii c) - 48)) r
  end.

(** [int(s)] for a string of the digits 0-9; what it is on the other
    numeric strings is left to [rt_int] below. *)
Definition int (s : string) : Z := int_acc 0 s.

(** [str(n)] for an integer *)
Definition str_int (n : Z) : string := NilZero.string_of_int (Z.to_int n).

(** Index of the last ['.'] of a name, as [name.rfind('.')]. *)
Fixpoint rfind_dot (s : string) (i : nat) (last : option nat) : option nat :=
  match s with
  | EmptyString => last
  | String c r =>
      rfind_dot r (S i) (if Ascii.eqb c "." then Some i else last)
  end.

(** [PurePath.stem]: the name without its last suffix; a dot in first or
    in last position does not start a suffix. *)
Definition stem (name : string) : string :=
  match rfind_dot name 0%nat None with
  | Some i =>
      if (0 <? i)%nat && (i <? String.length name - 1)%nat
      then String.substring 0 i name
      else name
  | None => name
  end.

End Py.

(** ** [_batch_generator] *)

(** Where a generator is suspended. *)
Inductive gen_pc :=
| GenCreated     (* not started yet *)
| GenInLoop      (* at the [yield] inside the loop *)
| GenAfterLoop.  (* at the [yield] after the loop *)

(** The frame of the generator: what [gamefix.glob('*')] has still to give,
    the content of the one set object bound to [appids], and [count]. *)
Record generator := {
  gen_pc_of : gen_pc;
  gen_glob : list string;
  gen_appids : gset string;
  gen_count : nat
}.

(** The [for] loop of the generator, from the top of an iteration to the
    next [yield]. *)
Fixpoint gen_loop (size : nat) (files : list string)
    (appids : gset string) (count : nat) : generator :=
  match files with
  | [] =>
      {| gen_pc_of := GenAfterLoop; gen_glob := [];
         gen_appids := appids; gen_count := count |}
  | name :: rest =>
      if negb (Py.startswith "umu-" name) then gen_loop size rest appids count
      else
        let appid := Py.removesuffix ".py" (Py.removeprefix "umu-" name) in
        let appids := {[ appid ]} ∪ appids in
        if (count =? size)%nat
        then {| gen_pc_of := GenInLoop; gen_glob := rest;
                gen_appids := appids; gen_count := count |}
        else gen_loop size rest appids (S count)
  end.

(** [next(g)]: the frame at the next [yield], or nothing when the generator
    returns.  What is yielded is the set object of the frame itself, not a
    copy: its content is [gen_appids] of the frame, for as long as the
    generator is not resumed. *)
Definition gen_next (size : nat) (g : generator) : option generator :=
  match gen_pc_of g with
  | GenCreated =>
      (* appids = set(); count = 0 *)
      Some (gen_loop size (gen_glob g) ∅ 0%nat)
  | GenInLoop =>
      (* appids.clear(); count = 0; continue *)
      Some (gen_loop size (gen_glob g) ∅ 0%nat)
  | GenAfterLoop =>
      (* the function returns: StopIteration *)
      None
  end.

(** What a consumer sees that copies the yielded set before it resumes the
    generator, as [check_gogfixes] does with [gogids.copy()]. *)
Fixpoint gen_copies (size : nat) (fuel : nat) (g : generator) : list (gset string) :=
  match fuel with
  | O => []
  | S fuel =>
      match gen_next size g with
      | None => []
      | Some g => gen_appids g :: gen_copies size fuel g
      end
  end.

(** The batches of a listing, as they are when they are yielded.  The
    generator is resumed at most once per file and twice more. *)
Definition _batch_generator (files : list string) (size : nat) : list (gset string) :=
  gen_copies size (2 + length files)
    {| gen_pc_of := GenCreated; gen_glob := files;
       gen_appids := ∅; gen_count := 0 |}.

(** ** Upstream data *)

(** What can go wrong while a response is being fetched and parsed. *)
Inductive upstream_error := NetworkError | JSONError.

(** A response read incrementally: the parsed items one after the other, up
    to the end of the document or to the point where reading it raises. *)
Inductive stream (A : Type) : Type :=
| SEnd
| SItem (a : A) (rest : stream A)
| SFail (e : upstream_error).
Arguments SEnd {A}.
Arguments SItem {A} a rest.
Arguments SFail {A} e.

(** A JSON scalar as Python sees it. *)
Inductive jvalue := JNull | JBool (b : bool) | JInt (n : Z) | JStr (s : string).

(** [str(v)] *)
Definition py_str (v : jvalue) : string :=
  match v with
  | JNull => "None"
  | JBool true => "True"
  | JBool false => "False"
  | JInt n => Py.str_int n
  | JStr s => s
  end.

(** One event of [ijson.parse]: the prefix and the value (the event kind is
    not looked at by the script). *)
Definition parse_event : Type := string * jvalue.

(** ** The file system *)

Record Entry := { name : string; is_symlink : bool; exists_ : bool }.

(** A directory under the project root and what [glob('*')] lists in it. *)
Record Dir := { dir_name : string; entries : list Entry }.

(** A path [root/parent/name]. *)
Record Path := { parent : string; file : Entry }.

Record World := {
  project : string;
  fs : list Dir;
  (** the [appid] of the items of [applist.apps] *)
  steam_applist : stream Z;
  (** the parse events of [/api/appdetails?appids=<id>] *)
  steam_appdetails : Z -> stream parse_event;
  (** the [id] of the items answered for a batch of ids *)
  gog_products : gset string -> stream jvalue;
  (** the [umu_id] of the items of the umu database *)
  umu_database : stream jvalue
}.

(** [root.joinpath(d).glob('*')] *)
Definition listdir (fs : list Dir) (d : string) : list Entry :=
  match List.find (fun x => String.eqb (dir_name x) d) fs with
  | Some x => entries x
  | None => []
  end.

(** [root.glob('gamefixes-*/*.py')] *)
Definition glob_gamefixes (fs : list Dir) : list Path :=
  d ← List.filter (fun d => Py.startswith "gamefixes-" (dir_name d)) fs;
  e ← List.filter (fun e => Py.endswith ".py" (name e)) (entries d);
  [ {| parent := dir_name d; file := e |} ].

(** [file.name.startswith(('__init__.py', 'default.py', 'winetricks-gui.py'))] *)
Definition ignored (n : string) : bool :=
  Py.startswith "__init__.py" n || Py.startswith "default.py" n
  || Py.startswith "winetricks-gui.py" n.

(** The list [gamefixes] of [check_links] and [check_filenames]. *)
Definition gamefixes (fs : list Dir) : list Path :=
  List.filter (fun m => negb (ignored (name (file m)))) (glob_gamefixes fs).

(** ** Effects *)

(** What is printed to the error stream, by what it is formatted from. *)
Inductive message :=
| CheckingLinks
| CheckingNames
| Module_ (parent name : string)
| ValidatingSteam (against : string)
| RemovingSteam (appid : Z)
| RemainingSteam (appids : gset Z)
| ValidatingGog (against : string)
| ValidatingGogSteam
| RemovingGog (appid : string)
| RemainingGog (appids : gset string).

(** What a run does that can be observed from outside. *)
Inductive event :=
| Stdout (s : string)
| Stderr (m : message)
| UrlOpen (url : string)
| UrlClose
| ConnRequest (host path : string).

(** The exceptions, by what their message is formatted from. *)
Inductive exn :=
| BrokenLink (m : Path)               (* FileNotFoundError, check_links *)
| MissingFile (m : Path)              (* FileNotFoundError, check_filenames *)
| InvalidSteamFilename (m : Path)     (* ValueError *)
| MissingUmuPrefix (m : Path)         (* ValueError *)
| InvalidSteamAppId (appid : Z)       (* ValueError *)
| InvalidGogAppIds (appids : gset string)  (* ValueError *)
| InvalidLiteral (s : string)         (* ValueError, int() *)
| Upstream (e : upstream_error).

(** What a run leaves behind: its output, latest event first, and the
    HTTPS connections it holds open. *)
Record State := { output : list event; open_connections : nat }.

Inductive result (A : Type) : Type := Ok (a : A) | Raise (e : exn).
Arguments Ok {A} a.
Arguments Raise {A} e.

Definition M (A : Type) : Type := State -> result A * State.

#[export] Instance M_ret : MRet M := fun A a s => (Ok a, s).
#[export] Instance M_bind : MBind M := fun A B f m s =>
  match m s with
  | (Ok a, s') => f a s'
  | (Raise e, s') => (Raise e, s')
  end.

Definition raise {A} (e : exn) : M A := fun s => (Raise e, s).

Definition emit (e : event) : M unit := fun s =>
  (Ok tt, {| output := e :: output s; open_connections := open_connections s |}).

Definition print (m : message) : M unit := emit (Stderr m).

(** [HTTPSConnection(host)] and [conn.close()] *)
Definition conn_open : M unit := fun s =>
  (Ok tt, {| output := output s; open_connections := S (open_connections s) |}).
Definition conn_close : M unit := fun s =>
  (Ok tt, {| output := output s; open_connections := Nat.pred (open_connections s) |}).

(** [with urlopen(Request(url, ...)) as r: body]: the response is closed
    however the body is left. *)
Definition with_urlopen {A} (url : string) (body : M A) : M A := fun s =>
  let '(r, s') := (emit (UrlOpen url);; body) s in
  (r, snd (emit UrlClose s')).

(** ** [check_links] *)

Fixpoint links_loop (ms : list Path) : M unit :=
  match ms with
  | [] => mret tt
  | m :: rest =>
      print (Module_ (parent m) (name (file m)));;
      if is_symlink (file m) && negb (exists_ (file m))
      then raise (BrokenLink m)
      else links_loop rest
  end.

Definition check_links (fs : list Dir) : M unit :=
  let gamefixes := gamefixes fs in
  print CheckingLinks;;
  links_loop gamefixes.

(** ** [check_filenames] *)

Definition is_steam (m : Path) : bool := Py.startswith "gamefixes-steam" (parent m).

Fixpoint filenames_loop (ms : list Path) : M unit :=
  match ms with
  | [] => mret tt
  | m :: rest =>
      print (Module_ (parent m) (name (file m)));;
      if negb (exists_ (file m)) then raise (MissingFile m)
      else if is_steam m && negb (Py.isnumeric (Py.stem (name (file m))))
      then raise (InvalidSteamFilename m)
      else if negb (is_steam m) && negb (Py.startswith "umu-" (name (file m)))
      then raise (MissingUmuPrefix m)
      else filenames_loop rest
  end.

Definition check_filenames (fs : list Dir) : M unit :=
  let gamefixes := gamefixes fs in
  print CheckingNames;;
  filenames_loop gamefixes.

(** ** [check_steamfixes] *)

(** Steam games that are no longer on sale, but are valid IDs *)
Definition whitelist_steam : gset Z :=
  {[ 231990; 4730; 105400; 321040; 12840; 7850 ]}.

(** The loop that collects the ids of [gamefixes-steam], for ASCII names:
    there [int] is called on strings of the digits 0-9 and does not raise.
    [Run.steam_collect] is the loop for any name. *)
Fixpoint steam_collect (files : list Entry) (appids : gset Z) : gset Z :=
  match files with
  | [] => appids
  | f :: rest =>
      let appid := Py.removesuffix ".py" (name f) in
      if negb (Py.isnumeric appid) then steam_collect rest appids
      else steam_collect rest ({[ Py.int appid ]} ∪ appids)
  end.

(** The loop over the items of the app list. *)
Fixpoint steam_catalog_loop (r : stream Z) (appids : gset Z) : M (gset Z) :=
  match r with
  | SEnd => mret appids
  | SFail e => raise (Upstream e)
  | SItem appid rest =>
      appids ← (if decide (appid ∈ appids)
                then print (RemovingSteam appid);; mret (appids ∖ {[ appid ]})
                else mret appids);
      if decide (appids = ∅) then mret appids
      else steam_catalog_loop rest appids
  end.

(** The inner loop over the parse events of one response: whether the
    success event was met, and what is left of the response after it. *)
Fixpoint find_success (key : string) (r : stream parse_event)
    : M (bool * stream parse_event) :=
  match r with
  | SEnd => mret (false, SEnd)
  | SFail e => raise (Upstream e)
  | SItem (prefix, value) rest =>
      if String.eqb prefix key
         && match value with JBool b => b | _ => false end
      then mret (true, rest)
      else find_success key rest
  end.

(** [r.read()]: the rest of the body is read, not parsed. *)
Fixpoint read {A} (r : stream A) : M unit :=
  match r with
  | SEnd => mret tt
  | SItem _ rest => read rest
  | SFail NetworkError => raise (Upstream NetworkError)
  | SFail JSONError => mret tt
  end.

(** The loop over [appids.copy()]. *)
Fixpoint steam_fallback_loop (w : World) (host endpoint : string)
    (todo : list Z) (appids : gset Z) : M (gset Z) :=
  match todo with
  | [] => mret appids
  | appid :: todo =>
      emit (ConnRequest host (endpoint ++ Py.str_int appid));;
      '(found, r) ← find_success (Py.str_int appid ++ ".success")
                                  (steam_appdetails w appid);
      appids ← (if found : bool
                then print (RemovingSteam appid);; mret (appids ∖ {[ appid ]})
                else mret appids);
      if decide (appids = ∅) then mret appids
      else read r;; steam_fallback_loop w host endpoint todo appids
  end.

(** The last loop: the first id met that is not whitelisted is raised. *)
Fixpoint steam_verdict (todo : list Z) : M unit :=
  match todo with
  | [] => mret tt
  | appid :: todo =>
      if decide (appid ∉ whitelist_steam) then raise (InvalidSteamAppId appid)
      else steam_verdict todo
  end.

Definition check_steamfixes (w : World) (url : string) (api : string * string)
    : M unit :=
  let appids := steam_collect (listdir (fs w) "gamefixes-steam") ∅ in
  print (ValidatingSteam url);;
  appids ← with_urlopen url (steam_catalog_loop (steam_applist w) appids);
  appids ← (if decide (appids ≠ ∅) then
              let '(host, endpoint) := api in
              conn_open;;
              print (ValidatingSteam host);;
              appids ← steam_fallback_loop w host endpoint (elements appids) appids;
              conn_close;;
              mret appids
            else mret appids);
  print (RemainingSteam appids);;
  steam_verdict (elements appids).

(** ** [check_gogfixes] *)

(** The loop over the items of a catalog answer. *)
Fixpoint gog_catalog_loop (r : stream jvalue) (appids : gset string)
    : M (gset string) :=
  match r with
  | SEnd => mret appids
  | SFail e => raise (Upstream e)
  | SItem id rest =>
      let appid := py_str id in
      appids ← (if decide (appid ∈ appids)
                then print (RemovingGog appid);; mret (appids ∖ {[ appid ]})
                else mret appids);
      if decide (appids = ∅) then mret appids
      else gog_catalog_loop rest appids
  end.

(** The loop over the batches: [appids] is assigned anew from each batch. *)
Fixpoint gog_batches_loop (w : World) (url : string)
    (batches : list (gset string)) (appids : gset string) : M (gset string) :=
  match batches with
  | [] => mret appids
  | gogids :: batches =>
      let sep := "%2C" in
      let appids := gogids in
      print (ValidatingGog url);;
      appids ← with_urlopen (url ++ String.concat sep (elements appids))
                 (gog_catalog_loop (gog_products w gogids) appids);
      gog_batches_loop w url batches appids
  end.

(** The loop over the files of [gamefixes-steam]. *)
Fixpoint gog_steam_loop (files : list Entry) (appids : gset string)
    : M (gset string) :=
  match files with
  | [] => mret appids
  | f :: rest =>
      let appid := Py.removesuffix ".py" (name f) in
      appids ← (if decide (appid ∈ appids)
                then print (RemovingGog appid);; mret (appids ∖ {[ appid ]})
                else mret appids);
      if decide (appids = ∅) then mret appids
      else gog_steam_loop rest appids
  end.

(** The loop over the items of the umu database. *)
Fixpoint gog_umu_loop (r : stream jvalue) (appids : gset string)
    : M (gset string) :=
  match r with
  | SEnd => mret appids
  | SFail e => raise (Upstream e)
  | SItem umu_id rest =>
      let appid := Py.removeprefix "umu-" (py_str umu_id) in
      appids ← (if decide (appid ∈ appids)
                then print (RemovingGog appid);; mret (appids ∖ {[ appid ]})
                else mret appids);
      if decide (appids = ∅) then mret appids
      else gog_umu_loop rest appids
  end.

Definition check_gogfixes (w : World) (url : string) (api : string * string)
    : M unit :=
  let appids : gset string := ∅ in
  appids ← gog_batches_loop w url
             (_batch_generator (map name (listdir (fs w) "gamefixes-gog")) 50)
             appids;
  appids ← (if decide (appids ≠ ∅) then
              print ValidatingGogSteam;;
              gog_steam_loop (listdir (fs w) "gamefixes-steam") appids
            else mret appids);
  appids ← (if decide (appids ≠ ∅) then
              let '(host, endpoint) := api in
              conn_open;;
              emit (ConnRequest host endpoint);;
              print (ValidatingGog host);;
              appids ← gog_umu_loop (umu_database w) appids;
              conn_close;;
              mret appids
            else mret appids);
  print (RemainingGog appids);;
  if decide (appids ≠ ∅) then raise (InvalidGogAppIds appids)
  else mret tt.

(** ** [main] *)

Definition steamapi : string * string :=
  ("store.steampowered.com", "/api/appdetails?appids=").
Definition umudb_gog : string * string :=
  ("umu.openwinecomponents.org", "/umu_api.php?store=gog").
Definition steampowered : string :=
  "https://api.steampowered.com/ISteamApps/GetAppList/v0002/?format=json".
Definition gogapi : string := "https://api.gog.com/products?ids=".

Definition main (w : World) : M unit :=
  emit (Stdout (project w));;
  check_links (fs w);;
  check_filenames (fs w);;
  check_steamfixes w steampowered steamapi;;
  check_gogfixes w gogapi umudb_gog.

(** ** The script in its process *)

(** The definitions above fix three things that a run finds rather than
    decides: the methods of [str] that consult the Unicode character
    database, which are [Py.isnumeric] and [Py.int] on ASCII strings; the
    order in which a set is iterated, which is that of [elements]; and the
    module global [whitelist_steam], which is as the module sets it.  The
    definitions below take all three from where the script takes them. *)

(** What the interpreter decides.  [str.isnumeric] and [int] are as its
    Unicode character database has them ([rt_int] is [None] where [int]
    raises [ValueError]).  The order in which a set of [int] is iterated is a
    function of the set; that of a set of [str] depends on the hash seed of
    the process, so that it differs from one run to the next. *)
Record Runtime := {
  rt_isnumeric : string -> bool;
  rt_int : string -> option Z;
  rt_iter_int : gset Z -> list Z;
  rt_iter_str : gset string -> list string
}.

(** The interpreter that the definitions above assume. *)
Definition reference : Runtime := {|
  rt_isnumeric := Py.isnumeric;
  rt_int := fun s => Some (Py.int s);
  rt_iter_int := elements;
  rt_iter_str := elements
|}.

(** The same interpreter, started with another hash seed. *)
Definition reseed (rt : Runtime) (order : gset string -> list string)
    : Runtime := {|
  rt_isnumeric := rt_isnumeric rt;
  rt_int := rt_int rt;
  rt_iter_int := rt_iter_int rt;
  rt_iter_str := order
|}.

(** A process that has imported the module: the value of the global that
    the checks consult, and what the calls made so far have left behind.
    (The other global, [headers], is sent with every request: it is part of
    the request that an upstream service answers.) *)
Record Process := { global_whitelist_steam : gset Z; run_state : State }.

(** A process as the import of the module leaves it. *)
Definition imported (s : State) : Process :=
  {| global_whitelist_steam := whitelist_steam; run_state := s |}.

Definition Proc (A : Type) : Type := Process -> result A * Process.

#[export] Instance Proc_ret : MRet Proc := fun A a p => (Ok a, p).
#[export] Instance Proc_bind : MBind Proc := fun A B f m p =>
  match m p with
  | (Ok a, p') => f a p'
  | (Raise e, p') => (Raise e, p')
  end.

(** A statement that touches no global. *)
Definition lift {A} (m : M A) : Proc A := fun p =>
  let '(r, s) := m (run_state p) in
  (r, {| global_whitelist_steam := global_whitelist_steam p; run_state := s |}).

(** The value of the global [whitelist_steam]. *)
Definition load_whitelist_steam : Proc (gset Z) := fun p =>
  (Ok (global_whitelist_steam p), p).

Module Run.

Fixpoint filenames_loop (rt : Runtime) (ms : list Path) : M unit :=
  match ms with
  | [] => mret tt
  | m :: rest =>
      print (Module_ (parent m) (name (file m)));;
      if negb (exists_ (file m)) then raise (MissingFile m)
      else if is_steam m && negb (rt_isnumeric rt (Py.stem (name (file m))))
      then raise (InvalidSteamFilename m)
      else if negb (is_steam m) && negb (Py.startswith "umu-" (name (file m)))
      then raise (MissingUmuPrefix m)
      else filenames_loop rt rest
  end.

Definition check_filenames (rt : Runtime) (fs : list Dir) : M unit :=
  let gamefixes := gamefixes fs in
  print CheckingNames;;
  filenames_loop rt gamefixes.

(** The loop that collects the ids of [gamefixes-steam]; [int] raises where
    the name is numeric and is not a decimal number. *)
Fixpoint steam_collect (rt : Runtime) (files : list Entry) (appids : gset Z)
    : M (gset Z) :=
  match files with
  | [] => mret appids
  | f :: rest =>
      let appid := Py.removesuffix ".py" (name f) in
      if negb (rt_isnumeric rt appid) then steam_collect rt rest appids
      else match rt_int rt appid with
           | Some n => steam_collect rt rest ({[ n ]} ∪ appids)
           | None => raise (InvalidLiteral appid)
           end
  end.

(** The last loop: the global is looked up at every turn. *)
Fixpoint steam_verdict (todo : list Z) : Proc unit :=
  match todo with
  | [] => mret tt
  | appid :: todo =>
      whitelist_steam ← load_whitelist_steam;
      if decide (appid ∉ whitelist_steam)
      then lift (raise (InvalidSteamAppId appid))
      else steam_verdict todo
  end.

Definition check_steamfixes (rt : Runtime) (w : World) (url : string)
    (api : string * string) : Proc unit :=
  appids ← lift (steam_collect rt (listdir (fs w) "gamefixes-steam") ∅);
  lift (print (ValidatingSteam url));;
  appids ← lift (with_urlopen url (steam_catalog_loop (steam_applist w) appids));
  appids ← lift (if decide (appids ≠ ∅) then
                   let '(host, endpoint) := api in
                   conn_open;;
                   print (ValidatingSteam host);;
                   appids ← steam_fallback_loop w host endpoint
                              (rt_iter_int rt appids) appids;
                   conn_close;;
                   mret appids
                 else mret appids);
  lift (print (RemainingSteam appids));;
  steam_verdict (rt_iter_int rt appids).

(** The loop over the batches; the ids of a request are joined in the order
    in which the set is iterated, and the catalog answers for the ids that
    the request names, in whatever order it names them. *)
Fixpoint gog_batches_loop (rt : Runtime) (w : World) (url : string)
    (batches : list (gset string)) (appids : gset string) : M (gset string) :=
  match batches with
  | [] => mret appids
  | gogids :: batches =>
      let sep := "%2C" in
      let appids := gogids in
      print (ValidatingGog url);;
      appids ← with_urlopen (url ++ String.concat sep (rt_iter_str rt appids))
                 (gog_catalog_loop (gog_products w gogids) appids);
      gog_batches_loop rt w url batches appids
  end.

Definition check_gogfixes (rt : Runtime) (w : World) (url : string)
    (api : string * string) : M unit :=
  let appids : gset string := ∅ in
  appids ← gog_batches_loop rt w url
             (_batch_generator (map name (listdir (fs w) "gamefixes-gog")) 50)
             appids;
  appids ← (if decide (appids ≠ ∅) then
              print ValidatingGogSteam;;
              gog_steam_loop (listdir (fs w) "gamefixes-steam") appids
            else mret appids);
  appids ← (if decide (appids ≠ ∅) then
              let '(host, endpoint) := api in
              conn_open;;
              emit (ConnRequest host endpoint);;
              print (ValidatingGog host);;
              appids ← gog_umu_loop (umu_database w) appids;
              conn_close;;
              mret appids
            else mret appids);
  print (RemainingGog appids);;
  if decide (appids ≠ ∅) then raise (InvalidGogAppIds appids)
  else mret tt.

Definition main (rt : Runtime) (w : World) : Proc unit :=
  lift (emit (Stdout (project w)));;
  lift (check_links (fs w));;
  lift (check_filenames rt (fs w));;
  check_steamfixes rt w steampowered steamapi;;
  lift (check_gogfixes rt w gogapi umudb_gog).

End Run.

(** * Vocabulary of the properties *)

(** ** What an action does to the state *)

(** [m] raises nothing but exceptions in [P]. *)
Definition raises {A} (P : exn -> Prop) (m : M A) : Prop :=
  forall s e s', m s = (Raise e, s') -> P e.

(** [e] comes from a request or from a parser. *)
Definition is_upstream (e : exn) : Prop := exists u, e = Upstream u.

(** The run ended with an exception of a request or of a parser. *)
Definition failed_upstream {A} (r : result A) : Prop :=
  exists u, r = Raise (Upstream u).

(** [e] is the error of [check_steamfixes] for an id that is not whitelisted. *)
Definition not_whitelisted (e : exn) : Prop :=
  exists appid, e = InvalidSteamAppId appid /\ (appid ∉ whitelist_steam).

(** [m] leaves the number of open connections as it found it. *)
Definition keeps_connections {A} (m : M A) : Prop :=
  forall s r s', m s = (r, s') -> open_connections s' = open_connections s.

(** [m] closes a connection, unless it fails upstream. *)
Definition closes {A} (m : M A) : Prop :=
  forall s r s', m s = (r, s') -> ~ failed_upstream r ->
    open_connections s' = Nat.pred (open_connections s).

(** [m] holds no more connections after than before, unless it fails
    upstream. *)
Definition scoped {A} (m : M A) : Prop :=
  forall s r s', m s = (r, s') -> ~ failed_upstream r ->
    open_connections s' = open_connections s.

(** [m] returns [a] from every state, holding no more connections than before. *)
Definition returns {A} (m : M A) (a : A) : Prop :=
  forall s, exists s', m s = (Ok a, s') /\ open_connections s' = open_connections s.

(** The events that reach an upstream service. *)
Definition is_network (e : event) : bool :=
  match e with
  | UrlOpen _ | ConnRequest _ _ => true
  | _ => false
  end.

(** [m] makes no request. *)
Definition offline {A} (m : M A) : Prop :=
  forall s r s', m s = (r, s') ->
    List.filter is_network (output s') = List.filter is_network (output s)
    /\ open_connections s' = open_connections s.

(** The result of [m] does not depend on the state it starts from. *)
Definition oblivious {A} (m : M A) : Prop :=
  forall s1 s2, (m s1).1 = (m s2).1.

(** The state after [print(m)]. *)
Definition printed (m : message) (s : State) : State :=
  {| output := Stderr m :: output s; open_connections := open_connections s |}.

(** ** What the upstream services know *)

(** The items of a response, up to its end or to the point where it breaks. *)
Fixpoint items {A} (r : stream A) : list A :=
  match r with
  | SItem a rest => a :: items rest
  | _ => []
  end.

(** A response that is read to its end without an exception. *)
Fixpoint clean {A} (r : stream A) : bool :=
  match r with
  | SEnd => true
  | SItem _ rest => clean rest
  | SFail _ => false
  end.

(** Whether a parse event is [key] with the boolean [true]. *)
Definition is_success (key : string) (ev : parse_event) : bool :=
  String.eqb ev.1 key && match ev.2 with JBool b => b | _ => false end.

(** Whether the per-id query knows [appid]. *)
Definition succeeded (w : World) (appid : Z) : bool :=
  existsb (is_success (Py.str_int appid ++ ".success"))
          (items (steam_appdetails w appid)).

(** The ids of the files of [gamefixes-steam]. *)
Definition steam_candidates (fs : list Dir) : gset Z :=
  steam_collect (listdir fs "gamefixes-steam") ∅.

(** The Steam ids that neither the app list nor the per-id query knows. *)
Definition steam_unresolved (w : World) : gset Z :=
  filter (fun a => (a ∉ items (steam_applist w)) /\ succeeded w a = false)
         (steam_candidates (fs w)).

(** The ids that the message of an error enumerates. *)
Definition steam_ids_named (e : exn) : gset Z :=
  match e with
  | InvalidSteamAppId appid => {[ appid ]}
  | _ => ∅
  end.

(** The names of [gamefixes-gog], as [_batch_generator] receives them. *)
Definition gog_files (fs : list Dir) : list string :=
  map name (listdir fs "gamefixes-gog").

(** What a file of [gamefixes-steam] is compared with. *)
Definition steam_names (fs : list Dir) : list string :=
  (fun f => Py.removesuffix ".py" (name f)) <$> listdir fs "gamefixes-steam".

(** What an entry of the umu database is compared with. *)
Definition umu_ids (w : World) : list string :=
  (fun v => Py.removeprefix "umu-" (py_str v)) <$> items (umu_database w).

(** The ids of a batch that its catalog answer does not list. *)
Definition catalog_rest (w : World) (batch : gset string) : gset string :=
  batch ∖ list_to_set (py_str <$> items (gog_products w batch)).

(** The ids of a batch that none of the three sources knows. *)
Definition gog_unresolved_of (w : World) (batch : gset string) : gset string :=
  filter (fun c => (c ∉ py_str <$> items (gog_products w batch))
                   /\ (c ∉ steam_names (fs w)) /\ (c ∉ umu_ids w))
         batch.

(** The ids of [gamefixes-gog] that none of the three sources knows,
    whichever batch they are in. *)
Definition gog_unresolved (w : World) : gset string :=
  ⋃ (gog_unresolved_of w <$> _batch_generator (gog_files (fs w)) 50).

(** ** Batches *)

(** The contents of the set at the successive yields, by recursion on the
    listing. *)
Fixpoint batch_loop (size : nat) (files : list string)
    (appids : gset string) (count : nat) : list (gset string) :=
  match files with
  | [] => [appids]
  | name :: rest =>
      if negb (Py.startswith "umu-" name) then batch_loop size rest appids count
      else
        let appid := Py.removesuffix ".py" (Py.removeprefix "umu-" name) in
        let appids := {[ appid ]} ∪ appids in
        if (count =? size)%nat
        then appids :: batch_loop size rest ∅ 0%nat
        else batch_loop size rest appids (S count)
  end.

(** The id that a file name stands for. *)
Definition gog_id (n : string) : string :=
  Py.removesuffix ".py" (Py.removeprefix "umu-" n).

(** The ids of the [umu-] files of a listing, in its order. *)
Definition gog_ids (files : list string) : list string :=
  gog_id <$> List.filter (Py.startswith "umu-") files.

(** No two sets of the list share an element. *)
Fixpoint pairwise_disjoint (bs : list (gset string)) : Prop :=
  match bs with
  | [] => True
  | b :: bs => Forall (fun b' => b ## b') bs /\ pairwise_disjoint bs
  end.

(** ** File names *)

(** The naming rule of [check_filenames]: the file exists, and its stem is
    numeric in a Steam directory, its name starts with [umu-] elsewhere. *)
Definition name_ok (m : Path) : bool :=
  exists_ (file m)
  && (if is_steam m then Py.isnumeric (Py.stem (name (file m)))
      else Py.startswith "umu-" (name (file m))).

(** The error that [check_filenames] raises for a file that breaks the rule. *)
Definition name_error (m : Path) : exn :=
  if negb (exists_ (file m)) then MissingFile m
  else if is_steam m then InvalidSteamFilename m
  else MissingUmuPrefix m.

(** The files left out according to the specification: those named
    [__init__.py], [default.py] or [winetricks-gui.py]. *)
Definition spec_excluded (n : string) : bool :=
  String.eqb n "__init__.py" || String.eqb n "default.py"
  || String.eqb n "winetricks-gui.py".

(** The files checked according to the specification. *)
Definition spec_gamefixes (fs : list Dir) : list Path :=
  List.filter (fun m => negb (spec_excluded (name (file m)))) (glob_gamefixes fs).

(** A symbolic link whose target does not exist. *)
Definition broken (m : Path) : bool :=
  is_symlink (file m) && negb (exists_ (file m)).

(** ** Sample projects *)

(** The state in which a run starts. *)
Definition s0 : State := {| output := []; open_connections := 0 |}.

(** A regular file. *)
Definition regular (n : string) : Entry :=
  {| name := n; is_symlink := false; exists_ := true |}.

(** [umu-<n>.py] *)
Definition umu_file (n : nat) : string :=
  "umu-" ++ Py.str_int (Z.of_nat n) ++ ".py".

(** [umu-1.py], ..., [umu-51.py] *)
Definition fifty_one_files : list string := umu_file <$> seq 1 51.

(** A listing of 52 names: [umu-7], then [umu-100.py] to [umu-149.py], then
    [umu-7.py]. *)
Definition colliding_files : list string :=
  "umu-7" :: (umu_file <$> seq 100 50) ++ ["umu-7.py"].

(** A project with 51 GOG fixes, and upstream services that know none of
    them. *)
Definition fifty_one_unknown : World := {|
  project := "/umu-protonfixes";
  fs := [ {| dir_name := "gamefixes-gog";
             entries := regular <$> fifty_one_files |} ];
  steam_applist := SEnd;
  steam_appdetails := fun _ => SEnd;
  gog_products := fun _ => SEnd;
  umu_database := SEnd
|}.

(** A project with 52 GOG fixes, of which the umu database knows the last
    one listed and no source knows the other 51. *)
Definition last_one_known : World := {|
  project := "/umu-protonfixes";
  fs := [ {| dir_name := "gamefixes-gog";
             entries := regular <$> (umu_file <$> seq 1 52) |} ];
  steam_applist := SEnd;
  steam_appdetails := fun _ => SEnd;
  gog_products := fun _ => SEnd;
  umu_database := SItem (JStr "umu-52") SEnd
|}.

(** A project with one GOG fix that the catalog does not know, and an umu
    database that cannot be reached. *)
Definition umu_database_down : World := {|
  project := "/umu-protonfixes";
  fs := [ {| dir_name := "gamefixes-gog"; entries := [regular "umu-1.py"] |} ];
  steam_applist := SEnd;
  steam_appdetails := fun _ => SEnd;
  gog_products := fun _ => SEnd;
  umu_database := SFail NetworkError
|}.

(** A project with one Steam fix and one GOG fix that no source knows. *)
Definition one_unknown_each : World := {|
  project := "/umu-protonfixes";
  fs := [ {| dir_name := "gamefixes-steam"; entries := [regular "99999999.py"] |};
          {| dir_name := "gamefixes-gog"; entries := [regular "umu-1.py"] |} ];
  steam_applist := SItem 10 SEnd;
  steam_appdetails := fun _ => SItem ("99999999.success", JBool false) SEnd;
  gog_products := fun _ => SEnd;
  umu_database := SItem (JStr "umu-2") SEnd
|}.

(** A project with two Steam fixes that neither source knows. *)
Definition two_unknown_steam : World := {|
  project := "/umu-protonfixes";
  fs := [ {| dir_name := "gamefixes-steam";
             entries := [regular "99999998.py"; regular "99999999.py"] |} ];
  steam_applist := SEnd;
  steam_appdetails := fun _ => SEnd;
  gog_products := fun _ => SEnd;
  umu_database := SEnd
|}.

(** A project whose only fix is a delisted Steam game that neither the app
    list nor the per-id query knows. *)
Definition delisted_only : World := {|
  project := "/umu-protonfixes";
  fs := [ {| dir_name := "gamefixes-steam"; entries := [regular "231990.py"] |} ];
  steam_applist := SItem 10 SEnd;
  steam_appdetails := fun _ => SItem ("231990.success", JBool false) SEnd;
  gog_products := fun _ => SEnd;
  umu_database := SEnd
|}.

(** A project with a stray file next to [default.py]. *)
Definition stray_default : list Dir :=
  [ {| dir_name := "gamefixes-steam";
       entries := [regular "default.py"; regular "default.py.orig.py"] |} ].

(** A project whose GOG fix is a symbolic link to a file that is gone. *)
Definition dangling_link : World := {|
  project := "/umu-protonfixes";
  fs := [ {| dir_name := "gamefixes-gog";
             entries := [ {| name := "umu-0001.py"; is_symlink := true;
                             exists_ := false |} ] |} ];
  steam_applist := SFail NetworkError;
  steam_appdetails := fun _ => SFail NetworkError;
  gog_products := fun _ => SFail NetworkError;
  umu_database := SFail NetworkError
|}.

(** A project with one GOG fix that the catalog knows. *)
Definition known_to_catalog : World := {|
  project := "/umu-protonfixes";
  fs := [ {| dir_name := "gamefixes-gog"; entries := [regular "umu-1234.py"] |} ];
  steam_applist := SEnd;
  steam_appdetails := fun _ => SEnd;
  gog_products := fun _ => SItem (JInt 1234) SEnd;
  umu_database := SEnd
|}.

(** A project with a GOG fix that the catalog does not know and that bears
    the id of a Steam fix. *)
Definition alias_of_steam_fix : World := {|
  project := "/umu-protonfixes";
  fs := [ {| dir_name := "gamefixes-steam"; entries := [regular "5678.py"] |};
          {| dir_name := "gamefixes-gog"; entries := [regular "umu-5678.py"] |} ];
  steam_applist := SItem 5678 SEnd;
  steam_appdetails := fun _ => SEnd;
  gog_products := fun _ => SEnd;
  umu_database := SEnd
|}.

(** A project with a Steam fix that the app list does not have and that the
    per-id query knows. *)
Definition known_to_fallback : World := {|
  project := "/umu-protonfixes";
  fs := [ {| dir_name := "gamefixes-steam";
             entries := [regular "__init__.py"; regular "0620.py"] |} ];
  steam_applist := SItem 10 (SItem 20 SEnd);
  steam_appdetails := fun _ =>
    SItem ("620", JNull)
      (SItem ("620.success", JBool true) (SFail NetworkError));
  gog_products := fun _ => SEnd;
  umu_database := SEnd
|}.

(** A project with a Steam fix whose name is not a number. *)
Definition not_a_number : list Dir :=
  [ {| dir_name := "gamefixes-steam";
       entries := [regular "__init__.py"; regular "notanumber.py"] |} ].

(** Whether an event is a request on the HTTPS connection. *)
Definition is_conn_request (e : event) : bool :=
  match e with
  | ConnRequest _ _ => true
  | _ => false
  end.

(** ** Further vocabulary *)

(** [m], when it returns, returns a value in [Q]. *)
Definition ensures {A} (Q : A -> Prop) (m : M A) : Prop :=
  forall s a s', m s = (Ok a, s') -> Q a.

(** [m] adds no event of the kind [P] to the output. *)
Definition silent {A} (P : event -> bool) (m : M A) : Prop :=
  forall s r s', m s = (r, s') ->
    List.filter P (output s') = List.filter P (output s).

(** What is printed to the standard output. *)
Definition is_stdout (e : event) : bool :=
  match e with
  | Stdout _ => true
  | _ => false
  end.

(** The errors of [check_links] and [check_filenames]. *)
Definition is_file_error (e : exn) : Prop :=
  match e with
  | BrokenLink _ | MissingFile _ | InvalidSteamFilename _ | MissingUmuPrefix _ => True
  | _ => False
  end.

(** The error of [check_gogfixes] for ids that remain. *)
Definition is_gog_error (e : exn) : Prop := exists X, e = InvalidGogAppIds X.

(** A response whose first item, or whose end, is read without an
    exception. *)
Definition starts {A} (r : stream A) : bool :=
  match r with
  | SFail _ => false
  | _ => true
  end.

(** A project with a Steam fix whose name is not a number, and upstream
    services that cannot be reached. *)
Definition misnamed_offline : World := {|
  project := "/umu-protonfixes";
  fs := [ {| dir_name := "gamefixes-steam";
             entries := [regular "__init__.py"; regular "notanumber.py"] |} ];
  steam_applist := SFail NetworkError;
  steam_appdetails := fun _ => SFail NetworkError;
  gog_products := fun _ => SFail NetworkError;
  umu_database := SFail NetworkError
|}.

(** The number of requests made on the HTTPS connection so far. *)
Definition asked (s : State) : nat :=
  length (List.filter is_conn_request (output s)).

(** The opening of a response with [urlopen]. *)
Definition is_urlopen (e : event) : bool :=
  match e with
  | UrlOpen _ => true
  | _ => false
  end.

(** The number of responses opened with [urlopen] so far. *)
Definition opened (s : State) : nat :=
  length (List.filter is_urlopen (output s)).

(** The opening and the closing of a response. *)
Definition is_url (e : event) : bool :=
  match e with
  | UrlOpen _ | UrlClose => true
  | _ => false
  end.

(** A record, latest event first, in which every response that was opened
    is closed before the next one is opened. *)
Fixpoint closed_in_turn (l : list event) : bool :=
  match l with
  | [] => true
  | UrlClose :: UrlOpen _ :: l => closed_in_turn l
  | _ => false
  end.

(** [m] closes every response it opens, before it opens the next one and
    before it ends. *)
Definition closes_responses {A} (m : M A) : Prop :=
  forall s r s', m s = (r, s') ->
    exists l, closed_in_turn l = true
      /\ List.filter is_url (output s') = (l ++ List.filter is_url (output s))%list.

(** [m] makes at most [n] requests on the HTTPS connection. *)
Definition asks_at_most {A} (n : nat) (m : M A) : Prop :=
  forall s r s', m s = (r, s') -> (asked s' <= asked s + n)%nat.

(** A project with two Steam fixes and an app list that breaks off after it
    has named both. *)
Definition app_list_cut_short : World := {|
  project := "/umu-protonfixes";
  fs := [ {| dir_name := "gamefixes-steam";
             entries := [regular "220.py"; regular "620.py"] |} ];
  steam_applist := SItem 10 (SItem 620 (SItem 220 (SFail NetworkError)));
  steam_appdetails := fun _ => SFail NetworkError;
  gog_products := fun _ => SEnd;
  umu_database := SEnd
|}.

(** [m] only adds to the output: what was there before stays, below what [m]
    adds. *)
Definition appends {A} (m : M A) : Prop :=
  forall s r s', m s = (r, s') -> exists l, output s' = (l ++ output s)%list.

(** The request for one id on the HTTPS connection. *)
Definition per_id_request (host endpoint : string) (appid : Z) : event :=
  ConnRequest host (endpoint ++ Py.str_int appid).

(** ** The process *)

(** The naming rule of [check_filenames], with [str.isnumeric] as the
    interpreter has it. *)
Definition name_ok_for (rt : Runtime) (m : Path) : bool :=
  exists_ (file m)
  && (if is_steam m then rt_isnumeric rt (Py.stem (name (file m)))
      else Py.startswith "umu-" (name (file m))).

(** Two actions end alike, whatever the states they start from. *)
Definition same_outcome {A} (m1 m2 : M A) : Prop :=
  forall s1 s2, (m1 s1).1 = (m2 s2).1.

(** Two calls end alike and leave the same globals, when they find the same
    globals. *)
Definition same_verdict {A} (m1 m2 : Proc A) : Prop :=
  forall p1 p2, global_whitelist_steam p1 = global_whitelist_steam p2 ->
    (m1 p1).1 = (m2 p2).1
    /\ global_whitelist_steam (m1 p1).2 = global_whitelist_steam (m2 p2).2.

(** A call leaves the globals as it found them. *)
Definition keeps_globals {A} (m : Proc A) : Prop :=
  forall p, global_whitelist_steam (m p).2 = global_whitelist_steam p.

(** Whether the run passed. *)
Definition passed {A} (r : result A) : bool :=
  match r with
  | Ok _ => true
  | Raise _ => false
  end.

(** Two calls both pass or both fail, and leave the same globals, when they
    find the same globals. *)
Definition same_passing (m1 m2 : Proc unit) : Prop :=
  forall p1 p2, global_whitelist_steam p1 = global_whitelist_steam p2 ->
    passed (m1 p1).1 = passed (m2 p2).1
    /\ global_whitelist_steam (m1 p1).2 = global_whitelist_steam (m2 p2).2.

(** The same interpreter, with sets iterated in other orders. *)
Definition reorder (rt : Runtime) (order_int : gset Z -> list Z)
    (order_str : gset string -> list string) : Runtime := {|
  rt_isnumeric := rt_isnumeric rt;
  rt_int := rt_int rt;
  rt_iter_int := order_int;
  rt_iter_str := order_str
|}.

(** A string of ASCII characters. *)
Fixpoint is_ascii (s : string) : bool :=
  match s with
  | EmptyString => true
  | String c r => (nat_of_ascii c <? 128)%nat && is_ascii r
  end.

(** An ASCII string that is no longer than a file name may be. *)
Definition plain_name (s : string) : bool :=
  is_ascii s && (String.length s <=? 255)%nat.

(** A listing whose names are ASCII. *)
Definition ascii_names (files : list Entry) : bool :=
  forallb (fun f => plain_name (name f)) files.

(** A project whose names are ASCII. *)
Definition ascii_tree (fs : list Dir) : bool :=
  forallb (fun d => ascii_names (entries d)) fs.

(** A call in a process as the import leaves it does what the action [m]
    does, and leaves the global as the import set it. *)
Definition agrees {A} (call : Proc A) (m : M A) : Prop :=
  forall s, call (imported s) = ((m s).1, imported (m s).2).

(** An interpreter whose [str.isnumeric] and [int] are those of Python on
    the ASCII strings that are no longer than a file name may be: numeric
    means non-empty and made of the digits 0-9, and [int] of such a string
    is its decimal value. *)
Definition python_on_ascii (rt : Runtime) : Prop :=
  forall s, plain_name s = true ->
    rt_isnumeric rt s = Py.isnumeric s
    /\ (Py.isnumeric s = true -> rt_int rt s = Some (Py.int s)).

(** An interpreter that iterates a set in some order, each element once. *)
Definition iterates_sets (rt : Runtime) : Prop :=
  forall X, rt_iter_int rt X ≡ₚ elements X.

(** An interpreter that knows, beside the ASCII digits, the superscript two
    (numeric, no decimal digit) and the Arabic-Indic digit three (a decimal
    digit), and that iterates a set from its last element to its first. *)
Definition two_more_numerals : Runtime := {|
  rt_isnumeric := fun s =>
    Py.isnumeric s || String.eqb s "²" || String.eqb s "٣";
  rt_int := fun s =>
    if Py.isnumeric s then Some (Py.int s)
    else if String.eqb s "٣" then Some 3
    else None;
  rt_iter_int := fun X => rev (elements X);
  rt_iter_str := fun X => rev (elements X)
|}.

(** A Steam directory with a fix named by the superscript two. *)
Definition superscript_fix : list Dir :=
  [ {| dir_name := "gamefixes-steam";
       entries := [regular "620.py"; regular "².py"; regular "730.py"] |} ].

(** A Steam directory with a fix named by the Arabic-Indic digit three. *)
Definition arabic_indic_fix : list Dir :=
  [ {| dir_name := "gamefixes-steam";
       entries := [regular "٣.py"; regular "readme.txt"; regular "620.py"] |} ].

(** A project with two Steam fixes that the per-id query knows; the answer
    for the second one breaks off after it has said so. *)
Definition answer_cut_short : World := {|
  project := "/umu-protonfixes";
  fs := [ {| dir_name := "gamefixes-steam";
             entries := [regular "220.py"; regular "620.py"] |} ];
  steam_applist := SEnd;
  steam_appdetails := fun a =>
    if (a =? 620)%Z
    then SItem ("620.success", JBool true) (SFail NetworkError)
    else SItem ("220.success", JBool true) SEnd;
  gog_products := fun _ => SEnd;
  umu_database := SEnd
|}.

(** A project with two GOG fixes that the catalog knows. *)
Definition two_gog_fixes : World := {|
  project := "/umu-protonfixes";
  fs := [ {| dir_name := "gamefixes-gog";
             entries := [regular "umu-1.py"; regular "umu-2.py"] |} ];
  steam_applist := SEnd;
  steam_appdetails := fun _ => SEnd;
  gog_products := fun _ => SItem (JInt 1) (SItem (JInt 2) SEnd);
  umu_database := SEnd
|}.

(** [umu-1.py], ..., [umu-60.py] *)
Definition sixty_files : list string := umu_file <$> seq 1 60.

(** A project whose only file is a backup of [default.py] that is a symbolic
    link to a file that is gone. *)
Definition dangling_default : World := {|
  project := "/umu-protonfixes";
  fs := [ {| dir_name := "gamefixes-steam";
             entries := [ {| name := "default.py.orig.py"; is_symlink := true;
                             exists_ := false |} ] |} ];
  steam_applist := SEnd;
  steam_appdetails := fun _ => SEnd;
  gog_products := fun _ => SEnd;
  umu_database := SEnd
|}.

(** * Properties *)

(** ** Reasoning about the monad *)

Lemma bind_unfold {A B} (m : M A) (f : A -> M B) (s : State) :
  (m ≫= f) s =
  match m s with
  | (Ok a, s') => f a s'
  | (Raise e, s') => (Raise e, s')
  end.
Proof. reflexivity. Qed.

Section Combinators.
Context {A B : Type}.
Implicit Types (m : M A) (f : A -> M B) (P : exn -> Prop).

Lemma raises_ret P (a : A) : raises P (mret a).
Proof. intros s e s' H. discriminate H. Qed.

Lemma raises_raise P (e : exn) : P e -> raises P (@raise A e).
Proof. intros He s e' s' H. injection H as <- _. exact He. Qed.

Lemma raises_bind P m f :
  raises P m -> (forall a, raises P (f a)) -> raises P (m ≫= f).
Proof.
  intros Hm Hf s e s' H. rewrite bind_unfold in H.
  destruct (m s) as [[a|e0] s1] eqn:E.
  - exact (Hf a _ _ _ H).
  - injection H as <- <-. exact (Hm _ _ _ E).
Qed.

Lemma raises_weaken P (Q : exn -> Prop) m :
  (forall e, P e -> Q e) -> raises P m -> raises Q m.
Proof. intros HPQ Hm s e s' H. apply HPQ. exact (Hm _ _ _ H). Qed.

Lemma raises_with_urlopen P url m : raises P m -> raises P (with_urlopen url m).
Proof.
  intros Hm s e s' H. unfold with_urlopen in H.
  rewrite bind_unfold in H. simpl in H.
  match type of H with context [ m ?s1 ] => destruct (m s1) as [[a|e0] s2] eqn:E end;
    simpl in H; [discriminate H|].
  injection H as <- _. exact (Hm _ _ _ E).
Qed.

Lemma keeps_ret (a : A) : keeps_connections (mret a).
Proof. intros s r s' H. injection H as _ <-. reflexivity. Qed.

Lemma keeps_raise (e : exn) : keeps_connections (@raise A e).
Proof. intros s r s' H. injection H as _ <-. reflexivity. Qed.

Lemma keeps_bind m f :
  keeps_connections m -> (forall a, keeps_connections (f a)) ->
  keeps_connections (m ≫= f).
Proof.
  intros Hm Hf s r s' H. rewrite bind_unfold in H.
  destruct (m s) as [[a|e0] s1] eqn:E.
  - rewrite (Hf a _ _ _ H). exact (Hm _ _ _ E).
  - injection H as _ <-. exact (Hm _ _ _ E).
Qed.

Lemma keeps_with_urlopen url m :
  keeps_connections m -> keeps_connections (with_urlopen url m).
Proof.
  intros Hm s r s' H. unfold with_urlopen in H.
  rewrite bind_unfold in H. simpl in H.
  match type of H with context [ m ?s1 ] => destruct (m s1) as [r1 s2] eqn:E end.
  apply Hm in E. simpl in E.
  destruct r1; injection H as _ <-; simpl; exact E.
Qed.

Lemma offline_ret (a : A) : offline (mret a).
Proof. intros s r s' H. injection H as _ <-. split; reflexivity. Qed.

Lemma offline_raise (e : exn) : offline (@raise A e).
Proof. intros s r s' H. injection H as _ <-. split; reflexivity. Qed.

Lemma offline_bind m f :
  offline m -> (forall a, offline (f a)) -> offline (m ≫= f).
Proof.
  intros Hm Hf s r s' H. rewrite bind_unfold in H.
  destruct (m s) as [[a|e0] s1] eqn:E.
  - destruct (Hf a _ _ _ H) as [-> ->]. exact (Hm _ _ _ E).
  - injection H as _ <-. exact (Hm _ _ _ E).
Qed.

Lemma oblivious_ret (a : A) : oblivious (mret a).
Proof. intros s1 s2. reflexivity. Qed.

Lemma oblivious_raise (e : exn) : oblivious (@raise A e).
Proof. intros s1 s2. reflexivity. Qed.

Lemma oblivious_bind m f :
  oblivious m -> (forall a, oblivious (f a)) -> oblivious (m ≫= f).
Proof.
  intros Hm Hf s1 s2. rewrite !bind_unfold.
  specialize (Hm s1 s2).
  destruct (m s1) as [r1 t1], (m s2) as [r2 t2]. simpl in Hm. subst r2.
  destruct r1 as [a|e]; [apply Hf | reflexivity].
Qed.

Lemma oblivious_with_urlopen url m : oblivious m -> oblivious (with_urlopen url m).
Proof.
  intros Hm s1 s2. unfold with_urlopen. rewrite !bind_unfold. simpl.
  match goal with
  | |- context [ m ?a ] =>
      match goal with
      | |- context [ m ?b ] => tryif constr_eq a b then fail else specialize (Hm a b)
      end
  end.
  repeat match goal with
  | |- context [ m ?a ] => destruct (m a) as [[?|?] ?]
  end; simpl in *; congruence.
Qed.

End Combinators.

Lemma raises_emit P e : raises P (emit e).
Proof. intros s e' s' H. discriminate H. Qed.
Lemma raises_print P m : raises P (print m).
Proof. apply raises_emit. Qed.
Lemma raises_conn_open P : raises P conn_open.
Proof. intros s e' s' H. discriminate H. Qed.
Lemma raises_conn_close P : raises P conn_close.
Proof. intros s e' s' H. discriminate H. Qed.

Lemma keeps_emit e : keeps_connections (emit e).
Proof. intros s r s' H. injection H as _ <-. reflexivity. Qed.
Lemma keeps_print m : keeps_connections (print m).
Proof. apply keeps_emit. Qed.

Lemma offline_print m : offline (print m).
Proof. intros s r s' H. injection H as _ <-. split; reflexivity. Qed.

Lemma oblivious_emit e : oblivious (emit e).
Proof. intros s1 s2. reflexivity. Qed.
Lemma oblivious_print m : oblivious (print m).
Proof. apply oblivious_emit. Qed.
Lemma oblivious_conn_open : oblivious conn_open.
Proof. intros s1 s2. reflexivity. Qed.
Lemma oblivious_conn_close : oblivious conn_close.
Proof. intros s1 s2. reflexivity. Qed.

Create HintDb effects.
#[local] Hint Resolve raises_ret raises_raise raises_bind raises_with_urlopen
  raises_emit raises_print raises_conn_open raises_conn_close
  keeps_ret keeps_raise keeps_bind keeps_with_urlopen keeps_emit keeps_print
  offline_ret offline_raise offline_bind offline_print
  oblivious_ret oblivious_raise oblivious_bind oblivious_with_urlopen
  oblivious_emit oblivious_print oblivious_conn_open oblivious_conn_close
  : effects.

Lemma is_upstream_Upstream u : is_upstream (Upstream u).
Proof. exists u. reflexivity. Qed.
#[local] Hint Resolve is_upstream_Upstream : effects.

(** Solves a goal about a loop body by walking down its binds and tests. *)
Ltac walk :=
  repeat first
    [ progress (intros)
    | solve [auto with effects]
    | match goal with
      | |- _ (if decide ?P then _ else _) => destruct (decide P)
      | |- _ (if ?b then _ else _) => destruct b eqn:?
      | |- _ (match ?p with SFail _ => _ | _ => _ end) => destruct p
      | |- _ (match ?p with NetworkError => _ | _ => _ end) => destruct p
      | |- _ (let '(_, _) := ?p in _) => destruct p
      end
    | apply raises_bind | apply keeps_bind | apply offline_bind
    | apply oblivious_bind
    | apply raises_with_urlopen | apply keeps_with_urlopen
    | apply oblivious_with_urlopen ].

(** ** What each loop can raise, and what it leaves untouched *)

Section Loops.
Variable w : World.

Lemma links_loop_oblivious ms : oblivious (links_loop ms).
Proof. induction ms; cbn [links_loop]; walk. Qed.

Lemma links_loop_offline ms : offline (links_loop ms).
Proof. induction ms; cbn [links_loop]; walk. Qed.

Lemma filenames_loop_oblivious ms : oblivious (filenames_loop ms).
Proof. induction ms; cbn [filenames_loop]; walk. Qed.

Lemma filenames_loop_offline ms : offline (filenames_loop ms).
Proof. induction ms; cbn [filenames_loop]; walk. Qed.

Lemma steam_catalog_loop_raises r X : raises is_upstream (steam_catalog_loop r X).
Proof. revert X; induction r; cbn [steam_catalog_loop]; walk. Qed.

Lemma steam_catalog_loop_keeps r X : keeps_connections (steam_catalog_loop r X).
Proof. revert X; induction r; cbn [steam_catalog_loop]; walk. Qed.

Lemma steam_catalog_loop_oblivious r X : oblivious (steam_catalog_loop r X).
Proof. revert X; induction r; cbn [steam_catalog_loop]; walk. Qed.

Lemma find_success_raises key r : raises is_upstream (find_success key r).
Proof. induction r; cbn [find_success]; walk. Qed.

Lemma find_success_keeps key r : keeps_connections (find_success key r).
Proof. induction r; cbn [find_success]; walk. Qed.

Lemma find_success_oblivious key r : oblivious (find_success key r).
Proof. induction r; cbn [find_success]; walk. Qed.

Lemma read_raises {A} (r : stream A) : raises is_upstream (read r).
Proof. induction r; cbn [read]; walk. Qed.

Lemma read_keeps {A} (r : stream A) : keeps_connections (read r).
Proof. induction r; cbn [read]; walk. Qed.

Lemma read_oblivious {A} (r : stream A) : oblivious (read r).
Proof. induction r; cbn [read]; walk. Qed.

#[local] Hint Resolve find_success_raises find_success_keeps
  find_success_oblivious read_raises read_keeps read_oblivious : effects.

Lemma steam_fallback_loop_raises host endpoint todo X :
  raises is_upstream (steam_fallback_loop w host endpoint todo X).
Proof. revert X; induction todo; cbn [steam_fallback_loop]; walk. Qed.

Lemma steam_fallback_loop_keeps host endpoint todo X :
  keeps_connections (steam_fallback_loop w host endpoint todo X).
Proof. revert X; induction todo; cbn [steam_fallback_loop]; walk. Qed.

Lemma steam_fallback_loop_oblivious host endpoint todo X :
  oblivious (steam_fallback_loop w host endpoint todo X).
Proof. revert X; induction todo; cbn [steam_fallback_loop]; walk. Qed.

Lemma steam_verdict_raises todo : raises not_whitelisted (steam_verdict todo).
Proof.
  induction todo as [|a todo IH]; cbn [steam_verdict]; walk.
  apply raises_raise. exists a. split; [reflexivity | assumption].
Qed.

Lemma steam_verdict_keeps todo : keeps_connections (steam_verdict todo).
Proof. induction todo; cbn [steam_verdict]; walk. Qed.

Lemma steam_verdict_oblivious todo : oblivious (steam_verdict todo).
Proof. induction todo; cbn [steam_verdict]; walk. Qed.

Lemma gog_catalog_loop_raises r X : raises is_upstream (gog_catalog_loop r X).
Proof. revert X; induction r; cbn [gog_catalog_loop]; walk. Qed.

Lemma gog_catalog_loop_keeps r X : keeps_connections (gog_catalog_loop r X).
Proof. revert X; induction r; cbn [gog_catalog_loop]; walk. Qed.

Lemma gog_catalog_loop_oblivious r X : oblivious (gog_catalog_loop r X).
Proof. revert X; induction r; cbn [gog_catalog_loop]; walk. Qed.

#[local] Hint Resolve gog_catalog_loop_raises gog_catalog_loop_keeps
  gog_catalog_loop_oblivious : effects.

Lemma gog_batches_loop_raises url bs X :
  raises is_upstream (gog_batches_loop w url bs X).
Proof. revert X; induction bs; cbn [gog_batches_loop]; walk. Qed.

Lemma gog_batches_loop_keeps url bs X :
  keeps_connections (gog_batches_loop w url bs X).
Proof. revert X; induction bs; cbn [gog_batches_loop]; walk. Qed.

Lemma gog_batches_loop_oblivious url bs X :
  oblivious (gog_batches_loop w url bs X).
Proof. revert X; induction bs; cbn [gog_batches_loop]; walk. Qed.

Lemma gog_steam_loop_raises files X : raises is_upstream (gog_steam_loop files X).
Proof. revert X; induction files; cbn [gog_steam_loop]; walk. Qed.

Lemma gog_steam_loop_keeps files X : keeps_connections (gog_steam_loop files X).
Proof. revert X; induction files; cbn [gog_steam_loop]; walk. Qed.

Lemma gog_steam_loop_oblivious files X : oblivious (gog_steam_loop files X).
Proof. revert X; induction files; cbn [gog_steam_loop]; walk. Qed.

Lemma gog_umu_loop_raises r X : raises is_upstream (gog_umu_loop r X).
Proof. revert X; induction r; cbn [gog_umu_loop]; walk. Qed.

Lemma gog_umu_loop_keeps r X : keeps_connections (gog_umu_loop r X).
Proof. revert X; induction r; cbn [gog_umu_loop]; walk. Qed.

Lemma gog_umu_loop_oblivious r X : oblivious (gog_umu_loop r X).
Proof. revert X; induction r; cbn [gog_umu_loop]; walk. Qed.

End Loops.

(** ** What the reconciliation loops compute *)

Lemma returns_ret {A} (a : A) : returns (mret a) a.
Proof. intros s. exists s. split; reflexivity. Qed.

Lemma returns_bind {A B} (m : M A) (f : A -> M B) a b :
  returns m a -> returns (f a) b -> returns (m ≫= f) b.
Proof.
  intros Hm Hf s. destruct (Hm s) as (s1 & E1 & C1).
  destruct (Hf s1) as (s2 & E2 & C2).
  exists s2. rewrite bind_unfold, E1, E2. split; [reflexivity | congruence].
Qed.

Lemma returns_emit e : returns (emit e) tt.
Proof. intros s. eexists. split; reflexivity. Qed.

Lemma returns_print m : returns (print m) tt.
Proof. apply returns_emit. Qed.

Lemma returns_with_urlopen {A} url (m : M A) a :
  returns m a -> returns (with_urlopen url m) a.
Proof.
  intros Hm s. unfold with_urlopen. rewrite bind_unfold. simpl.
  match goal with |- context [ m ?s1 ] => destruct (Hm s1) as (s2 & E & C) end.
  rewrite E. eexists. split; [reflexivity | exact C].
Qed.

#[local] Hint Resolve returns_ret returns_emit returns_print : effects.

(** One pass of a removal loop: the test, the message and the removal. *)
Ltac close_ret :=
  match goal with
  | |- returns (mret ?X) ?Y => replace Y with X by set_solver; apply returns_ret
  end.

Ltac close_IH IH :=
  match goal with
  | |- returns _ ?Y =>
      eassert (Y = _) as ->; [| apply IH; assumption ]; set_solver
  end.

Ltac removal_step IH :=
  match goal with
  | |- returns ((if decide ?P then _ else _) ≫= _) _ => destruct (decide P)
  end;
  (eapply returns_bind;
   [ first [ apply returns_ret
           | eapply returns_bind; [apply returns_print | apply returns_ret] ]
   | ]);
  match goal with
  | |- returns (if decide ?Q then _ else _) _ =>
      destruct (decide Q); [ close_ret | close_IH IH ]
  end.

Lemma steam_catalog_loop_returns r X :
  clean r = true ->
  returns (steam_catalog_loop r X) (X ∖ list_to_set (items r)).
Proof.
  revert X. induction r as [|a r IH|]; intros X Hc; simpl in Hc; [| |discriminate].
  - cbn. replace (X ∖ ∅) with X by set_solver. apply returns_ret.
  - cbn [steam_catalog_loop items list_to_set]. removal_step IH.
Qed.

Lemma gog_catalog_loop_returns r X :
  clean r = true ->
  returns (gog_catalog_loop r X) (X ∖ list_to_set (py_str <$> items r)).
Proof.
  revert X. induction r as [|a r IH|]; intros X Hc; simpl in Hc; [| |discriminate].
  - cbn. replace (X ∖ ∅) with X by set_solver. apply returns_ret.
  - cbn [gog_catalog_loop items list_to_set fmap list_fmap]. removal_step IH.
Qed.

Lemma gog_steam_loop_returns files X :
  returns (gog_steam_loop files X)
    (X ∖ list_to_set ((fun f => Py.removesuffix ".py" (name f)) <$> files)).
Proof.
  revert X. induction files as [|f files IH]; intros X.
  - cbn. replace (X ∖ ∅) with X by set_solver. apply returns_ret.
  - pose proof (fun X (_ : True) => IH X) as IH'. pose proof I.
    cbn [gog_steam_loop list_to_set fmap list_fmap]. removal_step IH'.
Qed.

Lemma gog_umu_loop_returns r X :
  clean r = true ->
  returns (gog_umu_loop r X)
    (X ∖ list_to_set ((fun v => Py.removeprefix "umu-" (py_str v)) <$> items r)).
Proof.
  revert X. induction r as [|a r IH|]; intros X Hc; simpl in Hc; [| |discriminate].
  - cbn. replace (X ∖ ∅) with X by set_solver. apply returns_ret.
  - cbn [gog_umu_loop items list_to_set fmap list_fmap]. removal_step IH.
Qed.

Lemma find_success_returns key r :
  clean r = true ->
  exists rest, clean rest = true /\
    returns (find_success key r) (existsb (is_success key) (items r), rest).
Proof.
  induction r as [|[prefix value] r IH|]; intros Hc; simpl in Hc; [| |discriminate].
  - exists SEnd. split; [reflexivity | apply returns_ret].
  - cbn [find_success items existsb]. unfold is_success at 1. cbn [fst snd].
    destruct (String.eqb prefix key && _) eqn:E.
    + exists r. split; [exact Hc | apply returns_ret].
    + exact (IH Hc).
Qed.

Lemma read_returns {A} (r : stream A) : clean r = true -> returns (read r) tt.
Proof.
  induction r as [|a r IH|]; intros Hc; simpl in Hc; [| |discriminate].
  - apply returns_ret.
  - exact (IH Hc).
Qed.

Lemma steam_fallback_loop_returns w host endpoint todo X :
  (forall a, clean (steam_appdetails w a) = true) ->
  returns (steam_fallback_loop w host endpoint todo X)
          (X ∖ list_to_set (List.filter (succeeded w) todo)).
Proof.
  intros Hw. revert X. induction todo as [|a todo IH]; intros X.
  - cbn. replace (X ∖ ∅) with X by set_solver. apply returns_ret.
  - cbn [steam_fallback_loop List.filter].
    destruct (find_success_returns (Py.str_int a ++ ".success") _ (Hw a))
      as (rest & Hrest & Hfind).
    fold (succeeded w a) in Hfind.
    eapply returns_bind; [apply returns_emit|].
    eapply returns_bind; [exact Hfind|]. cbn beta iota.
    destruct (succeeded w a); cbn [list_to_set].
    + eapply returns_bind;
        [eapply returns_bind; [apply returns_print | apply returns_ret]|].
      destruct (decide (X ∖ {[a]} = ∅)); [close_ret|].
      eapply returns_bind; [apply read_returns; exact Hrest|].
      replace (X ∖ ({[a]} ∪ list_to_set (List.filter (succeeded w) todo)))
        with (X ∖ {[a]} ∖ list_to_set (List.filter (succeeded w) todo))
        by set_solver.
      apply IH.
    + eapply returns_bind; [apply returns_ret|].
      destruct (decide (X = ∅)); [close_ret|].
      eapply returns_bind; [apply read_returns; exact Hrest|].
      apply IH.
Qed.

Lemma steam_verdict_spec todo s :
  (Forall (fun a => a ∈ whitelist_steam) todo /\ steam_verdict todo s = (Ok tt, s))
  \/ (exists a, a ∈ todo /\ (a ∉ whitelist_steam)
                /\ steam_verdict todo s = (Raise (InvalidSteamAppId a), s)).
Proof.
  induction todo as [|a todo IH]; cbn [steam_verdict].
  - left. split; [constructor | reflexivity].
  - destruct (decide (a ∉ whitelist_steam)) as [Hn|Hy].
    + right. exists a. split; [left | split; [exact Hn | reflexivity]].
    + apply dec_stable in Hy.
      destruct IH as [[Hall E]|(b & Hb & Hnb & E)].
      * left. split; [constructor; assumption | exact E].
      * right. exists b. split; [right; exact Hb | split; assumption].
Qed.

(** ** What the two validators decide *)

Lemma returns_run {A B} (m : M A) (f : A -> M B) a s :
  returns m a ->
  exists s1, open_connections s1 = open_connections s /\ (m ≫= f) s = f a s1.
Proof.
  intros Hm. destruct (Hm s) as (s1 & E & C). exists s1.
  split; [exact C|]. rewrite bind_unfold, E. reflexivity.
Qed.

(** Runs a bind whose first action is known to return. *)
Ltac run_returns H :=
  match type of H with
  | returns ?m ?a =>
      match goal with
      | |- context [ (m ≫= ?f) ?s ] =>
          let s1 := fresh "s" in
          let C := fresh "C" in
          let E := fresh "E" in
          destruct (returns_run m f a s H) as (s1 & C & E); rewrite E; clear E
      end
  end.

Lemma steam_scope_returns w host endpoint X :
  (forall a, clean (steam_appdetails w a) = true) ->
  returns (conn_open;;
           print (ValidatingSteam host);;
           appids ← steam_fallback_loop w host endpoint (elements X) X;
           conn_close;;
           mret appids)
          (filter (fun a => succeeded w a = false) X).
Proof.
  intros Hw s. rewrite bind_unfold. cbn [conn_open].
  rewrite bind_unfold. cbn [print emit].
  match goal with |- context [ (?m ≫= ?f) ?s1 ] =>
    rewrite (bind_unfold m f s1);
    destruct (steam_fallback_loop_returns w host endpoint (elements X) X Hw s1)
      as (s2 & E & C)
  end.
  rewrite E. rewrite bind_unfold. cbn [conn_close].
  eexists. split.
  - unfold mret, M_ret. f_equal. f_equal. apply set_eq. intros a.
    rewrite elem_of_difference, elem_of_list_to_set, list_elem_of_In, filter_In,
      <- list_elem_of_In, elem_of_elements, elem_of_filter.
    destruct (succeeded w a); naive_solver.
  - cbn. rewrite C. reflexivity.
Qed.

(** With upstream answers that parse, [check_steamfixes] comes down to its
    last loop, run on the unresolved ids after they were printed. *)
Lemma check_steamfixes_clean w url api s :
  clean (steam_applist w) = true ->
  (forall a, clean (steam_appdetails w a) = true) ->
  exists s1,
    open_connections s1 = open_connections s /\
    check_steamfixes w url api s =
    steam_verdict (elements (steam_unresolved w))
      {| output := Stderr (RemainingSteam (steam_unresolved w)) :: output s1;
         open_connections := open_connections s1 |}.
Proof.
  intros Hc Hw. unfold check_steamfixes. fold (steam_candidates (fs w)).
  set (C := steam_candidates (fs w)).
  rewrite bind_unfold. cbn [print emit].
  set (X1 := C ∖ list_to_set (items (steam_applist w))).
  assert (Hcat : returns
    (with_urlopen url (steam_catalog_loop (steam_applist w) C)) X1)
    by apply returns_with_urlopen, steam_catalog_loop_returns, Hc.
  run_returns Hcat.
  assert (Hblock : returns
    (if decide (X1 ≠ ∅) then
       let '(host, endpoint) := api in
       conn_open;; print (ValidatingSteam host);;
       appids ← steam_fallback_loop w host endpoint (elements X1) X1;
       conn_close;; mret appids
     else mret X1) (steam_unresolved w)).
  { assert (HX : filter (fun a => succeeded w a = false) X1 = steam_unresolved w).
    { apply set_eq. intros a. unfold steam_unresolved, X1. fold C.
      rewrite !elem_of_filter, elem_of_difference, elem_of_list_to_set.
      naive_solver. }
    destruct (decide (X1 ≠ ∅)) as [Hne|He].
    - destruct api as [host endpoint]. rewrite <- HX.
      apply steam_scope_returns, Hw.
    - apply dec_stable in He. rewrite <- HX, He.
      replace (filter _ (∅ : gset Z)) with (∅ : gset Z) by set_solver.
      apply returns_ret. }
  run_returns Hblock.
  rewrite bind_unfold. cbn [print emit].
  eexists. split; [|reflexivity]. cbn in *. congruence.
Qed.

Lemma gog_batches_loop_returns w url bs X b :
  (forall b, clean (gog_products w b) = true) ->
  last bs = Some b ->
  returns (gog_batches_loop w url bs X) (catalog_rest w b).
Proof.
  intros Hw. revert X. induction bs as [|b0 bs IH]; intros X Hlast; [discriminate|].
  cbn [gog_batches_loop].
  eapply returns_bind; [apply returns_print|].
  eapply returns_bind;
    [apply returns_with_urlopen, gog_catalog_loop_returns, Hw|].
  destruct bs as [|b1 bs].
  - injection Hlast as ->. apply returns_ret.
  - rewrite last_cons_cons in Hlast. apply IH, Hlast.
Qed.

Lemma gog_scope_returns w host endpoint X :
  clean (umu_database w) = true ->
  returns (conn_open;;
           emit (ConnRequest host endpoint);;
           print (ValidatingGog host);;
           appids ← gog_umu_loop (umu_database w) X;
           conn_close;;
           mret appids)
          (X ∖ list_to_set (umu_ids w)).
Proof.
  intros Hc s. rewrite bind_unfold. cbn [conn_open].
  rewrite bind_unfold. cbn [emit].
  rewrite bind_unfold. cbn [print emit].
  match goal with |- context [ (?m ≫= ?f) ?s1 ] =>
    rewrite (bind_unfold m f s1);
    destruct (gog_umu_loop_returns (umu_database w) X Hc s1) as (s2 & E & C)
  end.
  rewrite E. rewrite bind_unfold. cbn [conn_close].
  eexists. split; [reflexivity|]. cbn. rewrite C. reflexivity.
Qed.

(** With upstream answers that parse, [check_gogfixes] decides on the ids of
    the last batch alone. *)
Lemma check_gogfixes_clean w url api s b :
  (forall b, clean (gog_products w b) = true) ->
  clean (umu_database w) = true ->
  last (_batch_generator (gog_files (fs w)) 50) = Some b ->
  exists s1,
    open_connections s1 = open_connections s /\
    check_gogfixes w url api s =
    (if decide (gog_unresolved_of w b = ∅) then Ok tt
     else Raise (InvalidGogAppIds (gog_unresolved_of w b)),
     {| output := Stderr (RemainingGog (gog_unresolved_of w b)) :: output s1;
        open_connections := open_connections s1 |}).
Proof.
  intros Hw Hu Hlast. unfold check_gogfixes. fold (gog_files (fs w)).
  pose proof (gog_batches_loop_returns w url _ ∅ b Hw Hlast) as H1.
  run_returns H1.
  set (X1 := catalog_rest w b).
  set (X2 := X1 ∖ list_to_set (steam_names (fs w))).
  assert (H2 : returns
    (if decide (X1 ≠ ∅) then
       print ValidatingGogSteam;;
       gog_steam_loop (listdir (fs w) "gamefixes-steam") X1
     else mret X1) X2).
  { destruct (decide (X1 ≠ ∅)) as [Hne|He].
    - eapply returns_bind; [apply returns_print | apply gog_steam_loop_returns].
    - apply dec_stable in He. unfold X2. rewrite He.
      replace (∅ ∖ _) with (∅ : gset string) by set_solver. apply returns_ret. }
  run_returns H2.
  assert (H3 : returns
    (if decide (X2 ≠ ∅) then
       let '(host, endpoint) := api in
       conn_open;; emit (ConnRequest host endpoint);; print (ValidatingGog host);;
       appids ← gog_umu_loop (umu_database w) X2;
       conn_close;; mret appids
     else mret X2) (gog_unresolved_of w b)).
  { assert (HX : X2 ∖ list_to_set (umu_ids w) = gog_unresolved_of w b).
    { apply set_eq. intros c. unfold gog_unresolved_of, X2, X1, catalog_rest.
      rewrite elem_of_filter, !elem_of_difference, !elem_of_list_to_set.
      naive_solver. }
    destruct (decide (X2 ≠ ∅)) as [Hne|He].
    - destruct api as [host endpoint]. rewrite <- HX.
      apply gog_scope_returns, Hu.
    - apply dec_stable in He. rewrite <- HX, He.
      replace (∅ ∖ _) with (∅ : gset string) by set_solver. apply returns_ret. }
  run_returns H3.
  rewrite bind_unfold. cbn [print emit].
  destruct (decide (gog_unresolved_of w b ≠ ∅)) as [Hne|He].
  - rewrite decide_False by exact Hne.
    eexists. split; [|reflexivity]. cbn in *. congruence.
  - apply dec_stable in He. rewrite (decide_True _ _ He).
    eexists. split; [|reflexivity]. cbn in *. congruence.
Qed.

(** ** What [_batch_generator] yields *)

Lemma gog_ids_cons n files :
  gog_ids (n :: files) =
  if Py.startswith "umu-" n then gog_id n :: gog_ids files else gog_ids files.
Proof. unfold gog_ids. cbn. destruct (Py.startswith "umu-" n); reflexivity. Qed.

Lemma pairwise_disjoint_lookup bs i j bi bj :
  pairwise_disjoint bs -> i ≠ j ->
  bs !! i = Some bi -> bs !! j = Some bj -> bi ## bj.
Proof.
  revert i j. induction bs as [|b bs IH]; intros i j Hbs Hij Hi Hj;
    [discriminate|].
  destruct Hbs as [Hb Hbs]. rewrite Forall_forall in Hb.
  destruct i as [|i], j as [|j]; cbn in Hi, Hj.
  - congruence.
  - injection Hi as <-. apply Hb. eapply list_elem_of_lookup_2, Hj.
  - injection Hj as <-. symmetry.
    apply Hb. eapply list_elem_of_lookup_2, Hi.
  - apply (IH i j); [assumption | congruence | assumption | assumption].
Qed.

Lemma gen_copies_loop size fuel files X count :
  (length files < fuel)%nat ->
  gen_appids (gen_loop size files X count)
    :: gen_copies size fuel (gen_loop size files X count)
  = batch_loop size files X count.
Proof.
  revert fuel X count. induction files as [|n files IH]; intros fuel X count Hfuel;
    cbn [gen_loop batch_loop].
  - destruct fuel; reflexivity.
  - cbn [length] in Hfuel.
    destruct (negb _); [apply IH; lia|]. cbn zeta.
    destruct (count =? size)%nat; [|apply IH; lia].
    destruct fuel as [|fuel]; [lia|].
    cbn [gen_copies gen_next gen_pc_of gen_glob gen_appids].
    rewrite IH by lia. reflexivity.
Qed.

(** The generator stops by itself: the copies are the contents at all its
    yields. *)
Lemma _batch_generator_eq files size :
  _batch_generator files size = batch_loop size files ∅ 0.
Proof.
  exact (gen_copies_loop size (S (length files)) files ∅ 0%nat (Nat.lt_succ_diag_r _)).
Qed.

Section Batches.
Variable size : nat.

Lemma batch_loop_last files X count :
  is_Some (last (batch_loop size files X count)).
Proof.
  revert X count. induction files as [|n files IH]; intros X count;
    cbn [batch_loop].
  - eexists. reflexivity.
  - destruct (negb _); [apply IH|]. cbn zeta.
    destruct (count =? size)%nat; [|apply IH].
    destruct (IH ∅ 0%nat) as [b Hb]. exists b.
    destruct (batch_loop size files ∅ 0) eqn:E; [discriminate Hb|].
    rewrite last_cons_cons. exact Hb.
Qed.

Lemma batch_loop_union files X count :
  ⋃ (batch_loop size files X count) = X ∪ list_to_set (gog_ids files).
Proof.
  revert X count. induction files as [|n files IH]; intros X count;
    cbn [batch_loop]; rewrite ?gog_ids_cons.
  - cbn. set_solver.
  - destruct (Py.startswith "umu-" n); cbn [negb]; [|apply IH].
    cbn zeta. fold (gog_id n).
    destruct (count =? size)%nat.
    + cbn [union_list foldr]. rewrite IH. cbn [list_to_set]. set_solver.
    + rewrite IH. cbn [list_to_set]. set_solver.
Qed.

Lemma batch_loop_subseteq files X count b :
  b ∈ batch_loop size files X count -> b ⊆ X ∪ list_to_set (gog_ids files).
Proof.
  intros Hb. rewrite <- batch_loop_union with (count := count).
  intros x Hx. apply elem_of_union_list. exists b. split; assumption.
Qed.

Lemma batch_loop_disjoint files X count :
  NoDup (gog_ids files) ->
  X ## list_to_set (gog_ids files) ->
  pairwise_disjoint (batch_loop size files X count).
Proof.
  revert X count. induction files as [|n files IH]; intros X count;
    cbn [batch_loop]; rewrite ?gog_ids_cons.
  - intros _ _. split; [constructor | exact I].
  - destruct (Py.startswith "umu-" n); cbn [negb]; [|apply IH].
    cbn zeta. fold (gog_id n). intros Hnd HX.
    apply NoDup_cons in Hnd as [Hn Hnd]. cbn [list_to_set] in HX.
    assert (Hn' : gog_id n ∉ (list_to_set (gog_ids files) : gset string))
      by (rewrite elem_of_list_to_set; exact Hn).
    destruct (count =? size)%nat.
    + split; [|apply IH; [exact Hnd | set_solver]].
      apply Forall_forall. intros b Hb.
      apply batch_loop_subseteq in Hb. set_solver.
    + apply IH; [exact Hnd | set_solver].
Qed.

(** No batch is cut off as long as the counter does not reach [size]. *)
Lemma batch_loop_single files X count :
  (count + length (gog_ids files) <= size)%nat ->
  batch_loop size files X count = [X ∪ list_to_set (gog_ids files)].
Proof.
  revert X count. induction files as [|n files IH]; intros X count;
    cbn [batch_loop]; rewrite ?gog_ids_cons.
  - intros _. f_equal. cbn. set_solver.
  - destruct (Py.startswith "umu-" n); cbn [negb]; [|apply IH].
    cbn zeta. fold (gog_id n). cbn [length]. intros Hlen.
    destruct (Nat.eqb_spec count size) as [->|Hne]; [lia|].
    rewrite IH by lia. f_equal. cbn [list_to_set]. set_solver.
Qed.

End Batches.

(** ** The scenarios of the specification *)

(** A whitelisted id that nothing upstream knows passes. *)
Example scenario_whitelisted :
  (main delisted_only s0).1 = Ok tt.
Proof. vm_compute. reflexivity. Qed.

(** An id that nothing knows and that is not whitelisted fails. *)
Example scenario_unknown_steam_id :
  (check_steamfixes one_unknown_each steampowered steamapi s0).1
  = Raise (InvalidSteamAppId 99999999).
Proof. vm_compute. reflexivity. Qed.

(** An id that the app list does not have is asked for by itself; the
    answer is read up to the success event, and the connection is closed. *)
Example scenario_known_to_fallback :
  check_steamfixes known_to_fallback steampowered steamapi s0
  = (Ok tt,
     {| output :=
          [ Stderr (RemainingSteam ∅);
            Stderr (RemovingSteam 620);
            ConnRequest "store.steampowered.com" "/api/appdetails?appids=620";
            Stderr (ValidatingSteam "store.steampowered.com");
            UrlClose;
            UrlOpen steampowered;
            Stderr (ValidatingSteam steampowered) ];
        open_connections := 0 |}).
Proof. vm_compute. reflexivity. Qed.

(** An id of the catalog is resolved without the fallback sources. *)
Example scenario_known_to_catalog :
  let run := check_gogfixes known_to_catalog gogapi umudb_gog s0 in
  run.1 = Ok tt /\ existsb is_conn_request (output run.2) = false.
Proof. vm_compute. split; reflexivity. Qed.

(** An id of a Steam fix is resolved without the umu database. *)
Example scenario_alias_of_steam_fix :
  let run := main alias_of_steam_fix s0 in
  run.1 = Ok tt
  /\ In (Stderr (RemovingGog "5678")) (output run.2)
  /\ existsb is_conn_request (output run.2) = false.
Proof. vm_compute. repeat split. tauto. Qed.

(** A Steam fix whose name is not a number fails the check of the names. *)
Example scenario_not_a_number :
  (check_filenames not_a_number s0).1
  = Raise (InvalidSteamFilename
             {| parent := "gamefixes-steam"; file := regular "notanumber.py" |}).
Proof. vm_compute. reflexivity. Qed.

(** * The claims *)

(** ** Batches *)

(** C2.  The claim is that no batch of [_batch_generator] has more than 50
    entries.  The counter is compared with [size] after the id was added and
    before it is incremented, so the set is yielded when it holds 51 ids: on
    a directory of 51 [umu-] files the first batch has 51 entries (and a
    second, empty batch follows). *)
Theorem batch_of_fifty_one :
  size <$> _batch_generator fifty_one_files 50 = [51%nat; 0%nat].
Proof. vm_compute. reflexivity. Qed.

(** No batch has more than [size + 1] entries, and the example above shows
    that this bound is reached. *)
Lemma batch_loop_size sz files X count b :
  (size X <= count)%nat -> (count <= sz)%nat ->
  b ∈ batch_loop sz files X count -> (size b <= S sz)%nat.
Proof.
  revert X count. induction files as [|n files IH]; intros X count HX Hc;
    cbn [batch_loop].
  - intros ->%list_elem_of_singleton. lia.
  - destruct (negb _); [apply IH; assumption|]. cbn zeta.
    assert (Hadd : (size ({[gog_id n]} ∪ X) <= S (size X))%nat).
    { rewrite size_union_alt, size_singleton.
      assert (Hsub : X ∖ {[gog_id n]} ⊆ X) by set_solver.
      apply subseteq_size in Hsub. lia. }
    fold (gog_id n).
    destruct (Nat.eqb_spec count sz) as [->|Hne].
    + intros [->|Hb]%elem_of_cons; [lia|].
      revert Hb. apply IH; [rewrite size_empty|]; lia.
    + apply IH; lia.
Qed.

(** C9, as stated, fails: the names of a directory are distinct, but two of
    them may stand for the same id; when they fall into different batches
    the two batches share that id. *)
Lemma batches_may_overlap :
  NoDup colliding_files /\
  exists b1 b2, _batch_generator colliding_files 50 = [b1; b2]
                /\ "7" ∈ b1 /\ "7" ∈ b2.
Proof.
  split.
  - apply (bool_decide_unpack _). vm_compute. exact I.
  - eexists _, _. split; [reflexivity|].
    split; apply (bool_decide_unpack _); vm_compute; exact I.
Qed.

(** C9, amended.  [_batch_generator] yields at least one set, the empty set
    alone when there is no [umu-] file; the union of the sets, as they are
    when they are yielded, is the set of the ids of the [umu-] files; and
    these sets are pairwise disjoint when no two [umu-] files stand for the
    same id. *)
Theorem batch_generator_partition (files : list string) (size : nat) :
  let batches := _batch_generator files size in
  (1 <= length batches)%nat
  /\ (gog_ids files = [] -> batches = [∅])
  /\ ⋃ batches = list_to_set (gog_ids files)
  /\ (NoDup (gog_ids files) ->
      forall i j bi bj, i ≠ j ->
        batches !! i = Some bi -> batches !! j = Some bj -> bi ## bj).
Proof.
  cbn zeta. rewrite _batch_generator_eq. split; [|split; [|split]].
  - destruct (batch_loop_last size files ∅ 0) as [b Hb].
    destruct (batch_loop size files ∅ 0); [discriminate Hb | cbn; lia].
  - intros Hnone. rewrite batch_loop_single by (rewrite Hnone; cbn; lia).
    rewrite Hnone. f_equal; set_solver.
  - rewrite batch_loop_union. set_solver.
  - intros Hnd i j bi bj. apply pairwise_disjoint_lookup.
    apply batch_loop_disjoint; [exact Hnd | set_solver].
Qed.

Lemma batch_generator_partition_witness :
  let batches := _batch_generator sixty_files 50 in
  (gog_ids ["default.py"] = [] /\ _batch_generator ["default.py"] 50 = [∅])
  /\ NoDup (gog_ids sixty_files)
  /\ exists b1 b2,
       batches !! 0%nat = Some b1 /\ batches !! 1%nat = Some b2
       /\ size b1 = 51%nat /\ size b2 = 9%nat /\ b1 ## b2.
Proof.
  assert (Hnd : NoDup (gog_ids sixty_files)).
  { apply (bool_decide_unpack _). vm_compute. exact I. }
  split; [split; [reflexivity|] | split; [exact Hnd|]].
  - apply (batch_generator_partition ["default.py"] 50). reflexivity.
  - eexists _, _. split; [reflexivity|]. split; [reflexivity|].
    split; [vm_compute; reflexivity|]. split; [vm_compute; reflexivity|].
    apply (proj2 (proj2 (proj2 (batch_generator_partition sixty_files 50)))
             Hnd 0%nat 1%nat); [discriminate | reflexivity | reflexivity].
Defined.

(** ** The GOG batches *)

(** C1.  The claim is that the ids left unresolved by an earlier batch are
    still checked against the fallback sources and reported.  [appids] is
    assigned anew from each batch, so after the loop it holds what is left
    of the last batch only.  With 51 fixes that no source knows, the last
    batch is empty and the check passes; with 52 fixes of which only the
    last one listed is known, the check passes as well, and 51 ids that no
    source knows go unreported. *)
Theorem earlier_batches_are_dropped :
  ((check_gogfixes fifty_one_unknown gogapi umudb_gog s0).1 = Ok tt
   /\ size (gog_unresolved fifty_one_unknown) = 51%nat)
  /\ ((check_gogfixes last_one_known gogapi umudb_gog s0).1 = Ok tt
      /\ size (gog_unresolved last_one_known) = 51%nat).
Proof. repeat split; vm_compute; reflexivity. Qed.

(** ** The HTTPS connection *)

Lemma keeps_scoped {A} (m : M A) : keeps_connections m -> scoped m.
Proof. intros Hm s r s' E _. exact (Hm _ _ _ E). Qed.

Lemma scoped_bind {A B} (m : M A) (f : A -> M B) :
  scoped m -> (forall a, scoped (f a)) -> scoped (m ≫= f).
Proof.
  intros Hm Hf s r s' H Hr. rewrite bind_unfold in H.
  destruct (m s) as [[a|e] s1] eqn:E.
  - rewrite (Hf a _ _ _ H Hr). apply (Hm _ _ _ E). intros [u Hu]. discriminate Hu.
  - injection H as <- <-. apply (Hm _ _ _ E).
    intros [u Hu]. apply Hr. exists u. congruence.
Qed.

Lemma closes_bind {A B} (m : M A) (f : A -> M B) :
  keeps_connections m -> raises is_upstream m -> (forall a, closes (f a)) ->
  closes (m ≫= f).
Proof.
  intros Hk Hm Hf s r s' H Hr. rewrite bind_unfold in H.
  destruct (m s) as [[a|e] s1] eqn:E.
  - rewrite (Hf a _ _ _ H Hr), (Hk _ _ _ E). reflexivity.
  - injection H as <- <-. destruct Hr.
    destruct (Hm _ _ _ E) as [u ->]. exists u. reflexivity.
Qed.

Lemma closes_close {A} (a : A) : closes (conn_close;; mret a).
Proof. intros s r s' H _. injection H as _ <-. reflexivity. Qed.

Lemma scoped_open {A} (m : M A) : closes m -> scoped (conn_open;; m).
Proof.
  intros Hm s r s' H Hr. rewrite bind_unfold in H. cbn [conn_open] in H.
  rewrite (Hm _ _ _ H Hr). reflexivity.
Qed.

Lemma check_steamfixes_scoped w url api : scoped (check_steamfixes w url api).
Proof.
  unfold check_steamfixes.
  apply scoped_bind; [apply keeps_scoped, keeps_print | intros _].
  apply scoped_bind;
    [apply keeps_scoped, keeps_with_urlopen, steam_catalog_loop_keeps | intros X].
  apply scoped_bind; [|intros X'].
  - destruct (decide (X ≠ ∅)); [|apply keeps_scoped, keeps_ret].
    destruct api as [host endpoint]. apply scoped_open.
    apply closes_bind; [apply keeps_print | apply raises_print | intros _].
    apply closes_bind;
      [apply steam_fallback_loop_keeps | apply steam_fallback_loop_raises |].
    intros X'. apply closes_close.
  - apply scoped_bind; [apply keeps_scoped, keeps_print | intros _].
    apply keeps_scoped, steam_verdict_keeps.
Qed.

Lemma check_gogfixes_scoped w url api : scoped (check_gogfixes w url api).
Proof.
  unfold check_gogfixes.
  apply scoped_bind; [apply keeps_scoped, gog_batches_loop_keeps | intros X].
  apply scoped_bind; [|intros X1].
  { destruct (decide (X ≠ ∅)); [|apply keeps_scoped, keeps_ret].
    apply keeps_scoped, keeps_bind; [apply keeps_print | intros _].
    apply gog_steam_loop_keeps. }
  apply scoped_bind; [|intros X2].
  - destruct (decide (X1 ≠ ∅)); [|apply keeps_scoped, keeps_ret].
    destruct api as [host endpoint]. apply scoped_open.
    apply closes_bind; [apply keeps_emit | apply raises_emit | intros _].
    apply closes_bind; [apply keeps_print | apply raises_print | intros _].
    apply closes_bind; [apply gog_umu_loop_keeps | apply gog_umu_loop_raises |].
    intros X'. apply closes_close.
  - apply scoped_bind; [apply keeps_scoped, keeps_print | intros _].
    destruct (decide (X2 ≠ ∅)); apply keeps_scoped;
      [apply keeps_raise | apply keeps_ret].
Qed.

(** C3, as stated, fails: the connection is closed by a plain call after the
    loop, which an exception raised by the request or by the parser skips. *)
Lemma connection_left_open :
  let run := check_gogfixes umu_database_down gogapi umudb_gog s0 in
  run.1 = Raise (Upstream NetworkError)
  /\ open_connections s0 = 0%nat
  /\ open_connections run.2 = 1%nat.
Proof. vm_compute. repeat split. Qed.

(** C3, amended.  In [check_steamfixes] and in [check_gogfixes] the HTTPS
    connection that was opened is closed on every exit path on which no
    request and no parser raised: on normal return and when the final
    [ValueError] is raised. *)
Theorem connection_closed w url api s :
  (~ failed_upstream (check_steamfixes w url api s).1 ->
   open_connections (check_steamfixes w url api s).2 = open_connections s)
  /\ (~ failed_upstream (check_gogfixes w url api s).1 ->
      open_connections (check_gogfixes w url api s).2 = open_connections s).
Proof.
  split; intros Hr.
  - eapply check_steamfixes_scoped; [apply surjective_pairing | exact Hr].
  - eapply check_gogfixes_scoped; [apply surjective_pairing | exact Hr].
Qed.

Lemma connection_closed_witness :
  let steam := check_steamfixes one_unknown_each steampowered steamapi s0 in
  let gog := check_gogfixes one_unknown_each gogapi umudb_gog s0 in
  (steam.1 = Raise (InvalidSteamAppId 99999999)
   /\ open_connections steam.2 = open_connections s0)
  /\ (gog.1 = Raise (InvalidGogAppIds {[ "1" ]})
      /\ open_connections gog.2 = open_connections s0).
Proof.
  cbn zeta.
  destruct (connection_closed one_unknown_each steampowered steamapi s0)
    as [Hsteam _].
  destruct (connection_closed one_unknown_each gogapi umudb_gog s0)
    as [_ Hgog].
  split; (split; [vm_compute; reflexivity|]).
  - apply Hsteam. intros [u Hu]. vm_compute in Hu. discriminate Hu.
  - apply Hgog. intros [u Hu]. vm_compute in Hu. discriminate Hu.
Defined.

(** ** The verdict of the two validators *)


(** With upstream answers that parse, [check_steamfixes] prints the
    unresolved ids and then passes or fails on them. *)
Lemma check_steamfixes_verdict w url api s :
  clean (steam_applist w) = true ->
  (forall a, clean (steam_appdetails w a) = true) ->
  let run := check_steamfixes w url api s in
  Stderr (RemainingSteam (steam_unresolved w)) ∈ output run.2
  /\ (steam_unresolved w ⊆ whitelist_steam -> run.1 = Ok tt)
  /\ (steam_unresolved w ⊈ whitelist_steam ->
      exists a, a ∈ steam_unresolved w /\ (a ∉ whitelist_steam)
                /\ run.1 = Raise (InvalidSteamAppId a)).
Proof.
  intros Hc Hw. cbn zeta.
  destruct (check_steamfixes_clean w url api s Hc Hw) as (s1 & _ & ->).
  match goal with |- context [ steam_verdict ?l ?t ] =>
    destruct (steam_verdict_spec l t) as [[Hall ->]|(a & Ha & Hn & ->)]
  end; cbn [fst snd output].
  - split; [left|split]; [reflexivity|].
    intros Hsub. destruct Hsub. intros a Ha.
    rewrite Forall_forall in Hall. apply Hall, elem_of_elements, Ha.
  - apply elem_of_elements in Ha.
    split; [left|split].
    + intros Hsub. destruct Hn. apply Hsub, Ha.
    + intros _. exists a. auto.
Qed.

Lemma check_steamfixes_raises w url api :
  raises (fun e => is_upstream e \/ not_whitelisted e) (check_steamfixes w url api).
Proof.
  assert (Hup : forall A (m : M A), raises is_upstream m ->
                  raises (fun e => is_upstream e \/ not_whitelisted e) m).
  { intros A m. apply raises_weaken. auto. }
  unfold check_steamfixes.
  apply raises_bind; [apply raises_print | intros _].
  apply raises_bind;
    [apply Hup, raises_with_urlopen, steam_catalog_loop_raises | intros X].
  apply raises_bind; [|intros X'].
  - apply Hup. destruct (decide (X ≠ ∅)); [|apply raises_ret].
    destruct api as [host endpoint].
    apply raises_bind; [apply raises_conn_open | intros _].
    apply raises_bind; [apply raises_print | intros _].
    apply raises_bind; [apply steam_fallback_loop_raises | intros X'].
    apply raises_bind; [apply raises_conn_close | intros _]. apply raises_ret.
  - apply raises_bind; [apply raises_print | intros _].
    eapply raises_weaken; [|apply steam_verdict_raises]. auto.
Qed.





(** ** File names *)

Lemma filenames_loop_cons rt m ms s :
  Run.filenames_loop rt (m :: ms) s =
  let s' := printed (Module_ (parent m) (name (file m))) s in
  if name_ok_for rt m then Run.filenames_loop rt ms s'
  else (Raise (name_error m), s').
Proof.
  cbn [Run.filenames_loop]. rewrite bind_unfold. cbn [print emit].
  unfold name_ok_for, name_error, printed.
  destruct (exists_ (file m)), (is_steam m),
    (rt_isnumeric rt (Py.stem (name (file m)))),
    (Py.startswith "umu-" (name (file m))); reflexivity.
Qed.

Lemma filenames_loop_spec rt ms s :
  match (Run.filenames_loop rt ms s).1 with
  | Ok _ => forallb (name_ok_for rt) ms = true
  | Raise e =>
      exists before m after,
        ms = (before ++ m :: after)%list
        /\ forallb (name_ok_for rt) before = true
        /\ name_ok_for rt m = false /\ e = name_error m
  end.
Proof.
  revert s. induction ms as [|m ms IH]; intros s; [reflexivity|].
  rewrite filenames_loop_cons. cbn zeta. cbn [forallb].
  destruct (name_ok_for rt m) eqn:Hm.
  - match goal with |- context [ Run.filenames_loop rt ms ?t ] =>
      specialize (IH t); destruct (Run.filenames_loop rt ms t) as [[[]|e] s'] end;
      cbn [fst andb] in *; [exact IH|].
    destruct IH as (before & m' & after & -> & Hb & Hm' & ->).
    exists (m :: before), m', after. cbn [forallb]. rewrite Hm, Hb. auto.
  - exists [], m, ms. auto.
Qed.

(** C6, as stated, fails: the files left out are those whose name starts
    with [__init__.py], [default.py] or [winetricks-gui.py], not only the
    files that bear these names. *)
Lemma prefixed_names_are_skipped :
  (Run.check_filenames reference stray_default s0).1 = Ok tt
  /\ forallb (name_ok_for reference) (spec_gamefixes stray_default) = false.
Proof. split; vm_compute; reflexivity. Qed.

(** C6, amended.  [check_filenames] succeeds if and only if every file
    matching [gamefixes-*/*.py] whose name does not start with
    [__init__.py], [default.py] or [winetricks-gui.py] exists and satisfies
    the naming rule of its directory; otherwise it fails with the error of
    the first file that does not.  This holds whatever strings the
    interpreter takes for numeric. *)
Theorem check_filenames_iff (rt : Runtime) (fs : list Dir) (s : State) :
  ((Run.check_filenames rt fs s).1 = Ok tt
   <-> forallb (name_ok_for rt) (gamefixes fs) = true)
  /\ match (Run.check_filenames rt fs s).1 with
     | Ok _ => True
     | Raise e =>
         exists before m after,
           gamefixes fs = (before ++ m :: after)%list
           /\ forallb (name_ok_for rt) before = true
           /\ name_ok_for rt m = false /\ e = name_error m
     end.
Proof.
  unfold Run.check_filenames. rewrite bind_unfold. cbn [print emit].
  match goal with |- context [ Run.filenames_loop rt ?ms ?t ] =>
    pose proof (filenames_loop_spec rt ms t) as H;
    destruct (Run.filenames_loop rt ms t) as [[[]|e] s'] end; cbn [fst] in *.
  - split; [split; auto | exact I].
  - split; [|exact H].
    destruct H as (before & m & after & -> & _ & Hm & _).
    split; [discriminate|].
    rewrite forallb_app. cbn [forallb]. rewrite Hm, andb_false_r. discriminate.
Qed.

(** With an interpreter for which the superscript two is numeric, the file
    [gamefixes-steam/².py] is accepted. *)
Example scenario_superscript_two_accepted :
  (Run.check_filenames two_more_numerals superscript_fix s0).1 = Ok tt.
Proof. vm_compute. reflexivity. Qed.

(** ** The order of the checks *)

Lemma links_loop_broken ms s :
  existsb broken ms = true ->
  exists m, m ∈ ms /\ broken m = true /\ (links_loop ms s).1 = Raise (BrokenLink m).
Proof.
  revert s. induction ms as [|m ms IH]; intros s Hex; [discriminate|].
  cbn [links_loop existsb] in *. rewrite bind_unfold. cbn [print emit].
  fold (broken m). destruct (broken m) eqn:Hm.
  - exists m. split; [left | split; [exact Hm | reflexivity]].
  - cbn [orb] in Hex.
    match goal with |- context [ links_loop ms ?t ] =>
      destruct (IH t Hex) as (m' & Hin & Hm' & E) end.
    exists m'. split; [right; exact Hin | split; assumption].
Qed.

Lemma check_links_offline fs : offline (check_links fs).
Proof.
  unfold check_links. apply offline_bind; [apply offline_print | intros _].
  apply links_loop_offline.
Qed.

(** C7, as stated, fails: [check_links] leaves out every file whose name
    starts with [__init__.py], [default.py] or [winetricks-gui.py].  A
    broken symbolic link [gamefixes-steam/default.py.orig.py] is a fix file
    that is none of the three, and the run passes, after it has made its two
    requests with [urlopen]. *)
Lemma ignored_broken_link_passes :
  existsb broken (spec_gamefixes (fs dangling_default)) = true
  /\ (main dangling_default s0).1 = Ok tt
  /\ List.filter is_network (output (main dangling_default s0).2)
     = [UrlOpen gogapi; UrlOpen steampowered].
Proof. repeat split; vm_compute; reflexivity. Qed.

(** C7, amended.  [main] runs [check_links], [check_filenames],
    [check_steamfixes] and [check_gogfixes] in this order, each from the
    state that the one before left, and ends with the first exception, in
    the state in which it was raised; when one of the fix files whose name
    does not start with [__init__.py], [default.py] or [winetricks-gui.py]
    is a broken symbolic link, the run ends in [check_links] with the error
    for that link, and no request was made and no connection opened. *)
Theorem checks_in_order_fail_fast (w : World) (s : State) :
  (let s1 := (emit (Stdout (project w)) s).2 in
   match check_links (fs w) s1 with
   | (Raise e, s2) => main w s = (Raise e, s2)
   | (Ok _, s2) =>
       match check_filenames (fs w) s2 with
       | (Raise e, s3) => main w s = (Raise e, s3)
       | (Ok _, s3) =>
           match check_steamfixes w steampowered steamapi s3 with
           | (Raise e, s4) => main w s = (Raise e, s4)
           | (Ok _, s4) => main w s = check_gogfixes w gogapi umudb_gog s4
           end
       end
   end)
  /\ (existsb broken (gamefixes (fs w)) = true ->
      exists m, m ∈ gamefixes (fs w) /\ broken m = true
        /\ (main w s).1 = Raise (BrokenLink m)
        /\ List.filter is_network (output (main w s).2)
           = List.filter is_network (output s)
        /\ open_connections (main w s).2 = open_connections s).
Proof.
  assert (Horder :
    let s1 := (emit (Stdout (project w)) s).2 in
    match check_links (fs w) s1 with
    | (Raise e, s2) => main w s = (Raise e, s2)
    | (Ok _, s2) =>
        match check_filenames (fs w) s2 with
        | (Raise e, s3) => main w s = (Raise e, s3)
        | (Ok _, s3) =>
            match check_steamfixes w steampowered steamapi s3 with
            | (Raise e, s4) => main w s = (Raise e, s4)
            | (Ok _, s4) => main w s = check_gogfixes w gogapi umudb_gog s4
            end
        end
    end).
  { cbn zeta. unfold main. rewrite bind_unfold. cbn [emit snd].
    rewrite bind_unfold.
    destruct (check_links (fs w) _) as [[[]|e] s2]; [|reflexivity].
    rewrite bind_unfold.
    destruct (check_filenames (fs w) s2) as [[[]|e] s3]; [|reflexivity].
    rewrite bind_unfold.
    destruct (check_steamfixes w steampowered steamapi s3) as [[[]|e] s4];
      reflexivity. }
  split; [exact Horder|]. intros Hex. cbn zeta in Horder.
  set (s1 := (emit (Stdout (project w)) s).2) in *.
  destruct (links_loop_broken (gamefixes (fs w))
              (printed CheckingLinks s1) Hex) as (m & Hin & Hm & E).
  assert (El : (check_links (fs w) s1).1 = Raise (BrokenLink m)).
  { unfold check_links. rewrite bind_unfold. exact E. }
  destruct (check_links (fs w) s1) as [r s2] eqn:Ecl. cbn [fst] in El. subst r.
  exists m. rewrite Horder. cbn [fst snd].
  destruct (check_links_offline _ _ _ _ Ecl) as [Hnet Hconn].
  repeat split; assumption.
Qed.

Lemma checks_in_order_fail_fast_witness :
  existsb broken (gamefixes (fs dangling_link)) = true
  /\ exists m, m ∈ gamefixes (fs dangling_link) /\ broken m = true
       /\ (main dangling_link s0).1 = Raise (BrokenLink m)
       /\ List.filter is_network (output (main dangling_link s0).2)
          = List.filter is_network (output s0)
       /\ open_connections (main dangling_link s0).2 = open_connections s0.
Proof.
  split; [reflexivity|].
  apply (proj2 (checks_in_order_fail_fast dangling_link s0)). reflexivity.
Defined.

(** ** Determinism *)

Lemma check_links_oblivious fs : oblivious (check_links fs).
Proof.
  unfold check_links. apply oblivious_bind; [apply oblivious_print | intros _].
  apply links_loop_oblivious.
Qed.

Lemma check_filenames_oblivious fs : oblivious (check_filenames fs).
Proof.
  unfold check_filenames. apply oblivious_bind; [apply oblivious_print | intros _].
  apply filenames_loop_oblivious.
Qed.

#[local] Hint Resolve steam_catalog_loop_oblivious steam_fallback_loop_oblivious
  steam_verdict_oblivious gog_batches_loop_oblivious gog_steam_loop_oblivious
  gog_umu_loop_oblivious check_links_oblivious check_filenames_oblivious
  : effects.

Lemma check_steamfixes_oblivious w url api : oblivious (check_steamfixes w url api).
Proof. unfold check_steamfixes. walk. Qed.

Lemma check_gogfixes_oblivious w url api : oblivious (check_gogfixes w url api).
Proof. unfold check_gogfixes. walk. Qed.

(** *** Two runs *)

Lemma proc_bind_unfold {A B} (m : Proc A) (f : A -> Proc B) (p : Process) :
  (m ≫= f) p =
  match m p with
  | (Ok a, p') => f a p'
  | (Raise e, p') => (Raise e, p')
  end.
Proof. reflexivity. Qed.

Section SameOutcome.
Context {A B : Type}.
Implicit Types (m : M A) (f : A -> M B).

Lemma same_outcome_oblivious m : oblivious m -> same_outcome m m.
Proof. intros H. exact H. Qed.

Lemma same_outcome_bind m1 m2 f1 f2 :
  same_outcome m1 m2 -> (forall a, same_outcome (f1 a) (f2 a)) ->
  same_outcome (m1 ≫= f1) (m2 ≫= f2).
Proof.
  intros Hm Hf s1 s2. rewrite !bind_unfold.
  specialize (Hm s1 s2).
  destruct (m1 s1) as [r1 t1], (m2 s2) as [r2 t2]. simpl in Hm. subst r2.
  destruct r1 as [a|e]; [apply Hf | reflexivity].
Qed.

Lemma same_outcome_with_urlopen url1 url2 m1 m2 :
  same_outcome m1 m2 ->
  same_outcome (with_urlopen url1 m1) (with_urlopen url2 m2).
Proof.
  intros Hm s1 s2. unfold with_urlopen. rewrite !bind_unfold. cbn [emit].
  match goal with
  | |- context [ m1 ?a ] =>
      match goal with
      | |- context [ m2 ?b ] =>
          specialize (Hm a b); destruct (m1 a) as [r1 t1], (m2 b) as [r2 t2]
      end
  end.
  exact Hm.
Qed.

Lemma same_verdict_lift m1 m2 :
  same_outcome m1 m2 -> same_verdict (lift m1) (lift m2).
Proof.
  intros H p1 p2 Hg. unfold lift.
  specialize (H (run_state p1) (run_state p2)).
  destruct (m1 (run_state p1)), (m2 (run_state p2)). split; assumption.
Qed.

Lemma same_verdict_bind (m1 m2 : Proc A) (f1 f2 : A -> Proc B) :
  same_verdict m1 m2 -> (forall a, same_verdict (f1 a) (f2 a)) ->
  same_verdict (m1 ≫= f1) (m2 ≫= f2).
Proof.
  intros Hm Hf p1 p2 Hg. rewrite !proc_bind_unfold.
  destruct (Hm p1 p2 Hg) as [Hr Hg'].
  destruct (m1 p1) as [r1 q1], (m2 p2) as [r2 q2]. cbn [fst snd] in Hr, Hg'.
  subst r2. destruct r1 as [a|e]; [apply Hf; exact Hg'|].
  split; [reflexivity | exact Hg'].
Qed.

Lemma keeps_globals_lift m : keeps_globals (lift m).
Proof. intros p. unfold lift. destruct (m (run_state p)). reflexivity. Qed.

Lemma keeps_globals_bind (m : Proc A) (f : A -> Proc B) :
  keeps_globals m -> (forall a, keeps_globals (f a)) -> keeps_globals (m ≫= f).
Proof.
  intros Hm Hf p. rewrite proc_bind_unfold. specialize (Hm p).
  destruct (m p) as [[a|e] q]; cbn [snd] in *; [|exact Hm].
  rewrite (Hf a q). exact Hm.
Qed.

End SameOutcome.

Lemma same_verdict_steam_verdict todo :
  same_verdict (Run.steam_verdict todo) (Run.steam_verdict todo).
Proof.
  induction todo as [|a todo IH]; intros p1 p2 Hg; cbn [Run.steam_verdict].
  - split; [reflexivity | exact Hg].
  - rewrite !proc_bind_unfold. cbn [load_whitelist_steam]. rewrite Hg.
    destruct (decide (a ∉ global_whitelist_steam p2)); [|exact (IH p1 p2 Hg)].
    split; [reflexivity | exact Hg].
Qed.

Lemma keeps_globals_steam_verdict todo : keeps_globals (Run.steam_verdict todo).
Proof.
  induction todo as [|a todo IH]; intros p; cbn [Run.steam_verdict];
    [reflexivity|].
  rewrite proc_bind_unfold. cbn [load_whitelist_steam].
  destruct (decide (a ∉ global_whitelist_steam p)); [reflexivity | apply IH].
Qed.

#[local] Hint Resolve check_steamfixes_oblivious check_gogfixes_oblivious
  : effects.

(** Two interpreters that have the same Unicode character database. *)
Section TwoRuns.
Variables (rt1 rt2 : Runtime) (w : World).
Hypothesis Hnum : forall s, rt_isnumeric rt1 s = rt_isnumeric rt2 s.
Hypothesis Hint : forall s, rt_int rt1 s = rt_int rt2 s.

Lemma filenames_loop_same ms :
  same_outcome (Run.filenames_loop rt1 ms) (Run.filenames_loop rt2 ms).
Proof.
  induction ms as [|m ms IH]; cbn [Run.filenames_loop].
  - apply same_outcome_oblivious, oblivious_ret.
  - apply same_outcome_bind; [apply same_outcome_oblivious, oblivious_print|].
    intros _. rewrite Hnum.
    repeat match goal with
    | |- same_outcome (if ?b then _ else _) _ => destruct b
    end; first [exact IH | apply same_outcome_oblivious, oblivious_raise].
Qed.

Lemma check_filenames_same fs :
  same_outcome (Run.check_filenames rt1 fs) (Run.check_filenames rt2 fs).
Proof.
  unfold Run.check_filenames.
  apply same_outcome_bind; [apply same_outcome_oblivious, oblivious_print|].
  intros _. apply filenames_loop_same.
Qed.

Lemma steam_collect_same files X :
  same_outcome (Run.steam_collect rt1 files X) (Run.steam_collect rt2 files X).
Proof.
  revert X. induction files as [|f files IH]; intros X; cbn [Run.steam_collect].
  - apply same_outcome_oblivious, oblivious_ret.
  - cbn zeta. rewrite Hnum, Hint.
    destruct (negb _); [apply IH|].
    destruct (rt_int rt2 _); [apply IH|].
    apply same_outcome_oblivious, oblivious_raise.
Qed.

(** The order in which the ids of a request are joined shows in the
    request, not in what the loop returns. *)
Lemma gog_batches_loop_same url bs X :
  same_outcome (Run.gog_batches_loop rt1 w url bs X)
               (Run.gog_batches_loop rt2 w url bs X).
Proof.
  revert X. induction bs as [|b bs IH]; intros X; cbn [Run.gog_batches_loop].
  - apply same_outcome_oblivious, oblivious_ret.
  - apply same_outcome_bind; [apply same_outcome_oblivious, oblivious_print|].
    intros _. apply same_outcome_bind; [|intros Y; apply IH].
    apply same_outcome_with_urlopen, same_outcome_oblivious.
    apply gog_catalog_loop_oblivious.
Qed.

Lemma check_gogfixes_same url api :
  same_outcome (Run.check_gogfixes rt1 w url api) (Run.check_gogfixes rt2 w url api).
Proof.
  unfold Run.check_gogfixes.
  apply same_outcome_bind; [apply gog_batches_loop_same | intros X1].
  apply same_outcome_oblivious. walk.
Qed.

Hypothesis Hiter : forall X, rt_iter_int rt1 X = rt_iter_int rt2 X.

Lemma check_steamfixes_same url api :
  same_verdict (Run.check_steamfixes rt1 w url api)
               (Run.check_steamfixes rt2 w url api).
Proof.
  unfold Run.check_steamfixes.
  apply same_verdict_bind; [apply same_verdict_lift, steam_collect_same|].
  intros C. apply same_verdict_bind;
    [apply same_verdict_lift, same_outcome_oblivious, oblivious_print|].
  intros _. apply same_verdict_bind;
    [apply same_verdict_lift, same_outcome_oblivious; walk|].
  intros X1. rewrite Hiter. apply same_verdict_bind;
    [apply same_verdict_lift, same_outcome_oblivious; walk|].
  intros X2. apply same_verdict_bind;
    [apply same_verdict_lift, same_outcome_oblivious, oblivious_print|].
  intros _. rewrite Hiter. apply same_verdict_steam_verdict.
Qed.

Lemma main_same : same_verdict (Run.main rt1 w) (Run.main rt2 w).
Proof.
  unfold Run.main.
  apply same_verdict_bind;
    [apply same_verdict_lift, same_outcome_oblivious, oblivious_emit|].
  intros _. apply same_verdict_bind;
    [apply same_verdict_lift, same_outcome_oblivious, check_links_oblivious|].
  intros _. apply same_verdict_bind;
    [apply same_verdict_lift, check_filenames_same|].
  intros _. apply same_verdict_bind; [apply check_steamfixes_same|].
  intros _. apply same_verdict_lift, check_gogfixes_same.
Qed.

End TwoRuns.

Lemma check_steamfixes_keeps_globals rt w url api :
  keeps_globals (Run.check_steamfixes rt w url api).
Proof.
  unfold Run.check_steamfixes.
  repeat (apply keeps_globals_bind; [apply keeps_globals_lift | intros ?]).
  apply keeps_globals_steam_verdict.
Qed.

Lemma main_keeps_globals rt w : keeps_globals (Run.main rt w).
Proof.
  unfold Run.main.
  repeat (apply keeps_globals_bind; [apply keeps_globals_lift | intros ?]).
  apply keeps_globals_bind; [apply check_steamfixes_keeps_globals | intros ?].
  apply keeps_globals_lift.
Qed.


(** ** Matching of GOG ids *)

(** [str] of an integer never has a leading zero before other digits. *)
Lemma str_int_01234 (n : Z) : Py.str_int n ≠ "01234".
Proof.
  unfold Py.str_int. intros H.
  destruct (Z.to_int n) as [d|d] eqn:E.
  - assert (Hd : d ≠ Decimal.Nil) by (intros ->; discriminate H).
    assert (Hp : NilZero.int_of_string (NilZero.string_of_int (Decimal.Pos d))
                 = Some (Decimal.Pos d)).
    { apply NilZero.isi; congruence. }
    rewrite H in Hp. vm_compute in Hp. injection Hp as <-.
    pose proof (DecimalZ.of_to n) as Hn. rewrite E in Hn.
    vm_compute in Hn. subst n. vm_compute in E. discriminate E.
  - cbn in H. discriminate H.
Qed.

Lemma returns_result {A} (m : M A) a s : returns m a -> (m s).1 = Ok a.
Proof. intros H. destruct (H s) as (s' & -> & _). reflexivity. Qed.

(** C10.  Matching is exact equality of strings.  A pass over the catalog
    answer removes a candidate exactly when [str] of the [id] of some item
    is that candidate, so that an integer id never removes the candidate
    [01234]; a pass over the umu database removes a candidate exactly when
    the [umu_id] of some entry, with a leading [umu-] stripped, is that
    candidate. *)
Theorem gog_matching_is_exact (X : gset string) (s : State) :
  (forall r c, clean r = true ->
     exists X', (gog_catalog_loop r X s).1 = Ok X'
       /\ (c ∈ X' <-> c ∈ X /\ forall v, v ∈ items r -> py_str v ≠ c))
  /\ (forall r, clean r = true -> (forall v, v ∈ items r -> exists n, v = JInt n) ->
        "01234" ∈ X ->
        exists X', (gog_catalog_loop r X s).1 = Ok X' /\ "01234" ∈ X')
  /\ (forall r c, clean r = true ->
        exists X', (gog_umu_loop r X s).1 = Ok X'
          /\ (c ∈ X' <->
              c ∈ X /\ forall v, v ∈ items r ->
                         Py.removeprefix "umu-" (py_str v) ≠ c)).
Proof.
  assert (Hcat : forall r c, clean r = true ->
     exists X', (gog_catalog_loop r X s).1 = Ok X'
       /\ (c ∈ X' <-> c ∈ X /\ forall v, v ∈ items r -> py_str v ≠ c)).
  { intros r c Hc. eexists. split.
    - apply returns_result, gog_catalog_loop_returns, Hc.
    - rewrite elem_of_difference, elem_of_list_to_set, list_elem_of_fmap.
      naive_solver. }
  split; [exact Hcat | split].
  - intros r Hc Hint HX. destruct (Hcat r "01234" Hc) as (X' & E & Hiff).
    exists X'. split; [exact E|]. apply Hiff. split; [exact HX|].
    intros v Hv. destruct (Hint v Hv) as [n ->]. apply str_int_01234.
  - intros r c Hc. eexists. split.
    + apply returns_result, gog_umu_loop_returns, Hc.
    + rewrite elem_of_difference, elem_of_list_to_set, list_elem_of_fmap.
      naive_solver.
Qed.

Lemma gog_matching_is_exact_witness :
  (exists X', (gog_catalog_loop (SItem (JInt 1234) SEnd) {[ "01234"; "1234" ]} s0).1
              = Ok X' /\ "01234" ∈ X' /\ "1234" ∉ X')
  /\ (exists X', (gog_umu_loop (SItem (JStr "umu-77") SEnd) {[ "77"; "umu-77" ]} s0).1
                 = Ok X' /\ "umu-77" ∈ X' /\ "77" ∉ X').
Proof.
  destruct (gog_matching_is_exact {[ "01234"; "1234" ]} s0) as (Hcat & Hint & _).
  destruct (gog_matching_is_exact {[ "77"; "umu-77" ]} s0) as (_ & _ & Humu).
  split.
  - destruct (Hint (SItem (JInt 1234) SEnd)) as (X' & E & H0);
      [reflexivity | | apply (bool_decide_unpack _); vm_compute; exact I |].
    { intros v Hv. apply list_elem_of_singleton in Hv. exists 1234. exact Hv. }
    exists X'. split; [exact E | split; [exact H0|]].
    destruct (Hcat (SItem (JInt 1234) SEnd) "1234") as (X'' & E' & Hiff);
      [reflexivity|].
    rewrite E in E'. injection E' as <-. rewrite Hiff.
    intros [_ Hne]. apply (Hne (JInt 1234)); [left | reflexivity].
  - destruct (Humu (SItem (JStr "umu-77") SEnd) "umu-77") as (X' & E & Hiff);
      [reflexivity|].
    exists X'. split; [exact E | split].
    + apply Hiff. split; [apply (bool_decide_unpack _); vm_compute; exact I|].
      intros v Hv. apply list_elem_of_singleton in Hv. subst v.
      vm_compute. discriminate.
    + destruct (Humu (SItem (JStr "umu-77") SEnd) "77") as (X'' & E' & Hiff');
        [reflexivity|].
      rewrite E in E'. injection E' as <-. rewrite Hiff'.
      intros [_ Hne]. apply (Hne (JStr "umu-77")); [left | reflexivity].
Defined.

(** * Further properties *)

(** ** Broken links *)

Lemma links_loop_cons m ms s :
  links_loop (m :: ms) s =
  let s' := printed (Module_ (parent m) (name (file m))) s in
  if broken m then (Raise (BrokenLink m), s') else links_loop ms s'.
Proof.
  cbn [links_loop]. rewrite bind_unfold. cbn [print emit].
  unfold broken, printed. destruct (is_symlink (file m) && _); reflexivity.
Qed.

Lemma links_loop_spec ms s :
  match (links_loop ms s).1 with
  | Ok _ => existsb broken ms = false
  | Raise e =>
      exists before m after,
        ms = (before ++ m :: after)%list /\ existsb broken before = false
        /\ broken m = true /\ e = BrokenLink m
  end.
Proof.
  revert s. induction ms as [|m ms IH]; intros s; [reflexivity|].
  rewrite links_loop_cons. cbn zeta. cbn [existsb].
  destruct (broken m) eqn:Hm.
  - exists [], m, ms. auto.
  - match goal with |- context [ links_loop ms ?t ] =>
      specialize (IH t); destruct (links_loop ms t) as [[[]|e] s'] end;
      cbn [fst orb] in *; [exact IH|].
    destruct IH as (before & m' & after & -> & Hb & Hm' & ->).
    exists (m :: before), m', after. cbn [existsb]. rewrite Hm, Hb. auto.
Qed.

(** X1.  [check_links] succeeds if and only if none of the files it goes
    through is a symbolic link whose target does not exist; otherwise it
    fails with the error of the first such link. *)
Theorem check_links_iff (fs : list Dir) (s : State) :
  ((check_links fs s).1 = Ok tt <-> existsb broken (gamefixes fs) = false)
  /\ match (check_links fs s).1 with
     | Ok _ => True
     | Raise e =>
         exists before m after,
           gamefixes fs = (before ++ m :: after)%list
           /\ existsb broken before = false
           /\ broken m = true /\ e = BrokenLink m
     end.
Proof.
  unfold check_links. rewrite bind_unfold. cbn [print emit].
  match goal with |- context [ links_loop ?ms ?t ] =>
    pose proof (links_loop_spec ms t) as H;
    destruct (links_loop ms t) as [[[]|e] s'] end; cbn [fst] in *.
  - split; [split; auto | exact I].
  - split; [|exact H].
    destruct H as (before & m & after & -> & _ & Hm & _).
    split; [discriminate|].
    rewrite existsb_app. cbn [existsb]. rewrite Hm, orb_true_r. discriminate.
Qed.

(** ** File errors and requests *)

Lemma check_filenames_offline fs : offline (check_filenames fs).
Proof.
  unfold check_filenames. apply offline_bind; [apply offline_print | intros _].
  apply filenames_loop_offline.
Qed.

Lemma check_gogfixes_raises w url api :
  raises (fun e => is_upstream e \/ is_gog_error e) (check_gogfixes w url api).
Proof.
  assert (Hup : forall A (m : M A), raises is_upstream m ->
                  raises (fun e => is_upstream e \/ is_gog_error e) m).
  { intros A m. apply raises_weaken. auto. }
  unfold check_gogfixes.
  apply raises_bind; [apply Hup, gog_batches_loop_raises | intros X].
  apply raises_bind; [|intros X1].
  { apply Hup. destruct (decide (X ≠ ∅)); [|apply raises_ret].
    apply raises_bind; [apply raises_print | intros _].
    apply gog_steam_loop_raises. }
  apply raises_bind; [|intros X2].
  - apply Hup. destruct (decide (X1 ≠ ∅)); [|apply raises_ret].
    destruct api as [host endpoint].
    apply raises_bind; [apply raises_conn_open | intros _].
    apply raises_bind; [apply raises_emit | intros _].
    apply raises_bind; [apply raises_print | intros _].
    apply raises_bind; [apply gog_umu_loop_raises | intros X'].
    apply raises_bind; [apply raises_conn_close | intros _]. apply raises_ret.
  - apply raises_bind; [apply raises_print | intros _].
    destruct (decide (X2 ≠ ∅)); [|apply raises_ret].
    apply raises_raise. right. exists X2. reflexivity.
Qed.



(** ** The shape of the batches *)

(** X3.  No batch of [_batch_generator] holds more than [size + 1] ids. *)
Theorem batch_generator_bound (files : list string) (n : nat) (b : gset string) :
  b ∈ _batch_generator files n -> (size b <= S n)%nat.
Proof.
  rewrite _batch_generator_eq. apply batch_loop_size; [rewrite size_empty|]; lia.
Qed.

Lemma batch_generator_bound_witness :
  list_to_set (gog_ids fifty_one_files) ∈ _batch_generator fifty_one_files 50
  /\ (size (list_to_set (gog_ids fifty_one_files) : gset string) <= 51)%nat.
Proof.
  assert (H : list_to_set (gog_ids fifty_one_files)
              ∈ _batch_generator fifty_one_files 50)
    by (apply (bool_decide_unpack _); vm_compute; exact I).
  split; [exact H|].
  exact (batch_generator_bound fifty_one_files 50 _ H).
Defined.

Lemma batch_loop_length sz files X count :
  (count <= sz)%nat ->
  length (batch_loop sz files X count)
  = ((count + length (gog_ids files)) / S sz + 1)%nat.
Proof.
  revert X count. induction files as [|f files IH]; intros X count Hc;
    cbn [batch_loop]; rewrite ?gog_ids_cons.
  - cbn [length]. rewrite Nat.add_0_r, Nat.div_small by lia. reflexivity.
  - destruct (Py.startswith "umu-" f); cbn [negb]; [|apply IH; exact Hc].
    cbn zeta. cbn [length].
    destruct (Nat.eqb_spec count sz) as [->|Hne].
    + cbn [length]. rewrite IH by lia. cbn [Nat.add].
      replace (sz + S (length (gog_ids files)))%nat
        with (1 * S sz + length (gog_ids files))%nat by lia.
      rewrite Nat.div_add_l by lia. lia.
    + rewrite IH by lia. f_equal. f_equal. lia.
Qed.

(** X4.  [_batch_generator] yields one batch for every [size + 1] files
    whose name starts with [umu-], and one more: the last batch is yielded
    in any case, and is empty when their number is a multiple of
    [size + 1]. *)
Theorem batch_generator_length (files : list string) (n : nat) :
  length (_batch_generator files n)
  = (length (gog_ids files) / S n + 1)%nat.
Proof.
  rewrite _batch_generator_eq, batch_loop_length by lia. reflexivity.
Qed.

(** ** The candidates of [check_steamfixes] *)

Lemma steam_collect_spec files X a :
  a ∈ steam_collect files X <->
  a ∈ X \/ exists f, f ∈ files
            /\ Py.isnumeric (Py.removesuffix ".py" (name f)) = true
            /\ Py.int (Py.removesuffix ".py" (name f)) = a.
Proof.
  revert X. induction files as [|f files IH]; intros X; cbn [steam_collect].
  - split; [auto|]. intros [H|(f & Hf & _)]; [exact H|].
    apply elem_of_nil in Hf. destruct Hf.
  - destruct (Py.isnumeric (Py.removesuffix ".py" (name f))) eqn:Hnum;
      cbn [negb]; rewrite IH.
    + rewrite elem_of_union, elem_of_singleton. split.
      * intros [[->|H]|(g & Hg & Hn & Hi)]; [right|left|right].
        -- exists f. split; [left|split]; auto.
        -- exact H.
        -- exists g. split; [right|split]; auto.
      * intros [H|(g & Hg & Hn & Hi)]; [left; right; exact H|].
        apply elem_of_cons in Hg as [->|Hg]; [left; left; auto|].
        right. exists g. auto.
    + split.
      * intros [H|(g & Hg & Hn & Hi)]; [left; exact H|].
        right. exists g. split; [right|split]; auto.
      * intros [H|(g & Hg & Hn & Hi)]; [left; exact H|].
        apply elem_of_cons in Hg as [->|Hg]; [congruence|].
        right. exists g. auto.
Qed.

Lemma steam_candidate_of_file (fs : list Dir) (a : Z) :
  (exists f, f ∈ listdir fs "gamefixes-steam"
     /\ Py.isnumeric (Py.removesuffix ".py" (name f)) = true
     /\ Py.int (Py.removesuffix ".py" (name f)) = a) ->
  a ∈ steam_candidates fs.
Proof. intros H. unfold steam_candidates. apply steam_collect_spec. auto. Qed.

(** The collecting loop, from any set it starts with: it prints nothing,
    and it ends with the set it has built or at the first name that is
    numeric and that [int] rejects. *)
Lemma run_steam_collect_spec rt files X s :
  (Run.steam_collect rt files X s).2 = s
  /\ match (Run.steam_collect rt files X s).1 with
     | Ok appids =>
         (forall g, g ∈ files ->
            rt_isnumeric rt (Py.removesuffix ".py" (name g)) = true ->
            is_Some (rt_int rt (Py.removesuffix ".py" (name g))))
         /\ forall a, a ∈ appids <->
              a ∈ X \/ exists f, f ∈ files
                        /\ rt_isnumeric rt (Py.removesuffix ".py" (name f)) = true
                        /\ rt_int rt (Py.removesuffix ".py" (name f)) = Some a
     | Raise e =>
         exists before f after,
           files = (before ++ f :: after)%list
           /\ (forall g, g ∈ before ->
                 rt_isnumeric rt (Py.removesuffix ".py" (name g)) = true ->
                 is_Some (rt_int rt (Py.removesuffix ".py" (name g))))
           /\ rt_isnumeric rt (Py.removesuffix ".py" (name f)) = true
           /\ rt_int rt (Py.removesuffix ".py" (name f)) = None
           /\ e = InvalidLiteral (Py.removesuffix ".py" (name f))
     end.
Proof.
  revert X. induction files as [|f files IH]; intros X; cbn [Run.steam_collect].
  - split; [reflexivity|]. cbn [fst mret M_ret]. split.
    + intros g Hg. apply elem_of_nil in Hg. destruct Hg.
    + intros a. split; [auto|].
      intros [H|(f & Hf & _)]; [exact H|]. apply elem_of_nil in Hf. destruct Hf.
  - cbn zeta.
    destruct (rt_isnumeric rt (Py.removesuffix ".py" (name f))) eqn:Hnum;
      cbn [negb].
    + destruct (rt_int rt (Py.removesuffix ".py" (name f))) as [n|] eqn:Hn.
      * destruct (IH ({[n]} ∪ X)) as [Hs IH']. split; [exact Hs|].
        destruct (Run.steam_collect rt files ({[n]} ∪ X) s) as [[Y|e] s'];
          cbn [fst] in *.
        -- destruct IH' as [Hall IH']. split.
           { intros h [->|Hh]%elem_of_cons Hhn; [rewrite Hn; eauto | auto]. }
           intros a. rewrite IH', elem_of_union, elem_of_singleton. split.
           ++ intros [[->|H]|(g & Hg & Hgn & Hgi)]; [right|left|right].
              ** exists f. split; [left|split]; auto.
              ** exact H.
              ** exists g. split; [right|split]; auto.
           ++ intros [H|(g & Hg & Hgn & Hgi)]; [left; right; exact H|].
              apply elem_of_cons in Hg as [->|Hg].
              ** left. left. congruence.
              ** right. exists g. auto.
        -- destruct IH' as (before & g & after & -> & Hb & Hgn & Hgi & ->).
           exists (f :: before), g, after. split; [reflexivity|].
           split; [|auto].
           intros h [->|Hh]%elem_of_cons Hhn; [rewrite Hn; eauto | auto].
      * split; [reflexivity|]. cbn [fst raise].
        exists [], f, files. split; [reflexivity|]. split; [|auto].
        intros g Hg. apply elem_of_nil in Hg. destruct Hg.
    + destruct (IH X) as [Hs IH']. split; [exact Hs|].
      destruct (Run.steam_collect rt files X s) as [[Y|e] s']; cbn [fst] in *.
      * destruct IH' as [Hall IH']. split.
        { intros h [->|Hh]%elem_of_cons Hhn; [congruence | auto]. }
        intros a. rewrite IH'. split.
        -- intros [H|(g & Hg & Hgn & Hgi)]; [left; exact H|].
           right. exists g. split; [right|split]; auto.
        -- intros [H|(g & Hg & Hgn & Hgi)]; [left; exact H|].
           apply elem_of_cons in Hg as [->|Hg]; [congruence|].
           right. exists g. auto.
      * destruct IH' as (before & g & after & -> & Hb & Hgn & Hgi & ->).
        exists (f :: before), g, after. split; [reflexivity|].
        split; [|auto].
        intros h [->|Hh]%elem_of_cons Hhn; [congruence | auto].
Qed.

(** X5.  The loop of [check_steamfixes] that collects the candidates prints
    nothing and ends in one of two ways.  Either every entry of
    [gamefixes-steam] whose name without a final [.py] is numeric is a
    decimal number, and the loop has built the set of the numbers [int(n)]
    of these names [n], every other entry being skipped; or it raises the
    [ValueError] of [int] for the first entry whose name is numeric and is
    not a decimal number. *)
Theorem steam_candidates_spec (rt : Runtime) (files : list Entry) (s : State) :
  (Run.steam_collect rt files ∅ s).2 = s
  /\ match (Run.steam_collect rt files ∅ s).1 with
     | Ok appids =>
         (forall g, g ∈ files ->
            rt_isnumeric rt (Py.removesuffix ".py" (name g)) = true ->
            is_Some (rt_int rt (Py.removesuffix ".py" (name g))))
         /\ forall a, a ∈ appids <->
              exists f, f ∈ files
                /\ rt_isnumeric rt (Py.removesuffix ".py" (name f)) = true
                /\ rt_int rt (Py.removesuffix ".py" (name f)) = Some a
     | Raise e =>
         exists before f after,
           files = (before ++ f :: after)%list
           /\ (forall g, g ∈ before ->
                 rt_isnumeric rt (Py.removesuffix ".py" (name g)) = true ->
                 is_Some (rt_int rt (Py.removesuffix ".py" (name g))))
           /\ rt_isnumeric rt (Py.removesuffix ".py" (name f)) = true
           /\ rt_int rt (Py.removesuffix ".py" (name f)) = None
           /\ e = InvalidLiteral (Py.removesuffix ".py" (name f))
     end.
Proof.
  destruct (run_steam_collect_spec rt files ∅ s) as [Hs H].
  split; [exact Hs|].
  destruct (Run.steam_collect rt files ∅ s) as [[Y|e] s']; cbn [fst] in *;
    [|exact H].
  destruct H as [Hall H]. split; [exact Hall|].
  intros a. rewrite H. split; [|auto].
  intros [Ha|Ha]; [|exact Ha]. apply not_elem_of_empty in Ha. destruct Ha.
Qed.

(** With an interpreter that knows the Arabic-Indic digits, a file named
    after one makes a candidate; with one for which the superscript two is
    numeric, [int] raises on a file named after it, and the ids collected
    before it are lost with it. *)
Example scenario_other_numerals :
  (Run.steam_collect two_more_numerals
     (listdir arabic_indic_fix "gamefixes-steam") ∅ s0).1
  = Ok ({[ 3; 620 ]} : gset Z)
  /\ (Run.steam_collect two_more_numerals
        (listdir superscript_fix "gamefixes-steam") ∅ s0).1
     = Raise (InvalidLiteral "²").
Proof.
  split.
  - transitivity (Ok ({[620]} ∪ ({[3]} ∪ ∅) : gset Z));
      [vm_compute; reflexivity | f_equal; set_solver].
  - vm_compute. reflexivity.
Qed.

(** ** What is reported is unresolved *)

Section Ensures.
Context {A B : Type}.
Implicit Types (m : M A) (f : A -> M B).

Lemma ensures_ret (Q : A -> Prop) (a : A) : Q a -> ensures Q (mret a).
Proof. intros Ha s a' s' H. injection H as <- _. exact Ha. Qed.

Lemma ensures_raise (Q : A -> Prop) (e : exn) : ensures Q (raise e).
Proof. intros s a s' H. discriminate H. Qed.

Lemma ensures_weaken (Q Q' : A -> Prop) m :
  (forall a, Q a -> Q' a) -> ensures Q m -> ensures Q' m.
Proof. intros HQ Hm s a s' H. apply HQ. exact (Hm _ _ _ H). Qed.

Lemma ensures_bind (Q1 : A -> Prop) (Q : B -> Prop) m f :
  ensures Q1 m -> (forall a, Q1 a -> ensures Q (f a)) -> ensures Q (m ≫= f).
Proof.
  intros Hm Hf s b s' H. rewrite bind_unfold in H.
  destruct (m s) as [[a|e] s1] eqn:E; [|discriminate H].
  exact (Hf a (Hm _ _ _ E) _ _ _ H).
Qed.

Lemma ensures_with_urlopen (Q : A -> Prop) url m :
  ensures Q m -> ensures Q (with_urlopen url m).
Proof.
  intros Hm s a s' H. unfold with_urlopen in H.
  rewrite bind_unfold in H. cbn [emit] in H.
  match type of H with context [ m ?s1 ] => destruct (m s1) as [[a1|e] s2] eqn:E end;
    [|discriminate H].
  injection H as <- _. exact (Hm _ _ _ E).
Qed.

Lemma raises_bind_ensures (P : exn -> Prop) (Q : A -> Prop) m f :
  raises P m -> ensures Q m -> (forall a, Q a -> raises P (f a)) ->
  raises P (m ≫= f).
Proof.
  intros Hr Hm Hf s e s' H. rewrite bind_unfold in H.
  destruct (m s) as [[a|e0] s1] eqn:E.
  - exact (Hf a (Hm _ _ _ E) _ _ _ H).
  - injection H as <- <-. exact (Hr _ _ _ E).
Qed.

End Ensures.

Lemma ensures_any {A} (m : M A) : ensures (fun _ => True) m.
Proof. intros s a s' _. exact I. Qed.

(** The step shared by the removal loops: test, message, removal. *)
Lemma ensures_removal {K} `{Countable K} (msg : message) (c : K) (X : gset K) :
  ensures (fun X1 => forall a, a ∈ X1 -> a ∈ X /\ a ≠ c)
    (if decide (c ∈ X) then print msg;; mret (X ∖ {[ c ]}) else mret X).
Proof.
  destruct (decide (c ∈ X)) as [Hin|Hout].
  - eapply ensures_bind; [apply ensures_any | intros _ _].
    apply ensures_ret. set_solver.
  - apply ensures_ret. set_solver.
Qed.

Lemma steam_catalog_loop_ensures r X :
  ensures (fun X' => forall a, a ∈ X' -> a ∈ X /\ (a ∉ items r))
          (steam_catalog_loop r X).
Proof.
  revert X. induction r as [|b r IH|e]; intros X; cbn [steam_catalog_loop items].
  - apply ensures_ret. set_solver.
  - eapply ensures_bind; [apply ensures_removal | intros X1 H1].
    destruct (decide (X1 = ∅)) as [->|_]; [apply ensures_ret; set_solver|].
    eapply ensures_weaken; [|apply IH].
    intros X' H' a Ha. destruct (H' a Ha) as [Ha1 Hr].
    destruct (H1 a Ha1) as [HaX Hab].
    split; [exact HaX|]. apply not_elem_of_cons. auto.
  - apply ensures_raise.
Qed.

Lemma find_success_ensures key r :
  ensures (fun p => p.1 = existsb (is_success key) (items r)) (find_success key r).
Proof.
  induction r as [|[prefix value] r IH|e]; cbn [find_success items existsb].
  - apply ensures_ret. reflexivity.
  - unfold is_success at 1. cbn [fst snd].
    destruct (String.eqb prefix key && _); [apply ensures_ret; reflexivity|].
    exact IH.
  - apply ensures_raise.
Qed.

Lemma steam_fallback_loop_ensures w host endpoint todo X :
  ensures (fun X' => forall a, a ∈ X' ->
                       a ∈ X /\ (a ∈ todo -> succeeded w a = false))
          (steam_fallback_loop w host endpoint todo X).
Proof.
  revert X. induction todo as [|b todo IH]; intros X; cbn [steam_fallback_loop].
  - apply ensures_ret. intros a Ha. split; [exact Ha|].
    intros H. apply elem_of_nil in H. destruct H.
  - eapply ensures_bind; [apply ensures_any | intros _ _].
    eapply ensures_bind; [apply find_success_ensures | intros [found rest] Hf].
    cbn [fst] in Hf. fold (succeeded w b) in Hf.
    apply ensures_bind with
      (Q1 := fun X1 => forall a, a ∈ X1 ->
                         a ∈ X /\ (a = b -> succeeded w a = false)).
    + destruct found.
      * eapply ensures_bind; [apply ensures_any | intros _ _].
        apply ensures_ret. set_solver.
      * apply ensures_ret. intros a Ha. split; [exact Ha|]. intros ->. auto.
    + intros X1 H1.
      destruct (decide (X1 = ∅)) as [->|_]; [apply ensures_ret; set_solver|].
      eapply ensures_bind; [apply ensures_any | intros _ _].
      eapply ensures_weaken; [|apply IH].
      intros X' H' a Ha. destruct (H' a Ha) as [Ha1 Hr].
      destruct (H1 a Ha1) as [HaX Hab].
      split; [exact HaX|]. intros [->|Hin]%elem_of_cons; auto.
Qed.

Lemma steam_verdict_raises_in todo :
  raises (fun e => exists a, e = InvalidSteamAppId a /\ a ∈ todo
                             /\ (a ∉ whitelist_steam))
         (steam_verdict todo).
Proof.
  induction todo as [|b todo IH]; cbn [steam_verdict].
  - apply raises_ret.
  - destruct (decide (b ∉ whitelist_steam)) as [Hn|_].
    + apply raises_raise. exists b. split; [reflexivity | split; [left | exact Hn]].
    + eapply raises_weaken; [|exact IH].
      intros e (a & -> & Ha & Hn). exists a. split; [reflexivity|].
      split; [right; exact Ha | exact Hn].
Qed.

Lemma check_steamfixes_raises_unresolved w url api :
  raises (fun e => is_upstream e
                   \/ exists a, e = InvalidSteamAppId a
                        /\ a ∈ steam_unresolved w /\ (a ∉ whitelist_steam))
         (check_steamfixes w url api).
Proof.
  assert (Hup : forall A (m : M A), raises is_upstream m ->
    raises (fun e => is_upstream e
                     \/ exists a, e = InvalidSteamAppId a
                          /\ a ∈ steam_unresolved w /\ (a ∉ whitelist_steam)) m).
  { intros A m. apply raises_weaken. auto. }
  unfold check_steamfixes. fold (steam_candidates (fs w)).
  set (C := steam_candidates (fs w)).
  apply raises_bind; [apply raises_print | intros _].
  eapply raises_bind_ensures;
    [ apply Hup, raises_with_urlopen, steam_catalog_loop_raises
    | apply ensures_with_urlopen, steam_catalog_loop_ensures
    | intros X1 H1 ].
  apply raises_bind_ensures with (Q := fun X2 => X2 ⊆ steam_unresolved w).
  - apply Hup. destruct (decide (X1 ≠ ∅)); [|apply raises_ret].
    destruct api as [host endpoint].
    apply raises_bind; [apply raises_conn_open | intros _].
    apply raises_bind; [apply raises_print | intros _].
    apply raises_bind; [apply steam_fallback_loop_raises | intros X'].
    apply raises_bind; [apply raises_conn_close | intros _]. apply raises_ret.
  - destruct (decide (X1 ≠ ∅)) as [_|He].
    + destruct api as [host endpoint].
      eapply ensures_bind; [apply ensures_any | intros _ _].
      eapply ensures_bind; [apply ensures_any | intros _ _].
      eapply ensures_bind; [apply steam_fallback_loop_ensures | intros X2 H2].
      eapply ensures_bind; [apply ensures_any | intros _ _].
      apply ensures_ret. intros a Ha.
      destruct (H2 a Ha) as [Ha1 Hs]. destruct (H1 a Ha1) as [HaC Hcat].
      apply elem_of_filter. split; [split|]; [exact Hcat | | exact HaC].
      apply Hs, elem_of_elements, Ha1.
    + apply dec_stable in He. subst X1. apply ensures_ret. set_solver.
  - intros X2 H2.
    apply raises_bind; [apply raises_print | intros _].
    eapply raises_weaken; [|apply steam_verdict_raises_in].
    intros e (a & -> & Ha & Hn). right. exists a.
    split; [reflexivity|]. split; [|exact Hn].
    apply H2, elem_of_elements, Ha.
Qed.

(** X6.  Whatever the upstream services answer, when [check_steamfixes]
    fails for an invalid app id, the id it names is the number of a file of
    [gamefixes-steam] that the app list does not have, for which the per-id
    query reports no success, and that is not whitelisted. *)
Theorem reported_steam_id_is_unresolved w url api s a :
  (check_steamfixes w url api s).1 = Raise (InvalidSteamAppId a) ->
  a ∈ steam_candidates (fs w)
  /\ (a ∉ items (steam_applist w))
  /\ succeeded w a = false
  /\ (a ∉ whitelist_steam).
Proof.
  intros H. destruct (check_steamfixes w url api s) as [r s'] eqn:E.
  cbn [fst] in H. subst r.
  destruct (check_steamfixes_raises_unresolved w url api _ _ _ E)
    as [[u Hu]|(a' & Ha' & Hin & Hn)]; [discriminate Hu|].
  injection Ha' as ->. apply elem_of_filter in Hin as [[Hcat Hs] HC]. auto.
Qed.

Lemma reported_steam_id_is_unresolved_witness :
  (check_steamfixes one_unknown_each steampowered steamapi s0).1
    = Raise (InvalidSteamAppId 99999999)
  /\ 99999999 ∈ steam_candidates (fs one_unknown_each)
  /\ (99999999 ∉ items (steam_applist one_unknown_each))
  /\ succeeded one_unknown_each 99999999 = false
  /\ (99999999 ∉ whitelist_steam).
Proof.
  assert (E : (check_steamfixes one_unknown_each steampowered steamapi s0).1
              = Raise (InvalidSteamAppId 99999999))
    by (vm_compute; reflexivity).
  split; [exact E|].
  exact (reported_steam_id_is_unresolved _ _ _ _ _ E).
Defined.

Lemma gog_catalog_loop_ensures r X :
  ensures (fun X' => forall a, a ∈ X' -> a ∈ X /\ (a ∉ py_str <$> items r))
          (gog_catalog_loop r X).
Proof.
  revert X. induction r as [|b r IH|e]; intros X;
    cbn [gog_catalog_loop items fmap list_fmap].
  - apply ensures_ret. set_solver.
  - eapply ensures_bind; [apply ensures_removal | intros X1 H1].
    destruct (decide (X1 = ∅)) as [->|_]; [apply ensures_ret; set_solver|].
    eapply ensures_weaken; [|apply IH].
    intros X' H' a Ha. destruct (H' a Ha) as [Ha1 Hr].
    destruct (H1 a Ha1) as [HaX Hab].
    split; [exact HaX|]. apply not_elem_of_cons. auto.
  - apply ensures_raise.
Qed.

Lemma gog_batches_loop_ensures w url bs X :
  ensures (fun X' => forall a, a ∈ X' ->
             (bs = [] /\ a ∈ X)
             \/ exists b, b ∈ bs /\ a ∈ b
                  /\ (a ∉ py_str <$> items (gog_products w b)))
          (gog_batches_loop w url bs X).
Proof.
  revert X. induction bs as [|b bs IH]; intros X; cbn [gog_batches_loop].
  - apply ensures_ret. auto.
  - eapply ensures_bind; [apply ensures_any | intros _ _].
    eapply ensures_bind;
      [apply ensures_with_urlopen, gog_catalog_loop_ensures | intros X1 H1].
    eapply ensures_weaken; [|apply IH].
    intros X' H' a Ha. right.
    destruct (H' a Ha) as [[_ Ha1]|(b' & Hb' & Hab' & Hn)].
    + exists b. destruct (H1 a Ha1). split; [left | split]; assumption.
    + exists b'. split; [right | split]; assumption.
Qed.

Lemma gog_steam_loop_ensures files X :
  ensures (fun X' => forall a, a ∈ X' ->
             a ∈ X /\ (a ∉ (fun f => Py.removesuffix ".py" (name f)) <$> files))
          (gog_steam_loop files X).
Proof.
  revert X. induction files as [|f files IH]; intros X;
    cbn [gog_steam_loop fmap list_fmap].
  - apply ensures_ret. set_solver.
  - eapply ensures_bind; [apply ensures_removal | intros X1 H1].
    destruct (decide (X1 = ∅)) as [->|_]; [apply ensures_ret; set_solver|].
    eapply ensures_weaken; [|apply IH].
    intros X' H' a Ha. destruct (H' a Ha) as [Ha1 Hr].
    destruct (H1 a Ha1) as [HaX Hab].
    split; [exact HaX|]. apply not_elem_of_cons. auto.
Qed.

Lemma gog_umu_loop_ensures r X :
  ensures (fun X' => forall a, a ∈ X' ->
             a ∈ X
             /\ (a ∉ (fun v => Py.removeprefix "umu-" (py_str v)) <$> items r))
          (gog_umu_loop r X).
Proof.
  revert X. induction r as [|b r IH|e]; intros X;
    cbn [gog_umu_loop items fmap list_fmap].
  - apply ensures_ret. set_solver.
  - eapply ensures_bind; [apply ensures_removal | intros X1 H1].
    destruct (decide (X1 = ∅)) as [->|_]; [apply ensures_ret; set_solver|].
    eapply ensures_weaken; [|apply IH].
    intros X' H' a Ha. destruct (H' a Ha) as [Ha1 Hr].
    destruct (H1 a Ha1) as [HaX Hab].
    split; [exact HaX|]. apply not_elem_of_cons. auto.
  - apply ensures_raise.
Qed.

Lemma check_gogfixes_raises_unresolved w url api :
  raises (fun e => is_upstream e
                   \/ exists X, e = InvalidGogAppIds X
                        /\ X ≠ ∅ /\ X ⊆ gog_unresolved w)
         (check_gogfixes w url api).
Proof.
  assert (Hup : forall A (m : M A), raises is_upstream m ->
    raises (fun e => is_upstream e
                     \/ exists X, e = InvalidGogAppIds X
                          /\ X ≠ ∅ /\ X ⊆ gog_unresolved w) m).
  { intros A m. apply raises_weaken. auto. }
  unfold check_gogfixes. fold (gog_files (fs w)).
  set (bs := _batch_generator (gog_files (fs w)) 50).
  eapply raises_bind_ensures;
    [ apply Hup, gog_batches_loop_raises
    | apply gog_batches_loop_ensures
    | intros X1 H1 ].
  apply raises_bind_ensures with
    (Q := fun X2 => forall a, a ∈ X2 -> a ∈ X1 /\ (a ∉ steam_names (fs w))).
  { apply Hup. destruct (decide (X1 ≠ ∅)); [|apply raises_ret].
    apply raises_bind; [apply raises_print | intros _].
    apply gog_steam_loop_raises. }
  { destruct (decide (X1 ≠ ∅)) as [_|He].
    - eapply ensures_bind; [apply ensures_any | intros _ _].
      apply gog_steam_loop_ensures.
    - apply dec_stable in He. subst X1. apply ensures_ret. set_solver. }
  intros X2 H2.
  apply raises_bind_ensures with
    (Q := fun X3 => forall a, a ∈ X3 -> a ∈ X2 /\ (a ∉ umu_ids w)).
  { apply Hup. destruct (decide (X2 ≠ ∅)); [|apply raises_ret].
    destruct api as [host endpoint].
    apply raises_bind; [apply raises_conn_open | intros _].
    apply raises_bind; [apply raises_emit | intros _].
    apply raises_bind; [apply raises_print | intros _].
    apply raises_bind; [apply gog_umu_loop_raises | intros X'].
    apply raises_bind; [apply raises_conn_close | intros _]. apply raises_ret. }
  { destruct (decide (X2 ≠ ∅)) as [_|He].
    - destruct api as [host endpoint].
      eapply ensures_bind; [apply ensures_any | intros _ _].
      eapply ensures_bind; [apply ensures_any | intros _ _].
      eapply ensures_bind; [apply ensures_any | intros _ _].
      eapply ensures_bind; [apply gog_umu_loop_ensures | intros X3 H3].
      eapply ensures_bind; [apply ensures_any | intros _ _].
      apply ensures_ret. exact H3.
    - apply dec_stable in He. subst X2. apply ensures_ret. set_solver. }
  intros X3 H3.
  apply raises_bind; [apply raises_print | intros _].
  destruct (decide (X3 ≠ ∅)) as [Hne|_]; [|apply raises_ret].
  apply raises_raise. right. exists X3. split; [reflexivity|].
  split; [exact Hne|]. intros a Ha.
  destruct (H3 a Ha) as [Ha2 Humu]. destruct (H2 a Ha2) as [Ha1 Hsteam].
  destruct (H1 a Ha1) as [[_ He]|(b & Hb & Hab & Hcat)];
    [apply not_elem_of_empty in He; destruct He|].
  unfold gog_unresolved. fold bs. apply elem_of_union_list.
  exists (gog_unresolved_of w b). split.
  - apply list_elem_of_fmap. exists b. split; [reflexivity | exact Hb].
  - apply elem_of_filter. auto.
Qed.

(** X7.  Whatever the upstream services answer, when [check_gogfixes] fails
    for ids that remain, the set it reports is not empty and every id in it
    is the id of an [umu-] file of [gamefixes-gog] that the catalog answer
    for its batch, the names of [gamefixes-steam] and the umu database all
    lack. *)
Theorem reported_gog_ids_are_unresolved w url api s X :
  (check_gogfixes w url api s).1 = Raise (InvalidGogAppIds X) ->
  X ≠ ∅
  /\ X ⊆ gog_unresolved w
  /\ X ⊆ list_to_set (gog_ids (gog_files (fs w))).
Proof.
  intros H. destruct (check_gogfixes w url api s) as [r s'] eqn:E.
  cbn [fst] in H. subst r.
  destruct (check_gogfixes_raises_unresolved w url api _ _ _ E)
    as [[u Hu]|(X' & HX & Hne & Hsub)]; [discriminate Hu|].
  injection HX as ->. split; [exact Hne | split; [exact Hsub|]].
  intros a Ha. apply Hsub in Ha. unfold gog_unresolved in Ha.
  apply elem_of_union_list in Ha as (U & HU & HaU).
  apply list_elem_of_fmap in HU as (b & -> & Hb).
  apply elem_of_filter in HaU as [_ Hab].
  rewrite _batch_generator_eq in Hb.
  apply batch_loop_subseteq in Hb. set_solver.
Qed.

Lemma reported_gog_ids_are_unresolved_witness :
  (check_gogfixes one_unknown_each gogapi umudb_gog s0).1
    = Raise (InvalidGogAppIds {[ "1" ]})
  /\ ({[ "1" ]} : gset string) ≠ ∅
  /\ {[ "1" ]} ⊆ gog_unresolved one_unknown_each
  /\ {[ "1" ]} ⊆ (list_to_set (gog_ids (gog_files (fs one_unknown_each)))
                  : gset string).
Proof.
  assert (E : (check_gogfixes one_unknown_each gogapi umudb_gog s0).1
              = Raise (InvalidGogAppIds {[ "1" ]}))
    by (vm_compute; reflexivity).
  split; [exact E|].
  exact (reported_gog_ids_are_unresolved _ _ _ _ _ E).
Defined.

(** ** What a run adds to its output *)

Create HintDb silence.

Section Silent.
Variable P : event -> bool.

Lemma silent_ret {A} (a : A) : silent P (mret a).
Proof. intros s r s' H. injection H as _ <-. reflexivity. Qed.

Lemma silent_raise {A} (e : exn) : silent P (@raise A e).
Proof. intros s r s' H. injection H as _ <-. reflexivity. Qed.

Lemma silent_bind {A B} (m : M A) (f : A -> M B) :
  silent P m -> (forall a, silent P (f a)) -> silent P (m ≫= f).
Proof.
  intros Hm Hf s r s' H. rewrite bind_unfold in H.
  destruct (m s) as [[a|e0] s1] eqn:E.
  - rewrite (Hf a _ _ _ H). exact (Hm _ _ _ E).
  - injection H as _ <-. exact (Hm _ _ _ E).
Qed.

Lemma silent_emit (e : event) : P e = false -> silent P (emit e).
Proof.
  intros He s r s' H. injection H as _ <-. cbn [output List.filter].
  rewrite He. reflexivity.
Qed.

Lemma silent_conn_open : silent P conn_open.
Proof. intros s r s' H. injection H as _ <-. reflexivity. Qed.

Lemma silent_conn_close : silent P conn_close.
Proof. intros s r s' H. injection H as _ <-. reflexivity. Qed.

Lemma silent_with_urlopen {A} url (m : M A) :
  P (UrlOpen url) = false -> P UrlClose = false ->
  silent P m -> silent P (with_urlopen url m).
Proof.
  intros Ho Hc Hm s r s' H. unfold with_urlopen in H.
  rewrite bind_unfold in H. cbn [emit] in H.
  match type of H with context [ m ?s1 ] => destruct (m s1) as [r1 s2] eqn:E end.
  apply Hm in E. cbn [output List.filter] in E. rewrite Ho in E.
  destruct r1; injection H as _ <-; cbn [snd output List.filter];
    rewrite Hc; exact E.
Qed.

#[local] Hint Resolve silent_ret silent_raise silent_bind silent_emit
  silent_conn_open silent_conn_close silent_with_urlopen : silence.

Ltac hush :=
  repeat first
    [ progress (intros)
    | solve [auto with silence]
    | match goal with
      | |- _ (if decide ?Q then _ else _) => destruct (decide Q)
      | |- _ (if ?b then _ else _) => destruct b eqn:?
      | |- _ (match ?p with SFail _ => _ | _ => _ end) => destruct p
      | |- _ (match ?p with NetworkError => _ | _ => _ end) => destruct p
      | |- _ (let '(_, _) := ?p in _) => destruct p
      end
    | apply silent_bind
    | apply silent_with_urlopen ].

Hypothesis P_stderr : forall m, P (Stderr m) = false.

Lemma silent_print m : silent P (print m).
Proof. apply silent_emit, P_stderr. Qed.

#[local] Hint Resolve silent_print : silence.

Lemma links_loop_silent ms : silent P (links_loop ms).
Proof. induction ms; cbn [links_loop]; hush. Qed.

Lemma filenames_loop_silent ms : silent P (filenames_loop ms).
Proof. induction ms; cbn [filenames_loop]; hush. Qed.

Lemma steam_catalog_loop_silent r X : silent P (steam_catalog_loop r X).
Proof. revert X; induction r; cbn [steam_catalog_loop]; hush. Qed.

Lemma find_success_silent key r : silent P (find_success key r).
Proof. induction r; cbn [find_success]; hush. Qed.

Lemma read_silent {A} (r : stream A) : silent P (read r).
Proof. induction r; cbn [read]; hush. Qed.

Lemma steam_verdict_silent todo : silent P (steam_verdict todo).
Proof. induction todo; cbn [steam_verdict]; hush. Qed.

Lemma gog_catalog_loop_silent r X : silent P (gog_catalog_loop r X).
Proof. revert X; induction r; cbn [gog_catalog_loop]; hush. Qed.

Lemma gog_steam_loop_silent files X : silent P (gog_steam_loop files X).
Proof. revert X; induction files; cbn [gog_steam_loop]; hush. Qed.

Lemma gog_umu_loop_silent r X : silent P (gog_umu_loop r X).
Proof. revert X; induction r; cbn [gog_umu_loop]; hush. Qed.

#[local] Hint Resolve links_loop_silent filenames_loop_silent
  steam_catalog_loop_silent find_success_silent read_silent
  steam_verdict_silent gog_catalog_loop_silent gog_steam_loop_silent
  gog_umu_loop_silent : silence.

Lemma check_links_silent fs : silent P (check_links fs).
Proof. unfold check_links. hush. Qed.

Lemma check_filenames_silent fs : silent P (check_filenames fs).
Proof. unfold check_filenames. hush. Qed.

Hypothesis P_urlopen : forall url, P (UrlOpen url) = false.
Hypothesis P_urlclose : P UrlClose = false.

Lemma steam_catalog_silent url r X :
  silent P (with_urlopen url (steam_catalog_loop r X)).
Proof. hush. Qed.

Lemma gog_batches_loop_silent w url bs X : silent P (gog_batches_loop w url bs X).
Proof. revert X; induction bs; cbn [gog_batches_loop]; hush. Qed.

Hypothesis P_request : forall host path, P (ConnRequest host path) = false.

Lemma steam_fallback_loop_silent w host endpoint todo X :
  silent P (steam_fallback_loop w host endpoint todo X).
Proof. revert X; induction todo; cbn [steam_fallback_loop]; hush. Qed.

#[local] Hint Resolve check_links_silent check_filenames_silent
  steam_catalog_silent gog_batches_loop_silent steam_fallback_loop_silent
  : silence.

Lemma check_steamfixes_silent w url api : silent P (check_steamfixes w url api).
Proof. unfold check_steamfixes. hush. Qed.

Lemma check_gogfixes_silent w url api : silent P (check_gogfixes w url api).
Proof. unfold check_gogfixes. hush. Qed.

End Silent.

Section Appends.
Context {A B : Type}.

Lemma appends_ret (a : A) : appends (mret a).
Proof. intros s r s' H. injection H as _ <-. exists []. reflexivity. Qed.

Lemma appends_raise (e : exn) : appends (@raise A e).
Proof. intros s r s' H. injection H as _ <-. exists []. reflexivity. Qed.

Lemma appends_bind (m : M A) (f : A -> M B) :
  appends m -> (forall a, appends (f a)) -> appends (m ≫= f).
Proof.
  intros Hm Hf s r s' H. rewrite bind_unfold in H.
  destruct (m s) as [[a|e0] s1] eqn:E.
  - destruct (Hm _ _ _ E) as [l1 H1], (Hf a _ _ _ H) as [l2 H2].
    exists (l2 ++ l1)%list. rewrite H2, H1. apply app_assoc.
  - injection H as _ <-. exact (Hm _ _ _ E).
Qed.

Lemma appends_with_urlopen url (m : M A) : appends m -> appends (with_urlopen url m).
Proof.
  intros Hm s r s' H. unfold with_urlopen in H.
  rewrite bind_unfold in H. cbn [emit] in H.
  match type of H with context [ m ?s1 ] => destruct (m s1) as [r1 s2] eqn:E end.
  destruct (Hm _ _ _ E) as [l Hl]. cbn [output] in Hl.
  exists (UrlClose :: l ++ [UrlOpen url])%list.
  destruct r1; injection H as _ <-; cbn [snd emit output app]; rewrite Hl;
    f_equal; rewrite <- app_assoc; reflexivity.
Qed.

End Appends.

Lemma appends_emit e : appends (emit e).
Proof. intros s r s' H. injection H as _ <-. exists [e]. reflexivity. Qed.
Lemma appends_print m : appends (print m).
Proof. apply appends_emit. Qed.
Lemma appends_conn_open : appends conn_open.
Proof. intros s r s' H. injection H as _ <-. exists []. reflexivity. Qed.
Lemma appends_conn_close : appends conn_close.
Proof. intros s r s' H. injection H as _ <-. exists []. reflexivity. Qed.

Create HintDb growth.
#[local] Hint Resolve appends_ret appends_raise appends_bind appends_with_urlopen
  appends_emit appends_print appends_conn_open appends_conn_close : growth.

Ltac grow :=
  repeat first
    [ progress (intros)
    | solve [auto with growth]
    | match goal with
      | |- _ (if decide ?Q then _ else _) => destruct (decide Q)
      | |- _ (if ?b then _ else _) => destruct b eqn:?
      | |- _ (match ?p with SFail _ => _ | _ => _ end) => destruct p
      | |- _ (match ?p with NetworkError => _ | _ => _ end) => destruct p
      | |- _ (let '(_, _) := ?p in _) => destruct p
      end
    | apply appends_bind
    | apply appends_with_urlopen ].

Lemma links_loop_appends ms : appends (links_loop ms).
Proof. induction ms; cbn [links_loop]; grow. Qed.

Lemma filenames_loop_appends ms : appends (filenames_loop ms).
Proof. induction ms; cbn [filenames_loop]; grow. Qed.

Lemma steam_catalog_loop_appends r X : appends (steam_catalog_loop r X).
Proof. revert X; induction r; cbn [steam_catalog_loop]; grow. Qed.

Lemma find_success_appends key r : appends (find_success key r).
Proof. induction r; cbn [find_success]; grow. Qed.

Lemma read_appends {A} (r : stream A) : appends (read r).
Proof. induction r; cbn [read]; grow. Qed.

#[local] Hint Resolve find_success_appends read_appends : growth.

Lemma steam_fallback_loop_appends w host endpoint todo X :
  appends (steam_fallback_loop w host endpoint todo X).
Proof. revert X; induction todo; cbn [steam_fallback_loop]; grow. Qed.

Lemma steam_verdict_appends todo : appends (steam_verdict todo).
Proof. induction todo; cbn [steam_verdict]; grow. Qed.

Lemma gog_catalog_loop_appends r X : appends (gog_catalog_loop r X).
Proof. revert X; induction r; cbn [gog_catalog_loop]; grow. Qed.

#[local] Hint Resolve gog_catalog_loop_appends : growth.

Lemma gog_batches_loop_appends w url bs X : appends (gog_batches_loop w url bs X).
Proof. revert X; induction bs; cbn [gog_batches_loop]; grow. Qed.

Lemma gog_steam_loop_appends files X : appends (gog_steam_loop files X).
Proof. revert X; induction files; cbn [gog_steam_loop]; grow. Qed.

Lemma gog_umu_loop_appends r X : appends (gog_umu_loop r X).
Proof. revert X; induction r; cbn [gog_umu_loop]; grow. Qed.

#[local] Hint Resolve links_loop_appends filenames_loop_appends
  steam_catalog_loop_appends steam_fallback_loop_appends steam_verdict_appends
  gog_batches_loop_appends gog_steam_loop_appends gog_umu_loop_appends : growth.

Lemma check_links_appends fs : appends (check_links fs).
Proof. unfold check_links. grow. Qed.

Lemma check_filenames_appends fs : appends (check_filenames fs).
Proof. unfold check_filenames. grow. Qed.

Lemma check_steamfixes_appends w url api : appends (check_steamfixes w url api).
Proof. unfold check_steamfixes. grow. Qed.

Lemma check_gogfixes_appends w url api : appends (check_gogfixes w url api).
Proof. unfold check_gogfixes. grow. Qed.

(** What an action adds, when it adds no event of the kind [P]. *)
Lemma appends_silent {A} (P : event -> bool) (m : M A) s r s' :
  appends m -> silent P m -> m s = (r, s') ->
  exists l, output s' = (l ++ output s)%list /\ List.filter P l = [].
Proof.
  intros Ha Hs E. destruct (Ha _ _ _ E) as [l Hl]. exists l.
  split; [exact Hl|]. apply Hs in E. rewrite Hl, List.filter_app in E.
  apply (app_inv_tail (List.filter P (output s)) _ []). exact E.
Qed.

(** X8.  The first thing that a run does is to print the path of the
    project to the standard output; whatever the four checks print after
    that goes to the error stream, however the run ends, so that the path of
    the project is all that the standard output receives. *)
Theorem only_the_project_goes_to_stdout (w : World) (s : State) :
  exists later,
    output (main w s).2 = (later ++ Stdout (project w) :: output s)%list
    /\ List.filter is_stdout later = [].
Proof.
  unfold main. rewrite bind_unfold. cbn [emit].
  match goal with |- context [ (?m ≫= ?f) ?s1 ] =>
    destruct ((m ≫= f) s1) as [r s'] eqn:E;
    apply (appends_silent is_stdout) in E
  end.
  - cbn [snd]. exact E.
  - apply appends_bind; [apply check_links_appends | intros _].
    apply appends_bind; [apply check_filenames_appends | intros _].
    apply appends_bind; [apply check_steamfixes_appends | intros _].
    apply check_gogfixes_appends.
  - apply silent_bind; [apply check_links_silent; reflexivity | intros _].
    apply silent_bind; [apply check_filenames_silent; reflexivity | intros _].
    apply silent_bind; [apply check_steamfixes_silent; reflexivity | intros _].
    apply check_gogfixes_silent; reflexivity.
Qed.

(** ** When the app list knows every id *)

Lemma steam_catalog_loop_all r X :
  starts r = true -> X ⊆ list_to_set (items r) ->
  returns (steam_catalog_loop r X) ∅.
Proof.
  revert X. induction r as [|b r IH|e]; intros X Hs HX; [| |discriminate Hs].
  - cbn. replace X with (∅ : gset Z) by set_solver. apply returns_ret.
  - cbn [steam_catalog_loop]. cbn [items list_to_set] in HX.
    assert (Hnext : forall X1 : gset Z,
      X1 ⊆ list_to_set (items r) ->
      returns (if decide (X1 = ∅) then mret X1
               else steam_catalog_loop r X1) ∅).
    { intros X1 H1. destruct (decide (X1 = ∅)) as [->|Hne]; [apply returns_ret|].
      apply IH; [|exact H1]. destruct r; [reflexivity | reflexivity |].
      cbn in H1. destruct Hne. set_solver. }
    destruct (decide (b ∈ X)).
    + eapply returns_bind;
        [eapply returns_bind; [apply returns_print | apply returns_ret]|].
      apply Hnext. set_solver.
    + eapply returns_bind; [apply returns_ret|]. apply Hnext. set_solver.
Qed.



(** ** File names and the ids they stand for *)

Lemma app_String (c : ascii) (a b : string) : String c a ++ b = String c (a ++ b).
Proof. reflexivity. Qed.

Lemma app_empty (b : string) : "" ++ b = b.
Proof. reflexivity. Qed.

Lemma string_length_app (a b : string) :
  String.length (a ++ b) = (String.length a + String.length b)%nat.
Proof.
  induction a as [|c a IH]; [reflexivity|].
  rewrite app_String. cbn [String.length Nat.add]. rewrite IH. reflexivity.
Qed.

Lemma substring_all (s : string) : String.substring 0 (String.length s) s = s.
Proof. induction s as [|c s IH]; cbn; [reflexivity | rewrite IH; reflexivity]. Qed.

Lemma substring_app_l (a b : string) :
  String.substring 0 (String.length a) (a ++ b) = a.
Proof.
  induction a as [|c a IH].
  - rewrite app_empty. destruct b; reflexivity.
  - rewrite app_String. cbn. rewrite IH. reflexivity.
Qed.

Lemma substring_app_r (a b : string) :
  String.substring (String.length a) (String.length b) (a ++ b) = b.
Proof.
  induction a as [|c a IH].
  - rewrite app_empty. apply substring_all.
  - rewrite app_String. cbn. exact IH.
Qed.

Lemma substring_split (k : nat) (s : string) :
  (k <= String.length s)%nat ->
  s = String.substring 0 k s ++ String.substring k (String.length s - k) s.
Proof.
  revert k. induction s as [|c s IH]; intros k Hk; cbn in Hk.
  - destruct k; [reflexivity | lia].
  - destruct k as [|k].
    + cbn. rewrite substring_all. reflexivity.
    + cbn. rewrite app_String. f_equal. apply IH. lia.
Qed.

Lemma prefix_app (p s : string) : String.prefix p (p ++ s) = true.
Proof.
  induction p as [|c p IH]; [rewrite app_empty; destruct s; reflexivity|].
  rewrite app_String. cbn.
  destruct (ascii_dec c c); [exact IH | congruence].
Qed.

Lemma startswith_app (p s : string) : Py.startswith p (p ++ s) = true.
Proof. apply prefix_app. Qed.

Lemma removeprefix_app (p s : string) : Py.removeprefix p (p ++ s) = s.
Proof.
  unfold Py.removeprefix. rewrite startswith_app, string_length_app.
  replace (String.length p + String.length s - String.length p)%nat
    with (String.length s) by lia.
  apply substring_app_r.
Qed.

Lemma endswith_app (x p : string) : Py.endswith p (x ++ p) = true.
Proof.
  unfold Py.endswith. rewrite string_length_app.
  replace (String.length x + String.length p - String.length p)%nat
    with (String.length x) by lia.
  rewrite substring_app_r, String.eqb_refl.
  destruct (Nat.leb_spec (String.length p) (String.length x + String.length p));
    [reflexivity | lia].
Qed.

Lemma removesuffix_app (x p : string) :
  p ≠ "" -> Py.removesuffix p (x ++ p) = x.
Proof.
  intros Hp. unfold Py.removesuffix. rewrite endswith_app.
  apply String.eqb_neq in Hp. rewrite Hp. cbn [negb andb].
  rewrite string_length_app.
  replace (String.length x + String.length p - String.length p)%nat
    with (String.length x) by lia.
  apply substring_app_l.
Qed.

(** A name that ends with [p] is some [x] followed by [p]. *)
Lemma endswith_inv (p s : string) :
  Py.endswith p s = true -> exists x, s = x ++ p.
Proof.
  unfold Py.endswith. intros H. apply andb_true_iff in H as [Hlen Heq].
  apply Nat.leb_le in Hlen. apply String.eqb_eq in Heq.
  exists (String.substring 0 (String.length s - String.length p) s).
  assert (Hs := substring_split (String.length s - String.length p) s
                  (Nat.le_sub_l _ _)).
  replace (String.length s - (String.length s - String.length p))%nat
    with (String.length p) in Hs by lia.
  rewrite Heq in Hs. exact Hs.
Qed.

Lemma rfind_dot_py (x : string) (i : nat) (last : option nat) :
  Py.rfind_dot (x ++ ".py") i last = Some (i + String.length x)%nat.
Proof.
  revert i last. induction x as [|c x IH]; intros i last.
  - rewrite app_empty. cbn. f_equal. lia.
  - rewrite app_String. cbn [Py.rfind_dot String.length]. rewrite IH.
    f_equal. lia.
Qed.

Lemma stem_py (x : string) :
  Py.stem (x ++ ".py") = if String.eqb x "" then ".py" else x.
Proof.
  unfold Py.stem. rewrite rfind_dot_py, string_length_app. cbn [Nat.add].
  destruct x as [|c x]; [reflexivity|].
  cbn [String.eqb String.length].
  repeat match goal with
  | |- context [ (?a <? ?b)%nat ] =>
      destruct (Nat.ltb_spec a b); [|cbn in *; lia]
  end.
  cbn [andb]. exact (substring_app_l (String c x) ".py").
Qed.

(** X10.  For a name ending in [.py], [check_filenames] and
    [check_steamfixes] agree on what is numeric: the stem that the first
    tests is numeric exactly when the name without its final [.py], which
    the second converts, is numeric, and then the two are the same string. *)
Theorem stem_agrees_with_removesuffix (n : string) :
  Py.endswith ".py" n = true ->
  Py.isnumeric (Py.stem n) = Py.isnumeric (Py.removesuffix ".py" n)
  /\ (Py.isnumeric (Py.stem n) = true -> Py.stem n = Py.removesuffix ".py" n).
Proof.
  intros [x ->]%endswith_inv.
  rewrite stem_py, removesuffix_app by discriminate.
  destruct x as [|c x]; cbn [String.eqb]; split; auto.
  intros H. discriminate H.
Qed.

Lemma stem_agrees_with_removesuffix_witness :
  Py.endswith ".py" "0620.py" = true
  /\ Py.isnumeric (Py.stem "0620.py")
     = Py.isnumeric (Py.removesuffix ".py" "0620.py")
  /\ (Py.isnumeric (Py.stem "0620.py") = true ->
      Py.stem "0620.py" = Py.removesuffix ".py" "0620.py").
Proof.
  split; [reflexivity|].
  apply (stem_agrees_with_removesuffix "0620.py"). reflexivity.
Defined.

Lemma app_assoc_string (a b c : string) : (a ++ b) ++ c = a ++ (b ++ c).
Proof.
  induction a as [|x a IH]; [reflexivity|].
  rewrite !app_String, IH. reflexivity.
Qed.

Lemma listdir_of_member (fs : list Dir) (d : Dir) :
  NoDup (dir_name <$> fs) -> d ∈ fs -> listdir fs (dir_name d) = entries d.
Proof.
  unfold listdir. induction fs as [|d0 fs IH]; intros Hnd Hd.
  - apply elem_of_nil in Hd. destruct Hd.
  - cbn [fmap list_fmap] in Hnd. apply NoDup_cons in Hnd as [Hd0 Hnd].
    cbn [List.find].
    destruct (String.eqb_spec (dir_name d0) (dir_name d)) as [Heq|Hne].
    + apply elem_of_cons in Hd as [->|Hd]; [reflexivity|].
      destruct Hd0. rewrite Heq. apply list_elem_of_fmap.
      exists d. split; [reflexivity | exact Hd].
    + apply elem_of_cons in Hd as [->|Hd]; [congruence|].
      apply IH; assumption.
Qed.

Lemma gamefixes_member (fs : list Dir) (m : Path) :
  m ∈ gamefixes fs ->
  exists d, d ∈ fs /\ parent m = dir_name d /\ file m ∈ entries d
            /\ Py.endswith ".py" (name (file m)) = true
            /\ ignored (name (file m)) = false.
Proof.
  unfold gamefixes, glob_gamefixes. intros H.
  apply list_elem_of_In, filter_In in H as [H Hign].
  apply list_elem_of_In, list_elem_of_bind in H as (d & H & Hd).
  apply list_elem_of_bind in H as (e & H & He).
  apply list_elem_of_singleton in H. subst m. cbn [parent file] in *.
  apply list_elem_of_In, filter_In in Hd as [Hd _].
  apply list_elem_of_In, filter_In in He as [He Hpy].
  exists d. repeat split; try (apply list_elem_of_In; assumption); auto.
  apply negb_true_iff in Hign. exact Hign.
Qed.

Lemma reference_on_ascii : python_on_ascii reference.
Proof. intros s _. split; reflexivity. Qed.

Lemma two_more_numerals_on_ascii : python_on_ascii two_more_numerals.
Proof.
  intros s Hs. cbn [two_more_numerals rt_isnumeric rt_int].
  assert (H2 : String.eqb s "²" = false).
  { apply String.eqb_neq. intros ->. vm_compute in Hs. discriminate Hs. }
  assert (H3 : String.eqb s "٣" = false).
  { apply String.eqb_neq. intros ->. vm_compute in Hs. discriminate Hs. }
  rewrite H2, H3, !orb_false_r. split; [reflexivity|]. intros ->. reflexivity.
Qed.

(** X11.  Every file of [gamefixes-steam] that [check_filenames] goes
    through and accepts is validated by [check_steamfixes]: when the loop
    that collects the candidates ends, the number that the file is named
    after is one of them; it ends unless [int] raises its [ValueError] on a
    name that is numeric and is not a decimal number. *)
Theorem accepted_steam_fix_is_candidate (rt : Runtime) (fs : list Dir)
    (m : Path) (s : State) :
  python_on_ascii rt ->
  NoDup (dir_name <$> fs) ->
  m ∈ gamefixes fs -> parent m = "gamefixes-steam" -> name_ok_for rt m = true ->
  match (Run.steam_collect rt (listdir fs "gamefixes-steam") ∅ s).1 with
  | Ok appids =>
      exists a, rt_int rt (Py.stem (name (file m))) = Some a /\ a ∈ appids
  | Raise e =>
      exists n, e = InvalidLiteral n
        /\ rt_isnumeric rt n = true /\ rt_int rt n = None
  end.
Proof.
  intros Hrt Hnd Hm Hp Hok.
  destruct (gamefixes_member fs m Hm) as (d & Hd & Hpd & He & Hpy & _).
  rewrite Hp in Hpd. rewrite Hpd, (listdir_of_member fs d Hnd Hd).
  unfold name_ok_for, is_steam in Hok. rewrite Hp in Hok.
  apply andb_true_iff in Hok as [_ Hnum]. cbn in Hnum.
  apply endswith_inv in Hpy as [x Hx]. rewrite Hx in *.
  rewrite stem_py in *.
  assert (Hx0 : String.eqb x "" = false).
  { destruct (String.eqb x ""); [|reflexivity].
    destruct (Hrt ".py" eq_refl) as [E _]. rewrite Hnum in E. discriminate E. }
  rewrite Hx0 in *.
  assert (Hstrip : Py.removesuffix ".py" (name (file m)) = x)
    by (rewrite Hx; apply removesuffix_app; discriminate).
  pose proof (run_steam_collect_spec rt (entries d) ∅ s) as [_ H].
  destruct (Run.steam_collect rt (entries d) ∅ s) as [[Y|e] s']; cbn [fst] in *.
  - destruct H as [Hall H].
    specialize (Hall (file m) He). rewrite Hstrip in Hall.
    destruct (Hall Hnum) as [a Ha].
    exists a. split; [exact Ha|]. apply H. right. exists (file m).
    rewrite Hstrip. auto.
  - destruct H as (before & f & after & _ & _ & Hfn & Hfi & ->).
    eexists. split; [reflexivity | split; assumption].
Qed.

Lemma accepted_steam_fix_is_candidate_witness :
  let m := {| parent := "gamefixes-steam"; file := regular "٣.py" |} in
  python_on_ascii two_more_numerals
  /\ m ∈ gamefixes arabic_indic_fix
  /\ name_ok_for two_more_numerals m = true
  /\ match (Run.steam_collect two_more_numerals
              (listdir arabic_indic_fix "gamefixes-steam") ∅ s0).1 with
     | Ok appids =>
         exists a, rt_int two_more_numerals (Py.stem (name (file m))) = Some a
                   /\ a ∈ appids
     | Raise e =>
         exists n, e = InvalidLiteral n
           /\ rt_isnumeric two_more_numerals n = true
           /\ rt_int two_more_numerals n = None
     end.
Proof.
  cbn zeta.
  assert (Hm : {| parent := "gamefixes-steam"; file := regular "٣.py" |}
               ∈ gamefixes arabic_indic_fix)
    by (apply list_elem_of_In; vm_compute; auto).
  split; [exact two_more_numerals_on_ascii|].
  split; [exact Hm | split; [reflexivity|]].
  apply (accepted_steam_fix_is_candidate two_more_numerals arabic_indic_fix);
    [ exact two_more_numerals_on_ascii
    | apply (bool_decide_unpack _); vm_compute; exact I
    | exact Hm | reflexivity | reflexivity ].
Defined.

(** *** From an id to a file name and back *)

Lemma gog_id_of_umu_file (x : string) : gog_id ("umu-" ++ x ++ ".py") = x.
Proof.
  unfold gog_id. rewrite removeprefix_app. apply removesuffix_app. discriminate.
Qed.

Lemma gog_ids_member (files : list string) (f : string) :
  f ∈ files -> Py.startswith "umu-" f = true -> gog_id f ∈ gog_ids files.
Proof.
  intros Hf Hs. unfold gog_ids. apply list_elem_of_fmap. exists f.
  split; [reflexivity|]. apply list_elem_of_In, filter_In.
  split; [apply list_elem_of_In; exact Hf | exact Hs].
Qed.

(** X12.  The file name [umu-<id>.py] stands for [id], whatever the id is:
    [check_links] and [check_filenames] go through such a file, it satisfies
    the naming rule of every directory that is not a Steam directory, and
    [_batch_generator] yields its id in one of the batches. *)
Theorem umu_file_round_trip (x : string) :
  let f := "umu-" ++ x ++ ".py" in
  gog_id f = x
  /\ Py.endswith ".py" f = true
  /\ ignored f = false
  /\ (forall d e, Py.startswith "gamefixes-steam" d = false ->
        name_ok {| parent := d;
                   file := {| name := f; is_symlink := e; exists_ := true |} |}
        = true)
  /\ (forall files n, f ∈ files ->
        exists b, b ∈ _batch_generator files n /\ x ∈ b).
Proof.
  cbn zeta. split; [apply gog_id_of_umu_file|]. split; [|split; [|split]].
  - rewrite <- app_assoc_string. apply endswith_app.
  - reflexivity.
  - intros d e Hd. unfold name_ok, is_steam. cbn [parent file name exists_].
    rewrite Hd, startswith_app. reflexivity.
  - intros files n Hf.
    assert (Hx : x ∈ ⋃ _batch_generator files n).
    { rewrite _batch_generator_eq, batch_loop_union.
      apply elem_of_union_r, elem_of_list_to_set.
      rewrite <- (gog_id_of_umu_file x) at 1.
      apply gog_ids_member; [exact Hf | apply startswith_app]. }
    apply elem_of_union_list in Hx as (b & Hb & Hxb). exists b. auto.
Qed.

Lemma umu_file_round_trip_witness :
  let f := "umu-" ++ "1207658691" ++ ".py" in
  name_ok {| parent := "gamefixes-gog";
             file := {| name := f; is_symlink := false; exists_ := true |} |}
  = true
  /\ exists b, b ∈ _batch_generator ["default.py"; f] 50 /\ "1207658691" ∈ b.
Proof.
  cbn zeta.
  destruct (umu_file_round_trip "1207658691") as (_ & _ & _ & Hname & Hbatch).
  split.
  - apply Hname. reflexivity.
  - apply Hbatch. right. left.
Defined.

Lemma all_digits_uint (d : Decimal.uint) :
  Py.all_digits (NilEmpty.string_of_uint d) = true.
Proof. induction d; cbn; auto. Qed.

Lemma int_acc_uint_pos (d : Decimal.uint) (p : positive) :
  Py.int_acc (Zpos p) (NilEmpty.string_of_uint d) = Zpos (Pos.of_uint_acc d p).
Proof.
  revert p. induction d as [|d IH|d IH|d IH|d IH|d IH|d IH|d IH|d IH|d IH|d IH];
    intros p; [reflexivity|..];
    cbn [NilEmpty.string_of_uint Py.int_acc Pos.of_uint_acc];
    rewrite <- IH; f_equal;
    match goal with
    | |- context [ Z.of_nat (nat_of_ascii ?c) ] =>
        let v := eval vm_compute in (Z.of_nat (nat_of_ascii c)) in
        change (Z.of_nat (nat_of_ascii c)) with v
    end; lia.
Qed.

Lemma int_acc_uint (d : Decimal.uint) :
  Py.int_acc 0 (NilEmpty.string_of_uint d) = Z.of_N (Pos.of_uint d).
Proof.
  induction d as [|d IH|d IH|d IH|d IH|d IH|d IH|d IH|d IH|d IH|d IH];
    [reflexivity | exact IH |..];
    cbn [NilEmpty.string_of_uint Py.int_acc Pos.of_uint Z.of_N];
    rewrite <- int_acc_uint_pos; reflexivity.
Qed.

(** [str] of a natural number is a non-empty string of digits that [int]
    converts back. *)
Lemma str_int_digits (n : Z) :
  0 <= n ->
  exists c r, Py.str_int n = String c r
    /\ Py.is_digit c = true
    /\ Py.all_digits (Py.str_int n) = true
    /\ Py.int (Py.str_int n) = n.
Proof.
  intros Hn. destruct n as [|p|p]; [| |lia].
  - exists "0"%char, "". repeat split.
  - unfold Py.str_int, Py.int. cbn [Z.to_int NilZero.string_of_int].
    pose proof (DecimalPos.Unsigned.to_uint_nonnil p) as Hnil.
    pose proof (DecimalPos.Unsigned.of_to p) as Hof.
    destruct (Pos.to_uint p) as [|d|d|d|d|d|d|d|d|d|d] eqn:E; [congruence|..];
      cbn [NilZero.string_of_uint];
      (eexists _, _; split; [reflexivity|]; split; [reflexivity|]; split;
       [apply all_digits_uint | rewrite int_acc_uint, Hof; reflexivity]).
Qed.

Lemma digit_not_ignored (c : ascii) (r : string) :
  Py.is_digit c = true -> ignored (String c r) = false.
Proof.
  intros Hc. unfold ignored, Py.startswith. cbn [String.prefix].
  repeat match goal with
  | |- context [ ascii_dec ?a c ] =>
      destruct (ascii_dec a c) as [<-|_]; [discriminate Hc|]
  end.
  reflexivity.
Qed.



(** ** How many requests a run makes *)

Lemma steam_fallback_loop_requests w host endpoint todo X s :
  (forall a, clean (steam_appdetails w a) = true) ->
  NoDup todo -> (forall a, a ∈ todo -> a ∈ X) ->
  List.filter is_conn_request
    (output (steam_fallback_loop w host endpoint todo X s).2)
  = (rev (per_id_request host endpoint <$> todo)
     ++ List.filter is_conn_request (output s))%list.
Proof.
  intros Hw. revert X s. induction todo as [|b todo IH]; intros X s Hnd HX.
  - reflexivity.
  - apply NoDup_cons in Hnd as [Hb Hnd].
    cbn [steam_fallback_loop fmap list_fmap rev]. rewrite bind_unfold.
    cbn [emit].
    match goal with |- context [ (?m ≫= ?f) ?s1 ] =>
      set (t := s1); rewrite (bind_unfold m f t)
    end.
    assert (Ht : List.filter is_conn_request (output t)
                 = per_id_request host endpoint b
                   :: List.filter is_conn_request (output s)) by reflexivity.
    destruct (find_success_returns (Py.str_int b ++ ".success") _ (Hw b))
      as (rest & Hrest & Hfind).
    destruct (Hfind t) as (t1 & E1 & _). rewrite E1.
    assert (H1 : List.filter is_conn_request (output t1)
                 = List.filter is_conn_request (output t)).
    { exact (find_success_silent is_conn_request _ _ _ _ _ E1). }
    assert (Hnext : forall (X1 : gset Z) (t2 : State),
      (forall a, a ∈ todo -> a ∈ X1) ->
      List.filter is_conn_request (output t2)
      = List.filter is_conn_request (output t1) ->
      List.filter is_conn_request
        (output ((if decide (X1 = ∅) then mret X1
                  else read rest;; steam_fallback_loop w host endpoint todo X1)
                   t2).2)
      = ((rev (per_id_request host endpoint <$> todo)
          ++ [per_id_request host endpoint b])
         ++ List.filter is_conn_request (output s))%list).
    { intros X1 t2 H1' Ht2. rewrite <- app_assoc. cbn [app].
      destruct (decide (X1 = ∅)) as [->|Hne].
      - destruct todo as [|a todo'].
        + cbn [mret M_ret snd fmap list_fmap rev app]. congruence.
        + exfalso. apply (not_elem_of_empty (C:=gset Z) a), H1'. left.
      - rewrite bind_unfold.
        destruct (read_returns rest Hrest t2) as (t3 & E3 & _). rewrite E3.
        rewrite IH; [|exact Hnd|exact H1'].
        rewrite (read_silent is_conn_request _ _ _ _ E3). congruence. }
    destruct (existsb _ _).
    + rewrite bind_unfold. cbn [print emit]. rewrite !bind_unfold.
      cbn [mret M_ret]. apply Hnext; [|reflexivity].
      intros a Ha. apply elem_of_difference. split; [apply HX; right; exact Ha|].
      intros ->%elem_of_singleton. exact (Hb Ha).
    + rewrite bind_unfold. cbn [mret M_ret]. apply Hnext; [|reflexivity].
      intros a Ha. apply HX. right. exact Ha.
Qed.



Lemma with_urlopen_opened {A} url (m : M A) s :
  silent is_urlopen m -> opened (with_urlopen url m s).2 = S (opened s).
Proof.
  intros Hm. unfold with_urlopen. rewrite bind_unfold. cbn [emit].
  match goal with |- context [ m ?s1 ] =>
    destruct (m s1) as [r s2] eqn:E; apply Hm in E
  end.
  destruct r; cbn [snd emit]; unfold opened;
    cbn [output List.filter is_urlopen] in *; rewrite E; reflexivity.
Qed.

Lemma gog_batches_loop_opened w url bs X s :
  (opened (gog_batches_loop w url bs X s).2 <= opened s + length bs)%nat
  /\ (forall X', (gog_batches_loop w url bs X s).1 = Ok X' ->
        opened (gog_batches_loop w url bs X s).2 = (opened s + length bs)%nat).
Proof.
  revert X s. induction bs as [|b bs IH]; intros X s.
  - cbn. split; [lia | intros; lia].
  - cbn [gog_batches_loop length]. rewrite bind_unfold. cbn [print emit].
    match goal with |- context [ (with_urlopen ?u ?m ≫= ?f) ?t ] =>
      rewrite (bind_unfold (with_urlopen u m) f t);
      pose proof (with_urlopen_opened u m t
                    (gog_catalog_loop_silent is_urlopen
                       (fun _ => eq_refl) _ _)) as H1;
      destruct (with_urlopen u m t) as [[X1|e] s1]
    end; cbn [snd fst] in *;
      change (opened s1 = S (opened s)) in H1.
    + destruct (IH X1 s1) as [Hle Heq]. split; [lia|].
      intros X' HX'. rewrite (Heq X' HX'). lia.
    + split; [lia | discriminate].
Qed.

(** X15.  [check_gogfixes] asks the catalog at most once per batch, and
    exactly once per batch unless it ends with an exception of a request or
    of a parser; a batch that is empty is asked for as well. *)
Theorem one_catalog_request_per_batch w url api s :
  let run := check_gogfixes w url api s in
  let n := length (_batch_generator (gog_files (fs w)) 50) in
  (opened run.2 <= opened s + n)%nat
  /\ (~ failed_upstream run.1 -> opened run.2 = (opened s + n)%nat).
Proof.
  cbn zeta. unfold check_gogfixes. fold (gog_files (fs w)).
  set (bs := _batch_generator (gog_files (fs w)) 50).
  assert (Hst : forall m, is_urlopen (Stderr m) = false) by reflexivity.
  assert (Hrest : forall X1 : gset string, silent is_urlopen
    (appids ← (if decide (X1 ≠ ∅) then
                 print ValidatingGogSteam;;
                 gog_steam_loop (listdir (fs w) "gamefixes-steam") X1
               else mret X1);
     appids0 ← (if decide (appids ≠ ∅) then
                  let '(host, endpoint) := api in
                  conn_open;; emit (ConnRequest host endpoint);;
                  print (ValidatingGog host);;
                  appids0 ← gog_umu_loop (umu_database w) appids;
                  conn_close;; mret appids0
                else mret appids);
     print (RemainingGog appids0);;
     (if decide (appids0 ≠ ∅) then raise (InvalidGogAppIds appids0)
      else mret tt))).
  { intros X1. apply silent_bind; [|intros X2].
    { destruct (decide (X1 ≠ ∅)); [|apply silent_ret].
      apply silent_bind; [apply silent_print, Hst | intros _].
      apply gog_steam_loop_silent, Hst. }
    apply silent_bind; [|intros X3].
    { destruct (decide (X2 ≠ ∅)); [|apply silent_ret].
      destruct api as [host endpoint].
      apply silent_bind; [apply silent_conn_open | intros _].
      apply silent_bind; [apply silent_emit; reflexivity | intros _].
      apply silent_bind; [apply silent_print, Hst | intros _].
      apply silent_bind; [apply gog_umu_loop_silent, Hst | intros X'].
      apply silent_bind; [apply silent_conn_close | intros _].
      apply silent_ret. }
    apply silent_bind; [apply silent_print, Hst | intros _].
    destruct (decide (X3 ≠ ∅)); [apply silent_raise | apply silent_ret]. }
  match goal with |- context [ (?m ≫= ?f) s ] => set (k := f) in * end.
  rewrite bind_unfold.
  destruct (gog_batches_loop_opened w url bs ∅ s) as [Hle Heq].
  pose proof (gog_batches_loop_raises w url bs ∅ s) as Hup.
  destruct (gog_batches_loop w url bs ∅ s) as [[X1|e] s1]; cbn [fst snd] in *.
  - specialize (Heq X1 eq_refl).
    destruct (k X1 s1) as [r s2] eqn:E.
    apply (Hrest X1) in E. cbn [snd]. unfold opened in *. rewrite E.
    split; [lia | intros _; exact Heq].
  - split; [exact Hle|]. intros Hnot. destruct Hnot.
    destruct (Hup e s1 eq_refl) as [u ->]. exists u. reflexivity.
Qed.

Lemma one_catalog_request_per_batch_witness :
  length (_batch_generator (gog_files (fs fifty_one_unknown)) 50) = 2%nat
  /\ opened (check_gogfixes fifty_one_unknown gogapi umudb_gog s0).2
     = (opened s0 + 2)%nat.
Proof.
  split; [vm_compute; reflexivity|].
  apply (one_catalog_request_per_batch fifty_one_unknown gogapi umudb_gog s0).
  intros [u Hu]. vm_compute in Hu. discriminate Hu.
Defined.

(** ** Responses are closed *)

Lemma closed_in_turn_app l1 l2 :
  closed_in_turn l1 = true -> closed_in_turn l2 = true ->
  closed_in_turn (l1 ++ l2) = true.
Proof.
  revert l1. fix IH 1. intros [|e1 [|e2 l1]] H1 H2; cbn in *;
    [exact H2 | destruct e1; discriminate H1 |].
  destruct e1; try discriminate H1. destruct e2; try discriminate H1.
  apply IH; assumption.
Qed.

Lemma silent_closes_responses {A} (m : M A) :
  silent is_url m -> closes_responses m.
Proof. intros Hm s r s' E. exists []. split; [reflexivity | exact (Hm _ _ _ E)]. Qed.

Lemma closes_responses_bind {A B} (m : M A) (f : A -> M B) :
  closes_responses m -> (forall a, closes_responses (f a)) ->
  closes_responses (m ≫= f).
Proof.
  intros Hm Hf s r s' H. rewrite bind_unfold in H.
  destruct (m s) as [[a|e] s1] eqn:E.
  - destruct (Hm _ _ _ E) as (l1 & C1 & E1).
    destruct (Hf a _ _ _ H) as (l2 & C2 & E2).
    exists (l2 ++ l1)%list. split; [apply closed_in_turn_app; assumption|].
    rewrite E2, E1, app_assoc. reflexivity.
  - injection H as <- <-. exact (Hm _ _ _ E).
Qed.

Lemma closes_responses_with_urlopen {A} url (m : M A) :
  silent is_url m -> closes_responses (with_urlopen url m).
Proof.
  intros Hm s r s' H. unfold with_urlopen in H.
  rewrite bind_unfold in H. cbn [emit] in H.
  match type of H with context [ m ?s1 ] => destruct (m s1) as [r1 s2] eqn:E end.
  apply Hm in E. cbn [output List.filter is_url] in E.
  exists [UrlClose; UrlOpen url]. split; [reflexivity|].
  destruct r1; injection H as _ <-; cbn [snd emit output List.filter is_url];
    rewrite E; reflexivity.
Qed.

Lemma gog_batches_loop_closes_responses w url bs X :
  closes_responses (gog_batches_loop w url bs X).
Proof.
  revert X. induction bs as [|b bs IH]; intros X; cbn [gog_batches_loop].
  - apply silent_closes_responses, silent_ret.
  - apply closes_responses_bind;
      [apply silent_closes_responses, silent_print; reflexivity | intros _].
    apply closes_responses_bind; [|intros X1; apply IH].
    apply closes_responses_with_urlopen, gog_catalog_loop_silent. reflexivity.
Qed.

Lemma check_steamfixes_closes_responses w url api :
  closes_responses (check_steamfixes w url api).
Proof.
  assert (Hst : forall m, is_url (Stderr m) = false) by reflexivity.
  unfold check_steamfixes.
  apply closes_responses_bind;
    [apply silent_closes_responses, silent_print, Hst | intros _].
  apply closes_responses_bind;
    [apply closes_responses_with_urlopen, steam_catalog_loop_silent, Hst
    | intros X].
  apply silent_closes_responses.
  apply silent_bind; [|intros X'].
  - destruct (decide (X ≠ ∅)); [|apply silent_ret].
    destruct api as [host endpoint].
    apply silent_bind; [apply silent_conn_open | intros _].
    apply silent_bind; [apply silent_print, Hst | intros _].
    apply silent_bind;
      [apply steam_fallback_loop_silent; [exact Hst | reflexivity] | intros X'].
    apply silent_bind; [apply silent_conn_close | intros _]. apply silent_ret.
  - apply silent_bind; [apply silent_print, Hst | intros _].
    apply steam_verdict_silent.
Qed.

Lemma check_gogfixes_closes_responses w url api :
  closes_responses (check_gogfixes w url api).
Proof.
  assert (Hst : forall m, is_url (Stderr m) = false) by reflexivity.
  unfold check_gogfixes.
  apply closes_responses_bind;
    [apply gog_batches_loop_closes_responses | intros X1].
  apply silent_closes_responses.
  apply silent_bind; [|intros X2].
  { destruct (decide (X1 ≠ ∅)); [|apply silent_ret].
    apply silent_bind; [apply silent_print, Hst | intros _].
    apply gog_steam_loop_silent, Hst. }
  apply silent_bind; [|intros X3].
  { destruct (decide (X2 ≠ ∅)); [|apply silent_ret].
    destruct api as [host endpoint].
    apply silent_bind; [apply silent_conn_open | intros _].
    apply silent_bind; [apply silent_emit; reflexivity | intros _].
    apply silent_bind; [apply silent_print, Hst | intros _].
    apply silent_bind; [apply gog_umu_loop_silent, Hst | intros X'].
    apply silent_bind; [apply silent_conn_close | intros _].
    apply silent_ret. }
  apply silent_bind; [apply silent_print, Hst | intros _].
  destruct (decide (X3 ≠ ∅)); [apply silent_raise | apply silent_ret].
Qed.

(** X16.  Every response that a run of [main] opens with [urlopen] is
    closed before the next one is opened and before the run ends, also when
    the run ends with an exception. *)
Theorem responses_are_closed (w : World) (s : State) :
  exists l, closed_in_turn l = true
    /\ List.filter is_url (output (main w s).2)
       = (l ++ List.filter is_url (output s))%list.
Proof.
  assert (H : closes_responses (main w)).
  { assert (Hst : forall m, is_url (Stderr m) = false) by reflexivity.
    unfold main.
    apply closes_responses_bind;
      [apply silent_closes_responses, silent_emit; reflexivity | intros _].
    apply closes_responses_bind;
      [apply silent_closes_responses, check_links_silent, Hst | intros _].
    apply closes_responses_bind;
      [apply silent_closes_responses, check_filenames_silent, Hst | intros _].
    apply closes_responses_bind;
      [apply check_steamfixes_closes_responses | intros _].
    apply check_gogfixes_closes_responses. }
  apply (H s (main w s).1 (main w s).2). apply surjective_pairing.
Qed.

(** ** Files that do not count *)

Lemma batch_loop_filter sz files X count :
  batch_loop sz (List.filter (Py.startswith "umu-") files) X count
  = batch_loop sz files X count.
Proof.
  revert X count. induction files as [|f files IH]; intros X count;
    [reflexivity|].
  cbn [List.filter batch_loop].
  destruct (Py.startswith "umu-" f) eqn:Hf; cbn [negb batch_loop].
  - rewrite Hf. cbn [negb]. cbn zeta.
    destruct (count =? sz)%nat; rewrite IH; reflexivity.
  - apply IH.
Qed.

(** X17.  The batches depend on the entries whose name starts with [umu-]
    alone: whatever else [gamefixes-gog] holds, and wherever it comes in
    the listing, it changes neither the batches nor where they are cut. *)
Theorem batches_ignore_other_files (files : list string) (n : nat) :
  _batch_generator (List.filter (Py.startswith "umu-") files) n
  = _batch_generator files n.
Proof. rewrite !_batch_generator_eq. apply batch_loop_filter. Qed.

(** ** The umu database is asked once *)

Lemma asks_at_most_silent {A} (m : M A) :
  silent is_conn_request m -> asks_at_most 0 m.
Proof.
  intros Hm s r s' E. unfold asked. rewrite (Hm _ _ _ E). lia.
Qed.

Lemma asks_at_most_bind {A B} n1 n2 (m : M A) (f : A -> M B) :
  asks_at_most n1 m -> (forall a, asks_at_most n2 (f a)) ->
  asks_at_most (n1 + n2) (m ≫= f).
Proof.
  intros Hm Hf s r s' H. rewrite bind_unfold in H.
  destruct (m s) as [[a|e] s1] eqn:E.
  - apply Hm in E. apply Hf in H. lia.
  - injection H as _ <-. apply Hm in E. lia.
Qed.

Lemma asks_at_most_weaken {A} n n' (m : M A) :
  (n <= n')%nat -> asks_at_most n m -> asks_at_most n' m.
Proof. intros Hn Hm s r s' E. apply Hm in E. lia. Qed.

Lemma asks_at_most_request host path : asks_at_most 1 (emit (ConnRequest host path)).
Proof. intros s r s' H. injection H as _ <-. unfold asked. cbn. lia. Qed.

(** X18.  [check_gogfixes] asks the umu database at most once, however
    many ids and batches there are. *)
Theorem umu_database_is_asked_once w url api s :
  (asked (check_gogfixes w url api s).2 <= asked s + 1)%nat.
Proof.
  assert (Hst : forall m, is_conn_request (Stderr m) = false) by reflexivity.
  assert (H : asks_at_most (0 + (0 + (1 + 0))) (check_gogfixes w url api)).
  { unfold check_gogfixes.
    apply asks_at_most_bind; [|intros X1].
    { apply asks_at_most_silent, gog_batches_loop_silent;
        [exact Hst | reflexivity | reflexivity]. }
    apply asks_at_most_bind; [|intros X2].
    { apply asks_at_most_silent.
      destruct (decide (X1 ≠ ∅)); [|apply silent_ret].
      apply silent_bind; [apply silent_print, Hst | intros _].
      apply gog_steam_loop_silent, Hst. }
    apply asks_at_most_bind; [|intros X3].
    { apply asks_at_most_weaken with (n := (0 + (1 + 0))%nat); [lia|].
      destruct (decide (X2 ≠ ∅));
        [|apply asks_at_most_weaken with (n := 0%nat);
          [lia | apply asks_at_most_silent, silent_ret]].
      destruct api as [host endpoint].
      apply asks_at_most_bind;
        [apply asks_at_most_silent, silent_conn_open | intros _].
      apply asks_at_most_bind; [apply asks_at_most_request | intros _].
      apply asks_at_most_silent.
      apply silent_bind; [apply silent_print, Hst | intros _].
      apply silent_bind; [apply gog_umu_loop_silent, Hst | intros X'].
      apply silent_bind; [apply silent_conn_close | intros _].
      apply silent_ret. }
    apply asks_at_most_silent.
    apply silent_bind; [apply silent_print, Hst | intros _].
    destruct (decide (X3 ≠ ∅)); [apply silent_raise | apply silent_ret]. }
  apply (H s (check_gogfixes w url api s).1). apply surjective_pairing.
Qed.

(** ** The order in which sets are iterated *)

Lemma lift_run {A B} (m : M A) (f : A -> Proc B) (a : A) (p : Process) :
  returns m a ->
  exists p', global_whitelist_steam p' = global_whitelist_steam p
             /\ (lift m ≫= f) p = f a p'.
Proof.
  intros Hm. destruct (Hm (run_state p)) as (s1 & E & _).
  exists {| global_whitelist_steam := global_whitelist_steam p; run_state := s1 |}.
  split; [reflexivity|]. rewrite proc_bind_unfold. unfold lift. rewrite E.
  reflexivity.
Qed.

Lemma steam_scope_returns_any w host endpoint todo X :
  (forall a, clean (steam_appdetails w a) = true) ->
  (forall a, a ∈ todo <-> a ∈ X) ->
  returns (conn_open;;
           print (ValidatingSteam host);;
           appids ← steam_fallback_loop w host endpoint todo X;
           conn_close;;
           mret appids)
          (filter (fun a => succeeded w a = false) X).
Proof.
  intros Hw Hmem s. rewrite bind_unfold. cbn [conn_open].
  rewrite bind_unfold. cbn [print emit].
  match goal with |- context [ (?m ≫= ?f) ?s1 ] =>
    rewrite (bind_unfold m f s1);
    destruct (steam_fallback_loop_returns w host endpoint todo X Hw s1)
      as (s2 & E & C)
  end.
  rewrite E. rewrite bind_unfold. cbn [conn_close].
  eexists. split.
  - unfold mret, M_ret. f_equal. f_equal. apply set_eq. intros a.
    rewrite elem_of_difference, elem_of_list_to_set, list_elem_of_In, filter_In,
      <- list_elem_of_In, (Hmem a), elem_of_filter.
    destruct (succeeded w a); naive_solver.
  - cbn. rewrite C. reflexivity.
Qed.

(** With upstream answers that parse, and when the loop that collects the
    candidates ends, [check_steamfixes] comes down to its last loop, run on
    the candidates that neither source knows. *)
Lemma run_check_steamfixes_clean rt w url api p C :
  (forall X a, a ∈ rt_iter_int rt X <-> a ∈ X) ->
  clean (steam_applist w) = true ->
  (forall a, clean (steam_appdetails w a) = true) ->
  (Run.steam_collect rt (listdir (fs w) "gamefixes-steam") ∅ (run_state p)).1
  = Ok C ->
  let U := filter (fun a => (a ∉ items (steam_applist w))
                            /\ succeeded w a = false) C in
  exists p', global_whitelist_steam p' = global_whitelist_steam p
    /\ Run.check_steamfixes rt w url api p
       = Run.steam_verdict (rt_iter_int rt U) p'.
Proof.
  intros Hmem Hc Hw Hcol U. unfold Run.check_steamfixes.
  rewrite proc_bind_unfold. unfold lift at 1.
  destruct (run_steam_collect_spec rt (listdir (fs w) "gamefixes-steam") ∅
              (run_state p)) as [Hs _].
  destruct (Run.steam_collect rt _ ∅ (run_state p)) as [r s'].
  cbn [fst snd] in Hs, Hcol. subst r s'.
  match goal with |- context [ (lift ?m ≫= ?f) ?q ] =>
    destruct (lift_run m f tt q (returns_print _)) as (p1 & G1 & E1)
  end.
  rewrite E1. clear E1.
  set (X1 := C ∖ list_to_set (items (steam_applist w))).
  assert (Hcat : returns
    (with_urlopen url (steam_catalog_loop (steam_applist w) C)) X1)
    by apply returns_with_urlopen, steam_catalog_loop_returns, Hc.
  match goal with |- context [ (lift ?m ≫= ?f) p1 ] =>
    destruct (lift_run m f X1 p1 Hcat) as (p2 & G2 & E2)
  end.
  rewrite E2. clear E2.
  assert (Hblock : returns
    (if decide (X1 ≠ ∅) then
       let '(host, endpoint) := api in
       conn_open;; print (ValidatingSteam host);;
       appids ← steam_fallback_loop w host endpoint (rt_iter_int rt X1) X1;
       conn_close;; mret appids
     else mret X1) U).
  { assert (HX : filter (fun a => succeeded w a = false) X1 = U).
    { apply set_eq. intros a. unfold U, X1.
      rewrite !elem_of_filter, elem_of_difference, elem_of_list_to_set.
      naive_solver. }
    destruct (decide (X1 ≠ ∅)) as [Hne|He].
    - destruct api as [host endpoint]. rewrite <- HX.
      apply steam_scope_returns_any; [exact Hw | apply Hmem].
    - apply dec_stable in He. rewrite <- HX, He.
      replace (filter _ (∅ : gset Z)) with (∅ : gset Z) by set_solver.
      apply returns_ret. }
  match goal with |- context [ (lift ?m ≫= ?f) p2 ] =>
    destruct (lift_run m f U p2 Hblock) as (p3 & G3 & E3)
  end.
  rewrite E3. clear E3.
  match goal with |- context [ (lift ?m ≫= ?f) p3 ] =>
    destruct (lift_run m f tt p3 (returns_print _)) as (p4 & G4 & E4)
  end.
  rewrite E4. exists p4. cbn [global_whitelist_steam] in G1.
  split; [congruence | reflexivity].
Qed.

Lemma run_check_steamfixes_raise rt w url api p e :
  (Run.steam_collect rt (listdir (fs w) "gamefixes-steam") ∅ (run_state p)).1
  = Raise e ->
  (Run.check_steamfixes rt w url api p).1 = Raise e.
Proof.
  intros Hcol. unfold Run.check_steamfixes. rewrite proc_bind_unfold.
  unfold lift at 1.
  destruct (Run.steam_collect rt _ ∅ (run_state p)) as [r s'].
  cbn [fst] in Hcol. subst r. reflexivity.
Qed.

(** The last loop passes when every id it goes through is in the global. *)
Lemma run_steam_verdict_passed todo p :
  passed (Run.steam_verdict todo p).1
  = forallb (fun a => bool_decide (a ∈ global_whitelist_steam p)) todo.
Proof.
  induction todo as [|a todo IH]; cbn [Run.steam_verdict forallb];
    [reflexivity|].
  rewrite proc_bind_unfold. cbn [load_whitelist_steam].
  destruct (decide (a ∉ global_whitelist_steam p)) as [Hn|Hy].
  - rewrite bool_decide_eq_false_2 by exact Hn. reflexivity.
  - apply dec_stable in Hy. rewrite bool_decide_eq_true_2 by exact Hy.
    exact IH.
Qed.

Lemma forallb_members {A} (f : A -> bool) (l1 l2 : list A) :
  (forall a, a ∈ l1 <-> a ∈ l2) -> forallb f l1 = forallb f l2.
Proof.
  intros H. apply eq_true_iff_eq. rewrite !List.forallb_forall.
  split; intros Hf a Ha; apply Hf;
    apply list_elem_of_In, H, list_elem_of_In, Ha.
Qed.

Lemma same_verdict_passing (m1 m2 : Proc unit) :
  same_verdict m1 m2 -> same_passing m1 m2.
Proof.
  intros H p1 p2 Hg. destruct (H p1 p2 Hg) as [Hr Hg'].
  split; [rewrite Hr; reflexivity | exact Hg'].
Qed.

Lemma same_passing_bind (m1 m2 : Proc unit) (f1 f2 : unit -> Proc unit) :
  same_passing m1 m2 -> (forall a b, same_passing (f1 a) (f2 b)) ->
  same_passing (m1 ≫= f1) (m2 ≫= f2).
Proof.
  intros Hm Hf p1 p2 Hg. rewrite !proc_bind_unfold.
  destruct (Hm p1 p2 Hg) as [Hr Hg'].
  destruct (m1 p1) as [[a|e1] q1], (m2 p2) as [[b|e2] q2];
    cbn [fst snd passed] in Hr, Hg'; try discriminate Hr.
  - apply Hf. exact Hg'.
  - split; [reflexivity | exact Hg'].
Qed.

Lemma check_steamfixes_same_passing rt order_int order_str w url api :
  iterates_sets rt -> (forall X, order_int X ≡ₚ elements X) ->
  clean (steam_applist w) = true ->
  (forall a, clean (steam_appdetails w a) = true) ->
  same_passing (Run.check_steamfixes rt w url api)
               (Run.check_steamfixes (reorder rt order_int order_str) w url api).
Proof.
  intros Hrt Hord Hc Hw p1 p2 Hg.
  split; [|rewrite !check_steamfixes_keeps_globals; exact Hg].
  assert (Hmem1 : forall X a, a ∈ rt_iter_int rt X <-> a ∈ X).
  { intros X a. rewrite (Hrt X). apply elem_of_elements. }
  assert (Hmem2 : forall X a,
    a ∈ rt_iter_int (reorder rt order_int order_str) X <-> a ∈ X).
  { intros X a. cbn [reorder rt_iter_int]. rewrite (Hord X).
    apply elem_of_elements. }
  pose proof (steam_collect_same rt (reorder rt order_int order_str)
                (fun _ => eq_refl) (fun _ => eq_refl)
                (listdir (fs w) "gamefixes-steam") ∅
                (run_state p1) (run_state p2)) as Hsame.
  destruct (Run.steam_collect rt _ ∅ (run_state p1)).1 as [C|e] eqn:E1.
  - symmetry in Hsame.
    destruct (run_check_steamfixes_clean rt w url api p1 C Hmem1 Hc Hw E1)
      as (q1 & G1 & ->).
    destruct (run_check_steamfixes_clean _ w url api p2 C Hmem2 Hc Hw Hsame)
      as (q2 & G2 & ->).
    rewrite !run_steam_verdict_passed, G1, G2, Hg.
    apply forallb_members. intros a. rewrite Hmem1, Hmem2. reflexivity.
  - symmetry in Hsame.
    rewrite (run_check_steamfixes_raise rt w url api p1 e E1).
    rewrite (run_check_steamfixes_raise _ w url api p2 e Hsame).
    reflexivity.
Qed.

(** X20.  Whether a run passes does not depend on the order in which the
    interpreter iterates the sets of ids, those of the Steam ids no more
    than those of the GOG ids, when the answers of the app list and of the
    per-id query parse. *)
Theorem verdict_does_not_depend_on_order (rt : Runtime) (w : World)
    (order_int : gset Z -> list Z) (order_str : gset string -> list string)
    (g : gset Z) (s1 s2 : State) :
  iterates_sets rt -> (forall X, order_int X ≡ₚ elements X) ->
  clean (steam_applist w) = true ->
  (forall a, clean (steam_appdetails w a) = true) ->
  passed (Run.main rt w {| global_whitelist_steam := g; run_state := s1 |}).1
  = passed (Run.main (reorder rt order_int order_str) w
              {| global_whitelist_steam := g; run_state := s2 |}).1.
Proof.
  intros Hrt Hord Hc Hw.
  assert (H : same_passing (Run.main rt w)
                           (Run.main (reorder rt order_int order_str) w)).
  { unfold Run.main.
    apply same_passing_bind;
      [apply same_verdict_passing, same_verdict_lift, same_outcome_oblivious,
         oblivious_emit|].
    intros _ _. apply same_passing_bind;
      [apply same_verdict_passing, same_verdict_lift, same_outcome_oblivious,
         check_links_oblivious|].
    intros _ _. apply same_passing_bind;
      [apply same_verdict_passing, same_verdict_lift, check_filenames_same;
         reflexivity|].
    intros _ _. apply same_passing_bind;
      [apply check_steamfixes_same_passing; assumption|].
    intros _ _. apply same_verdict_passing, same_verdict_lift.
    apply check_gogfixes_same; reflexivity. }
  apply H. reflexivity.
Qed.

Lemma verdict_does_not_depend_on_order_witness :
  iterates_sets reference
  /\ (forall X : gset Z, rev (elements X) ≡ₚ elements X)
  /\ clean (steam_applist two_unknown_steam) = true
  /\ passed (Run.main reference two_unknown_steam (imported s0)).1
     = passed (Run.main (reorder reference (fun X => rev (elements X))
                                 (fun X => rev (elements X)))
                 two_unknown_steam (imported s0)).1.
Proof.
  assert (Hrev : forall X : gset Z, rev (elements X) ≡ₚ elements X)
    by (intros X; symmetry; apply Permutation_rev).
  split; [intros X; reflexivity|]. split; [exact Hrev|].
  split; [reflexivity|].
  apply (verdict_does_not_depend_on_order reference two_unknown_steam);
    [intros X; reflexivity | exact Hrev | reflexivity | intros a; reflexivity].
Defined.

(** The hypothesis on the answers is needed.  [r.read()] is skipped for the
    id that empties the set: when the answer for an id breaks off after it
    has named the id, the run fails if another id is asked for after it,
    and passes if it is the last one asked for. *)
Example scenario_cut_short_answer :
  passed (Run.main reference answer_cut_short (imported s0)).1
  ≠ passed (Run.main (reorder reference (fun X => rev (elements X)) elements)
              answer_cut_short (imported s0)).1.
Proof. vm_compute. discriminate. Qed.

(** What a run finds in its process is not idle: the global decides on the
    delisted game, and the hash seed shows in the request for the GOG ids. *)
Example scenario_global_and_seed :
  (Run.main reference delisted_only (imported s0)).1 = Ok tt
  /\ (Run.main reference delisted_only
        {| global_whitelist_steam := ∅; run_state := s0 |}).1
     = Raise (InvalidSteamAppId 231990)
  /\ List.filter is_urlopen
       (output (run_state (Run.main reference two_gog_fixes (imported s0)).2))
     ≠ List.filter is_urlopen
         (output (run_state
            (Run.main (reseed reference (fun X => rev (elements X)))
               two_gog_fixes (imported s0)).2)).
Proof.
  split; [vm_compute; reflexivity|]. split; [vm_compute; reflexivity|].
  vm_compute. discriminate.
Qed.

(** ** The interpreter that the checks assume *)

(** The checks of the first part are the checks of the process, for the
    interpreter [reference] and the global as the import sets it; they are
    the checks of any interpreter that is Python on ASCII strings and that
    iterates its sets in the order of [elements], on a project whose names
    are ASCII. *)

Section Agrees.
Context {A B : Type}.

Lemma agrees_lift (m : M A) : agrees (lift m) m.
Proof.
  intros s. unfold lift, imported. cbn [run_state global_whitelist_steam].
  destruct (m s). reflexivity.
Qed.

Lemma agrees_bind (call : Proc A) (m : M A) (f : A -> Proc B) (k : A -> M B) :
  agrees call m -> (forall a, agrees (f a) (k a)) -> agrees (call ≫= f) (m ≫= k).
Proof.
  intros Hm Hf s. rewrite proc_bind_unfold, bind_unfold, Hm.
  destruct (m s) as [[a|e] s']; cbn [fst snd]; [apply Hf | reflexivity].
Qed.

Lemma agrees_pure_bind (m : M A) (a : A) (f : A -> Proc B) (k : M B) :
  (forall s, m s = (Ok a, s)) -> agrees (f a) k -> agrees (lift m ≫= f) k.
Proof.
  intros Hm Hf s. rewrite proc_bind_unfold. unfold lift.
  cbn [imported run_state global_whitelist_steam]. rewrite Hm. apply Hf.
Qed.

End Agrees.

Lemma agrees_ext {A} (call : Proc A) (m m' : M A) :
  (forall s, m s = m' s) -> agrees call m -> agrees call m'.
Proof. intros H Hm s. rewrite <- H. apply Hm. Qed.

Lemma steam_verdict_agrees todo : agrees (Run.steam_verdict todo) (steam_verdict todo).
Proof.
  induction todo as [|a todo IH]; intros s;
    cbn [Run.steam_verdict steam_verdict]; [reflexivity|].
  rewrite proc_bind_unfold.
  cbn [load_whitelist_steam imported global_whitelist_steam].
  destruct (decide (a ∉ whitelist_steam)); [reflexivity | apply IH].
Qed.

Lemma is_ascii_substring (n m : nat) (s : string) :
  is_ascii s = true -> is_ascii (String.substring n m s) = true.
Proof.
  revert n m. induction s as [|c s IH]; intros n m Hs.
  - destruct n, m; reflexivity.
  - cbn [is_ascii] in Hs. apply andb_true_iff in Hs as [Hc Hs].
    destruct n as [|n]; [destruct m as [|m]|]; cbn [String.substring is_ascii].
    + reflexivity.
    + rewrite Hc. apply IH, Hs.
    + apply IH, Hs.
Qed.

Lemma length_substring (n m : nat) (s : string) :
  (String.length (String.substring n m s) <= String.length s)%nat.
Proof.
  revert n m. induction s as [|c s IH]; intros n m.
  - destruct n, m; cbn; lia.
  - destruct n as [|n]; [destruct m as [|m]|];
      cbn [String.substring String.length].
    + lia.
    + specialize (IH 0%nat m). lia.
    + specialize (IH n m). lia.
Qed.

Lemma plain_name_substring (n m : nat) (s : string) :
  plain_name s = true -> plain_name (String.substring n m s) = true.
Proof.
  unfold plain_name. intros [Ha Hl]%andb_true_iff. apply andb_true_iff.
  split; [apply is_ascii_substring, Ha|].
  apply Nat.leb_le in Hl. apply Nat.leb_le.
  pose proof (length_substring n m s). lia.
Qed.

Lemma plain_name_removesuffix (p s : string) :
  plain_name s = true -> plain_name (Py.removesuffix p s) = true.
Proof.
  intros Hs. unfold Py.removesuffix.
  destruct (_ && _); [apply plain_name_substring|]; exact Hs.
Qed.

Lemma plain_name_stem (s : string) :
  plain_name s = true -> plain_name (Py.stem s) = true.
Proof.
  intros Hs. unfold Py.stem.
  destruct (Py.rfind_dot s 0 None); [|exact Hs].
  destruct (_ && _); [apply plain_name_substring|]; exact Hs.
Qed.

Lemma listdir_ascii (fs : list Dir) (d : string) :
  ascii_tree fs = true -> ascii_names (listdir fs d) = true.
Proof.
  intros Hfs. unfold listdir.
  destruct (List.find _ fs) as [x|] eqn:E; [|reflexivity].
  apply List.find_some in E as [Hx _].
  unfold ascii_tree in Hfs. rewrite List.forallb_forall in Hfs.
  exact (Hfs x Hx).
Qed.

Lemma gamefixes_ascii (fs : list Dir) (m : Path) :
  ascii_tree fs = true -> m ∈ gamefixes fs -> plain_name (name (file m)) = true.
Proof.
  intros Hfs Hm.
  destruct (gamefixes_member fs m Hm) as (d & Hd & _ & He & _).
  unfold ascii_tree in Hfs. rewrite List.forallb_forall in Hfs.
  specialize (Hfs d (proj1 (list_elem_of_In _ _) Hd)).
  unfold ascii_names in Hfs. rewrite List.forallb_forall in Hfs.
  exact (Hfs _ (proj1 (list_elem_of_In _ _) He)).
Qed.

Section OnAscii.
Variable rt : Runtime.
Hypothesis Hrt : python_on_ascii rt.

Lemma filenames_loop_on_ascii ms s :
  (forall m, m ∈ ms -> plain_name (name (file m)) = true) ->
  Run.filenames_loop rt ms s = filenames_loop ms s.
Proof.
  revert s. induction ms as [|m ms IH]; intros s Hms; [reflexivity|].
  cbn [Run.filenames_loop filenames_loop]. rewrite !bind_unfold.
  cbn [print emit].
  destruct (Hrt (Py.stem (name (file m)))) as [-> _].
  { apply plain_name_stem, Hms. left. }
  repeat match goal with
  | |- (if ?b then _ else _) _ = _ => destruct b
  end; try reflexivity.
  apply IH. intros m' Hm'. apply Hms. right. exact Hm'.
Qed.

Lemma check_filenames_on_ascii fs s :
  ascii_tree fs = true ->
  Run.check_filenames rt fs s = check_filenames fs s.
Proof.
  intros Hfs. unfold Run.check_filenames, check_filenames.
  rewrite !bind_unfold. cbn [print emit].
  apply filenames_loop_on_ascii. intros m. apply gamefixes_ascii, Hfs.
Qed.

Lemma steam_collect_on_ascii files X s :
  ascii_names files = true ->
  Run.steam_collect rt files X s = (Ok (steam_collect files X), s).
Proof.
  revert X. induction files as [|f files IH]; intros X Hfiles; [reflexivity|].
  cbn [ascii_names forallb] in Hfiles.
  apply andb_true_iff in Hfiles as [Hf Hfiles].
  cbn [Run.steam_collect steam_collect]. cbn zeta.
  destruct (Hrt (Py.removesuffix ".py" (name f))) as [-> Hint].
  { apply plain_name_removesuffix, Hf. }
  destruct (Py.isnumeric (Py.removesuffix ".py" (name f))); cbn [negb].
  - rewrite (Hint eq_refl). apply IH, Hfiles.
  - apply IH, Hfiles.
Qed.

Hypothesis Hiter_int : forall X, rt_iter_int rt X = elements X.
Hypothesis Hiter_str : forall X, rt_iter_str rt X = elements X.

Lemma gog_batches_loop_on_ascii w url bs X s :
  Run.gog_batches_loop rt w url bs X s = gog_batches_loop w url bs X s.
Proof.
  revert X s. induction bs as [|b bs IH]; intros X s; [reflexivity|].
  cbn [Run.gog_batches_loop gog_batches_loop]. cbn zeta.
  rewrite Hiter_str, !bind_unfold. cbn [print emit]. rewrite !bind_unfold.
  match goal with |- context [ with_urlopen ?u ?m ?t ] =>
    destruct (with_urlopen u m t) as [[Y|e] s1]
  end; [apply IH | reflexivity].
Qed.

Lemma check_gogfixes_on_ascii w url api s :
  Run.check_gogfixes rt w url api s = check_gogfixes w url api s.
Proof.
  unfold Run.check_gogfixes, check_gogfixes.
  rewrite !(bind_unfold (_ _ w url _ ∅)), gog_batches_loop_on_ascii.
  reflexivity.
Qed.

Lemma check_steamfixes_on_ascii w url api :
  ascii_tree (fs w) = true ->
  agrees (Run.check_steamfixes rt w url api) (check_steamfixes w url api).
Proof.
  intros Hfs. unfold Run.check_steamfixes, check_steamfixes.
  eapply agrees_pure_bind.
  { intros s. apply steam_collect_on_ascii, listdir_ascii, Hfs. }
  apply agrees_bind; [apply agrees_lift | intros _].
  apply agrees_bind; [apply agrees_lift | intros X1].
  rewrite Hiter_int.
  apply agrees_bind; [apply agrees_lift | intros X2].
  apply agrees_bind; [apply agrees_lift | intros _].
  rewrite Hiter_int. apply steam_verdict_agrees.
Qed.

(** On a project whose names are ASCII, a call of [main] in a process that
    has imported the module is the run of the first part. *)
Lemma main_on_ascii w :
  ascii_tree (fs w) = true -> agrees (Run.main rt w) (main w).
Proof.
  intros Hfs. unfold Run.main, main.
  apply agrees_bind; [apply agrees_lift | intros _].
  apply agrees_bind; [apply agrees_lift | intros _].
  apply agrees_bind.
  { eapply agrees_ext; [|apply agrees_lift].
    intros s. apply check_filenames_on_ascii, Hfs. }
  intros _. apply agrees_bind; [apply check_steamfixes_on_ascii, Hfs|].
  intros _. eapply agrees_ext; [|apply agrees_lift].
  intros s. apply check_gogfixes_on_ascii.
Qed.

End OnAscii.

Lemma filenames_loop_reference ms s :
  Run.filenames_loop reference ms s = filenames_loop ms s.
Proof.
  revert s. induction ms as [|m ms IH]; intros s; [reflexivity|].
  cbn [Run.filenames_loop filenames_loop reference rt_isnumeric].
  rewrite !bind_unfold. cbn [print emit].
  repeat match goal with
  | |- (if ?b then _ else _) _ = _ => destruct b
  end; try reflexivity.
  apply IH.
Qed.

Lemma steam_collect_reference files X s :
  Run.steam_collect reference files X s = (Ok (steam_collect files X), s).
Proof.
  revert X. induction files as [|f files IH]; intros X; [reflexivity|].
  cbn [Run.steam_collect steam_collect reference rt_isnumeric rt_int]. cbn zeta.
  destruct (negb _); apply IH.
Qed.

(** For the interpreter [reference], a call of [main] in a process that has
    imported the module is the run of the first part, on every project. *)
Lemma main_reference w : agrees (Run.main reference w) (main w).
Proof.
  unfold Run.main, main.
  apply agrees_bind; [apply agrees_lift | intros _].
  apply agrees_bind; [apply agrees_lift | intros _].
  apply agrees_bind.
  { eapply agrees_ext; [|apply agrees_lift].
    intros s. unfold Run.check_filenames, check_filenames.
    rewrite !bind_unfold. cbn [print emit]. apply filenames_loop_reference. }
  intros _. apply agrees_bind.
  { unfold Run.check_steamfixes, check_steamfixes.
    eapply agrees_pure_bind; [intros s; apply steam_collect_reference|].
    apply agrees_bind; [apply agrees_lift | intros _].
    apply agrees_bind; [apply agrees_lift | intros X1].
    apply agrees_bind; [apply agrees_lift | intros X2].
    apply agrees_bind; [apply agrees_lift | intros _].
    apply steam_verdict_agrees. }
  intros _. eapply agrees_ext; [|apply agrees_lift].
  intros s. apply (check_gogfixes_on_ascii reference); reflexivity.
Qed.
